(** * Camera movement detection: the detection-and-scoring pipeline

    A shallow embedding of [movement_detector/scoring.py],
    [movement_detector/utils.py] and [movement_detector/detector.py].

    Numbers: Python floats are read as real numbers ([R]); rounding, NaN and
    signed zeros are outside this model.  Pixel intensities are integers ([Z]).
    OpenCV routines whose implementation is not part of the repository
    (ORB, the brute-force matcher, RANSAC homography fitting, corner
    detection, pyramidal optical flow, Canny, colour conversion, blurring)
    are the fields of the class [OpenCV]; the detector is parametric in
    them.  The calls the program wraps in [try ... except] may raise, and
    the error is swallowed; the colour conversion, the matcher and the
    homography estimator are called outside any [try], and when one of them
    raises so does the function that called it.  Smoothing and ORB are taken
    to return on every 8-bit image. *)

From Stdlib Require Import Reals Lra Lia ZArith List Bool Permutation Sorted.
From Stdlib Require String.
Import String.StringSyntax.
Delimit Scope string_scope with string.
Import ListNotations.
Open Scope R_scope.

(** ** Exceptions *)

Inductive exc (A : Type) : Type :=
| Ok (a : A)
| Raise.
Arguments Ok {A} a.
Arguments Raise {A}.

Definition bind {A B : Type} (m : exc A) (k : A -> exc B) : exc B :=
  match m with
  | Ok a => k a
  | Raise => Raise
  end.

Notation "x <- m ;; k" := (bind m (fun x => k))
  (at level 61, m at next level, right associativity).
Notation "' p <- m ;; k" := (bind m (fun x => let p := x in k))
  (at level 61, p pattern, m at next level, right associativity).

(** [try: return float(m) except: return 0.0] *)
Definition try_or_zero (m : exc R) : R :=
  match m with
  | Ok v => v
  | Raise => 0
  end.

(** A call that is not inside a [try]: it returns [value] when the routine
    accepts its arguments, and raises otherwise. *)
Definition call {A : Type} (accepts : bool) (value : A) : exc A :=
  if accepts then Ok value else Raise.

(** ** Comparisons on floats, as booleans *)

Definition Rltb (x y : R) : bool := if Rlt_dec x y then true else false.
Definition Rleb (x y : R) : bool := if Rle_dec x y then true else false.
Definition Reqb (x y : R) : bool := if Req_dec_T x y then true else false.

(** ** Python's [sorted] *)

(** Stable insertion into a list sorted by [key]. *)
Fixpoint insert {A : Type} (key : A -> R) (x : A) (l : list A) : list A :=
  match l with
  | [] => [x]
  | y :: l' => if Rleb (key x) (key y) then x :: l else y :: insert key x l'
  end.

(** [sorted(l, key=key)], which is stable; [np.median] sorts the same way. *)
Fixpoint sorted {A : Type} (key : A -> R) (l : list A) : list A :=
  match l with
  | [] => []
  | x :: l' => insert key x (sorted key l')
  end.

(** ** The numpy operations the program uses *)

Module np.

Definition Pt : Type := (R * R)%type.

Definition sum (a : list R) : R := fold_right Rplus 0 a.

Definition mean (a : list R) : R := sum a / INR (length a).

(** [np.var]: the population variance, mean(|a - mean(a)|^2). *)
Definition var (a : list R) : R :=
  let m := mean a in mean (map (fun x => Rabs (x - m) ^ 2) a).

(** [np.median]: the middle element of the sorted array, or the mean of
    the two middle elements.  The program calls it on non-empty arrays
    only; on the empty list this definition gives 0. *)
Definition median (a : list R) : R :=
  let s := sorted (fun x => x) a in
  let n := length a in
  if Nat.even n
  then (nth (n / 2 - 1) s 0 + nth (n / 2) s 0) / 2
  else nth (n / 2) s 0.

(** [np.linalg.norm(., axis=1)] on rows of two coordinates. *)
Definition norm (p : Pt) : R := sqrt (fst p ^ 2 + snd p ^ 2).

Definition sub (p q : Pt) : Pt := (fst p - fst q, snd p - snd q).

Fixpoint zip_sub (a b : list Pt) : list Pt :=
  match a, b with
  | p :: a', q :: b' => sub p q :: zip_sub a' b'
  | _, _ => []
  end.

(** [a - b] for arrays of shape (n, 2) and (m, 2), with numpy's
    broadcasting: a single row is repeated, any other mismatch raises
    ValueError. *)
Definition subtract (a b : list Pt) : exc (list Pt) :=
  if Nat.eqb (length a) (length b) then Ok (zip_sub a b)
  else match a, b with
       | _, [q] => Ok (map (fun p => sub p q) a)
       | [p], _ => Ok (map (fun q => sub p q) b)
       | _, _ => Raise
       end.

(** [np.arctan2(y, x)], the angle of the point (x, y) in (-pi, pi]. *)
Definition arctan2 (y x : R) : R :=
  if Rltb 0 x then atan (y / x)
  else if Rltb x 0 then
    (if Rleb 0 y then atan (y / x) + PI else atan (y / x) - PI)
  else if Rltb 0 y then PI / 2
  else if Rltb y 0 then - (PI / 2)
  else 0.

(** [np.degrees(x)]: radians to degrees. *)
Definition degrees (x : R) : R := x * (180 / PI).

(** [a[mask == 1]] for a mask with one entry per row; a mask of another
    length raises IndexError. *)
Fixpoint select {A : Type} (a : list A) (mask : list Z) : exc (list A) :=
  match a, mask with
  | [], [] => Ok []
  | x :: a', s :: mask' =>
      r <- select a' mask' ;;
      Ok (if Z.eqb s 1 then x :: r else r)
  | _, _ => Raise
  end.

End np.

(** ** scoring.py *)

(** A 3x3 matrix; [hij] is [H[i, j]]. *)
Record Matrix : Type := mkMatrix {
  h00 : R; h01 : R; h02 : R;
  h10 : R; h11 : R; h12 : R;
  h20 : R; h21 : R; h22 : R
}.

(** [np.linalg.norm(dst_pts.reshape(-1, 2) - src_pts.reshape(-1, 2), axis=1)] *)
Definition displacements (src_pts dst_pts : list np.Pt) : exc (list R) :=
  d <- np.subtract dst_pts src_pts ;;
  Ok (map np.norm d).

Definition translation_magnitude (H : Matrix) : R :=
  sqrt (h02 H ^ 2 + h12 H ^ 2).

Definition rotation_magnitude (H : Matrix) : R :=
  Rabs (np.arctan2 (h10 H) (h00 H)).

Definition scale_change (H : Matrix) : R :=
  let scale_x := sqrt (h00 H ^ 2 + h10 H ^ 2) in
  let scale_y := sqrt (h01 H ^ 2 + h11 H ^ 2) in
  Rabs (1 - (scale_x + scale_y) / 2).

Definition perspective_dist (H : Matrix) : R :=
  Rabs (h20 H) + Rabs (h21 H).

Definition calculate_movement_score
    (H : option Matrix) (src_pts dst_pts : list np.Pt) : R :=
  match H with
  | Some H =>
      try_or_zero (
        displacement_variance <-
          (if (0 <? length src_pts)%nat && (0 <? length dst_pts)%nat then
             ds <- displacements src_pts dst_pts ;;
             Ok (if (1 <? length ds)%nat then np.var ds else 0)
           else Ok 0) ;;
        Ok (translation_magnitude H * 1.5 +
            rotation_magnitude H * 30 +
            scale_change H * 50 +
            perspective_dist H * 20 +
            displacement_variance * 0.1))
  | None =>
      try_or_zero (
        if (length src_pts =? 0)%nat || (length dst_pts =? 0)%nat then Ok 0
        else
          ds <- displacements src_pts dst_pts ;;
          Ok (np.median ds + np.var ds * 0.1))
  end.

(** The dictionary [classify_movement_type] returns: its five keys. *)
Record MovementType : Type := mkMovementType {
  translation_x : R;
  translation_y : R;
  rotation : R;
  scaling : R;
  perspective : R
}.

Definition classify_movement_type (transformation_matrix : option Matrix)
    : MovementType :=
  match transformation_matrix with
  | None => mkMovementType 0 0 0 1 0
  | Some m =>
      let translation_x := h02 m in
      let translation_y := h12 m in
      let rotation := np.degrees (np.arctan2 (h10 m) (h00 m)) in
      let scaling_x := sqrt (h00 m ^ 2 + h10 m ^ 2) in
      let scaling_y := sqrt (h01 m ^ 2 + h11 m ^ 2) in
      let scaling := (scaling_x + scaling_y) / 2 in
      let perspective := Rabs (h20 m) + Rabs (h21 m) in
      mkMovementType translation_x translation_y rotation scaling perspective
  end.

(** *** The score formulas as the specification words them *)

(** The Euclidean displacement of one matched pair of points. *)
Definition pair_displacement (pq : np.Pt * np.Pt) : R :=
  let '(p, q) := pq in
  sqrt ((fst q - fst p) ^ 2 + (snd q - snd p) ^ 2).

(** The variance of a list of numbers: the mean of the squared deviations
    from the mean. *)
Definition variance (a : list R) : R :=
  let m := np.sum a / INR (length a) in
  np.sum (map (fun x => (x - m) ^ 2) a) / INR (length a).

(** The variance, taken as 0 when there are fewer than 2 numbers. *)
Definition variance_or_zero (a : list R) : R :=
  if (length a <? 2)%nat then 0 else variance a.

(** translationMagnitude*1.5 + rotationMagnitude*30 + scaleChange*50 +
    perspectiveDistortion*20 + displacementVariance*0.1 *)
Definition spec_homography_score (H : Matrix) (pairs : list (np.Pt * np.Pt)) : R :=
  sqrt (h02 H ^ 2 + h12 H ^ 2) * 1.5 +
  Rabs (np.arctan2 (h10 H) (h00 H)) * 30 +
  Rabs (1 - (sqrt (h00 H ^ 2 + h10 H ^ 2) + sqrt (h01 H ^ 2 + h11 H ^ 2)) / 2) * 50 +
  (Rabs (h20 H) + Rabs (h21 H)) * 20 +
  0.1 * variance_or_zero (map pair_displacement pairs).

(** medianDisplacement + variance(displacement)*0.1 *)
Definition spec_degenerate_score (pairs : list (np.Pt * np.Pt)) : R :=
  let ds := map pair_displacement pairs in
  np.median ds + 0.1 * variance ds.

(** ** Images and frames *)

(** A single-channel 8-bit image: its shape (rows, columns) and its pixels
    in row-major order. *)
Record Image : Type := mkImage {
  shape : nat * nat;
  pix : list Z
}.

(** A frame as the caller supplies it: [len(frame.shape) == 3] for a colour
    frame (rows, columns, channels), a two-dimensional array otherwise. *)
Inductive Frame : Type :=
| Frame2D (img : Image)
| Frame3D (shape3 : nat * nat * nat) (pix3 : list Z).

Record KeyPoint : Type := mkKeyPoint { pt : np.Pt }.

(** One row of ORB's descriptor array. *)
Definition Descriptor : Type := list Z.

Record DMatch : Type := mkDMatch {
  queryIdx : nat;
  trainIdx : nat;
  distance : R
}.

Module cv2.

Fixpoint zip_absdiff (a b : list Z) : list Z :=
  match a, b with
  | x :: a', y :: b' => Z.abs (x - y) :: zip_absdiff a' b'
  | _, _ => []
  end.

(** [cv2.absdiff]: the per-pixel absolute difference; arrays of different
    sizes are rejected with an error. *)
Definition absdiff (a b : Image) : exc Image :=
  if Nat.eqb (fst (shape a)) (fst (shape b))
     && Nat.eqb (snd (shape a)) (snd (shape b))
     && Nat.eqb (length (pix a)) (length (pix b))
  then Ok (mkImage (shape a) (zip_absdiff (pix a) (pix b)))
  else Raise.

(** [cv2.threshold(src, thresh, maxval, cv2.THRESH_BINARY)] *)
Definition threshold (src : Image) (thresh maxval : Z) : Image :=
  mkImage (shape src)
          (map (fun p => if (thresh <? p)%Z then maxval else 0%Z) (pix src)).

End cv2.

(** [max(scores) if scores else 0] *)
Definition py_max (scores : list R) : R :=
  match scores with
  | [] => 0
  | s :: rest => fold_left Rmax rest s
  end.

(** Elements of [kp] at the indices [sel m], for each match in turn; an index
    out of range raises IndexError. *)
Fixpoint points_at (kp : list KeyPoint) (sel : DMatch -> nat)
    (ms : list DMatch) : exc (list np.Pt) :=
  match ms with
  | [] => Ok []
  | m :: ms' =>
      match nth_error kp (sel m) with
      | Some k => r <- points_at kp sel ms' ;; Ok (pt k :: r)
      | None => Raise
      end
  end.

(** [if c: l.append(idx)] *)
Definition append_if (c : bool) (l : list nat) (idx : nat) : list nat :=
  if c then l ++ [idx] else l.

(** The detector object: its three parameters. *)
Record CameraMovementDetector : Type := mkDetector {
  threshold_feature : R;
  threshold_homography : R;
  min_match_count : Z
}.

Record DetectionResult : Type := mkResult {
  movement_indices : list nat;
  movement_scores : list R;
  transformation_matrices : list (option Matrix)
}.

(** The variables of the loop of [detect]. *)
Record Loop : Type := mkLoop {
  prev_frame : option Image;
  prev_kp : option (list KeyPoint);
  prev_des : option (list Descriptor);
  result : DetectionResult
}.

(** ** The OpenCV routines the program calls

    Their implementation is outside the repository: the detector is
    parametric in them.  Every call that can raise is modelled as such: the
    calls inside [try ... except] return an [exc]; for the three calls that
    [detect] and [match_features] make outside any [try], a field
    [..._accepts] says whether the call returns on its arguments (it raises
    [cv2.error] otherwise) and a second field what it returns when it
    does. *)
Class OpenCV : Type := {
  (** [cv2.cvtColor(frame, cv2.COLOR_BGR2GRAY)] on an array of three
      dimensions: it raises unless the channel count is one the conversion
      knows. *)
  cvtColor_accepts : nat * nat * nat -> list Z -> bool;
  cvtColor : nat * nat * nat -> list Z -> Image;
  (** [cv2.GaussianBlur(gray, (3, 3), 0)] *)
  GaussianBlur : Image -> Image;
  (** [orb.detectAndCompute(gray, None)]; the descriptor array is [None]
      when no keypoint is found. *)
  detectAndCompute : Image -> list KeyPoint * option (list Descriptor);
  (** [bf.match(prev_des, des)], Hamming distance with cross-check: it
      raises on descriptor arrays of different width or type. *)
  bf_match_accepts : list Descriptor -> list Descriptor -> bool;
  bf_match : list Descriptor -> list Descriptor -> list DMatch;
  (** [cv2.findHomography(src_pts, dst_pts, cv2.RANSAC, 3.0, maxIters=1000)],
      the matrix only; [None] when no model is found.  It raises on fewer
      than four pairs of points. *)
  findHomography_accepts : list np.Pt -> list np.Pt -> bool;
  findHomography : list np.Pt -> list np.Pt -> option Matrix;
  (** [cv2.goodFeaturesToTrack(prev_frame, 100, 0.01, 10)]; [None] when the
      image has no corner. *)
  goodFeaturesToTrack : Image -> exc (option (list np.Pt));
  (** [cv2.calcOpticalFlowPyrLK(prev_frame, curr_frame, corners, None)]: the
      new positions and the status flags (the error array is unused). *)
  calcOpticalFlowPyrLK :
    Image -> Image -> list np.Pt -> exc (list np.Pt * list Z);
  (** [cv2.Canny(frame, 50, 150)] *)
  Canny : Image -> exc Image
}.

Section OpenCV.

Context {cv : OpenCV}.

(** *** utils.py *)

Definition calculate_frame_difference_score (prev_frame curr_frame : Image) : R :=
  try_or_zero (
    diff <- cv2.absdiff prev_frame curr_frame ;;
    let thresh := cv2.threshold diff 25 255 in
    let changed_pixels := length (filter (fun p => (0 <? p)%Z) (pix thresh)) in
    let total_pixels := (fst (shape thresh) * snd (shape thresh))%nat in
    let change_percentage := INR changed_pixels / INR total_pixels * 100 in
    let mean_diff := np.mean (map IZR (pix diff)) in
    Ok (change_percentage + mean_diff * 0.1)).

Definition calculate_optical_flow_score (prev_frame curr_frame : Image) : R :=
  try_or_zero (
    corners <- goodFeaturesToTrack prev_frame ;;
    match corners with
    | Some corners =>
        if (10 <? length corners)%nat then
          '(next_corners, status) <-
            calcOpticalFlowPyrLK prev_frame curr_frame corners ;;
          good_old <- np.select corners status ;;
          good_new <- np.select next_corners status ;;
          if (5 <? length good_old)%nat then
            d <- np.subtract good_new good_old ;;
            Ok (np.median (map np.norm d) * 3)
          else Ok 0
        else Ok 0
    | None => Ok 0
    end).

Definition calculate_edge_motion_score (prev_frame curr_frame : Image) : R :=
  try_or_zero (
    edges_prev <- Canny prev_frame ;;
    edges_curr <- Canny curr_frame ;;
    edge_diff <- cv2.absdiff edges_prev edges_curr ;;
    let edge_motion := np.mean (map IZR (pix edge_diff)) in
    Ok (edge_motion * 0.5)).

(** *** detector.py *)

(** The adaptive filter of [detect] on the sorted matches. *)
Definition good_matches_of (matches : list DMatch) : list DMatch :=
  match matches with
  | [] => []
  | m0 :: _ =>
      let distance_threshold := Rmin 50 (distance m0 * 2.5) in
      filter (fun m => Rltb (distance m) distance_threshold) matches
  end.

(** The three fallback signals and their maximum. *)
Definition fallback_score (prev_frame gray : Image) : R :=
  let diff_score := calculate_frame_difference_score prev_frame gray in
  let flow_score := calculate_optical_flow_score prev_frame gray in
  let edge_score := calculate_edge_motion_score prev_frame gray in
  py_max [diff_score; flow_score; edge_score].

(** The body of [if len(prev_des) > 0 and len(des) > 0:] up to the two
    final appends: it extends [movement_indices] in place and leaves
    [movement_score] and [H] for the caller to record. *)
Definition compare_frames (self : CameraMovementDetector) (idx : nat)
    (prev_frame : Image) (prev_kp : list KeyPoint) (prev_des : list Descriptor)
    (gray : Image) (kp : list KeyPoint) (des : list Descriptor)
    (movement_indices : list nat)
    : exc (list nat * R * option Matrix) :=
  matches <- call (bf_match_accepts prev_des des) (bf_match prev_des des) ;;
  let matches := sorted distance matches in
  let good_matches := good_matches_of matches in
  '(movement_indices, movement_score, H) <-
    (if (min_match_count self <=? Z.of_nat (length good_matches))%Z then
       src_pts <- points_at prev_kp queryIdx good_matches ;;
       dst_pts <- points_at kp trainIdx good_matches ;;
       H <- call (findHomography_accepts src_pts dst_pts)
                 (findHomography src_pts dst_pts) ;;
       match H with
       | Some _ =>
           let movement_score := calculate_movement_score H src_pts dst_pts in
           Ok (append_if (Rltb (threshold_homography self) movement_score)
                         movement_indices idx,
               movement_score, H)
       | None =>
           let movement_score := calculate_movement_score None src_pts dst_pts in
           Ok (append_if (Rltb (threshold_homography self * 0.5) movement_score)
                         movement_indices idx,
               movement_score, H)
       end
     else Ok (movement_indices, 0, None)) ;;
  if Reqb movement_score 0
     || (Z.of_nat (length good_matches) <? min_match_count self)%Z
  then
    let movement_score := fallback_score prev_frame gray in
    Ok (append_if (Rltb (threshold_feature self) movement_score)
                  movement_indices idx,
        movement_score, H)
  else Ok (movement_indices, movement_score, H).

(** [movement_scores.append(s); transformation_matrices.append(H)] *)
Definition record_transition (res : DetectionResult) (indices : list nat)
    (s : R) (H : option Matrix) : DetectionResult :=
  mkResult indices
           (movement_scores res ++ [s])
           (transformation_matrices res ++ [H]).

(** [cv2.cvtColor(frame, cv2.COLOR_BGR2GRAY) if len(frame.shape) == 3 else
    frame.copy()] *)
Definition to_gray (frame : Frame) : exc Image :=
  match frame with
  | Frame3D sh px => call (cvtColor_accepts sh px) (cvtColor sh px)
  | Frame2D img => Ok img
  end.

(** One iteration of [for idx, frame in enumerate(frames)]. *)
Definition loop_body (self : CameraMovementDetector) (st : Loop)
    (idx : nat) (frame : Frame) : exc Loop :=
  gray <- to_gray frame ;;
  let gray := GaussianBlur gray in
  let '(kp, des) := detectAndCompute gray in
  let res := result st in
  res <- match prev_frame st, prev_des st, des with
         | Some pf, Some pdes, Some d =>
             if (0 <? length pdes)%nat && (0 <? length d)%nat then
               match prev_kp st with
               | Some pkp =>
                   '(indices, movement_score, H) <-
                     compare_frames self idx pf pkp pdes gray kp d
                                    (movement_indices res) ;;
                   Ok (record_transition res indices movement_score H)
               | None => Raise
               end
             else Ok (record_transition res (movement_indices res) 0 None)
         | _, _, _ =>
             if (0 <? idx)%nat
             then Ok (record_transition res (movement_indices res) 0 None)
             else Ok res
         end ;;
  Ok (mkLoop (Some gray) (Some kp) des res).

Fixpoint for_frames (self : CameraMovementDetector) (st : Loop)
    (idx : nat) (frames : list Frame) : exc Loop :=
  match frames with
  | [] => Ok st
  | frame :: rest =>
      st' <- loop_body self st idx frame ;;
      for_frames self st' (S idx) rest
  end.

Definition initial : Loop := mkLoop None None None (mkResult [] [] []).

Definition detect (self : CameraMovementDetector) (frames : list Frame)
    : exc DetectionResult :=
  st <- for_frames self initial 0 frames ;;
  Ok (result st).

(** *** features.py *)

Definition extract_features (frame : Frame)
    : exc (list KeyPoint * option (list Descriptor)) :=
  gray <- to_gray frame ;;
  let gray := GaussianBlur gray in
  Ok (detectAndCompute gray).

Definition match_features (des1 des2 : option (list Descriptor))
    : exc (list DMatch) :=
  match des1, des2 with
  | Some d1, Some d2 =>
      if (0 <? length d1)%nat && (0 <? length d2)%nat
      then
        matches <- call (bf_match_accepts d1 d2) (bf_match d1 d2) ;;
        Ok (sorted distance matches)
      else Ok []
  | _, _ => Ok []
  end.

(** *** The grayscale image of a frame

    The definitions below are not in the program: [accepted] says whether
    the conversion at the head of the loop body returns on a frame, and
    [preprocess] is the image the loop then holds for it (converted and
    smoothed). *)
Definition accepted (frame : Frame) : bool :=
  match frame with
  | Frame3D sh px => cvtColor_accepts sh px
  | Frame2D _ => true
  end.

Definition preprocess (frame : Frame) : Image :=
  let gray := match frame with
              | Frame3D sh px => cvtColor sh px
              | Frame2D img => img
              end in
  GaussianBlur gray.

(** *** The loop, read as one outcome per adjacent pair of frames

    The definitions below are not in the program: they say what an
    iteration with [idx > 0] contributes, as a function of the two frames
    alone.  [detect_transitions] proves that the loop computes exactly
    this. *)

(** What the iteration that reads [f2] after [f1] contributes: the indices
    it appends, the score and the matrix it records. *)
Definition transition (self : CameraMovementDetector) (idx : nat)
    (f1 f2 : Frame) : exc (list nat * R * option Matrix) :=
  let prev_frame := preprocess f1 in
  let prev_kp := fst (detectAndCompute prev_frame) in
  let gray := preprocess f2 in
  let kp := fst (detectAndCompute gray) in
  match snd (detectAndCompute prev_frame), snd (detectAndCompute gray) with
  | Some pdes, Some d =>
      if (0 <? length pdes)%nat && (0 <? length d)%nat
      then compare_frames self idx prev_frame prev_kp pdes gray kp d []
      else Ok ([], 0, None)
  | _, _ => Ok ([], 0, None)
  end.

Fixpoint transitions (self : CameraMovementDetector) (idx : nat)
    (frames : list Frame) : exc (list (list nat * R * option Matrix)) :=
  match frames with
  | f1 :: rest =>
      match rest with
      | f2 :: _ =>
          o <- transition self idx f1 f2 ;;
          os <- transitions self (S idx) rest ;;
          Ok (o :: os)
      | [] => Ok []
      end
  | [] => Ok []
  end.

Definition flags_of (o : list nat * R * option Matrix) : list nat := fst (fst o).
Definition score_of (o : list nat * R * option Matrix) : R := snd (fst o).
Definition matrix_of (o : list nat * R * option Matrix) : option Matrix := snd o.

(** The result lists extended by a sequence of outcomes. *)
Definition extend (res : DetectionResult)
    (outs : list (list nat * R * option Matrix)) : DetectionResult :=
  mkResult (movement_indices res ++ concat (map flags_of outs))
           (movement_scores res ++ map score_of outs)
           (transformation_matrices res ++ map matrix_of outs).

(** The loop variables after the iteration that read [f]. *)
Definition after (f : Frame) (res : DetectionResult) : Loop :=
  let gray := preprocess f in
  mkLoop (Some gray) (Some (fst (detectAndCompute gray)))
         (snd (detectAndCompute gray)) res.

(** *** Vocabulary of the claims *)

(** Both descriptor arrays are present and have at least one row: the test
    [prev_des is not None and des is not None] followed by
    [len(prev_des) > 0 and len(des) > 0]. *)
Definition usable (pdes d : option (list Descriptor)) : bool :=
  match pdes, d with
  | Some pdes, Some d => (0 <? length pdes)%nat && (0 <? length d)%nat
  | _, _ => false
  end.

(** The bar a geometric score is held against: [threshold_homography] for a
    fitted matrix, half of it when the fit failed. *)
Definition geometric_bar (self : CameraMovementDetector) (H : option Matrix) : R :=
  match H with
  | Some _ => threshold_homography self
  | None => threshold_homography self * 0.5
  end.



(** OpenCV's contract between ORB and the matcher: ORB's descriptor arrays
    all have the same width and type, so the matcher takes any two of
    them. *)
Definition matcher_accepts_orb : Prop :=
  forall img1 img2 d1 d2,
    snd (detectAndCompute img1) = Some d1 ->
    snd (detectAndCompute img2) = Some d2 ->
    bf_match_accepts d1 d2 = true.

(** OpenCV's contract for the estimator: it takes four or more pairs of
    points. *)
Definition estimator_accepts_four : Prop :=
  forall src_pts dst_pts,
    (4 <= length src_pts)%nat -> length src_pts = length dst_pts ->
    findHomography_accepts src_pts dst_pts = true.

(** [good_old] are the corners detected in [prev] that the tracker followed
    into [curr] (status 1), [good_new] their new positions. *)
Definition tracked (prev curr : Image) (corners good_old good_new : list np.Pt)
    : Prop :=
  goodFeaturesToTrack prev = Ok (Some corners) /\
  exists next_corners status,
    calcOpticalFlowPyrLK prev curr corners = Ok (next_corners, status) /\
    np.select corners status = Ok good_old /\
    np.select next_corners status = Ok good_new.

(** The score recorded for the transition from frame [k] to frame [k+1]. *)
Definition recorded (r : DetectionResult) (k : nat) (s : R) : Prop :=
  nth_error (movement_scores r) k = Some s.

(** The matrix recorded for that transition. *)
Definition stored (r : DetectionResult) (k : nat) (H : option Matrix) : Prop :=
  nth_error (transformation_matrices r) k = Some H.

(** The transition is flagged: the index of its later frame is reported. *)
Definition flagged (r : DetectionResult) (k : nat) : Prop :=
  In (S k) (movement_indices r).

(** The invariant of a result for [n] frames: the reported indices are
    strictly ascending and lie in 1 .. n-1, every transition has a
    non-negative score, and every reported index has a positive score at its
    transition (the one that ends in the reported frame). *)
Definition result_invariant (n : nat) (r : DetectionResult) : Prop :=
  StronglySorted lt (movement_indices r) /\
  (forall j, In j (movement_indices r) -> (1 <= j <= n - 1)%nat) /\
  (forall i, (i < n - 1)%nat ->
             exists s, nth_error (movement_scores r) i = Some s /\ 0 <= s) /\
  (forall j, In j (movement_indices r) ->
             exists s, nth_error (movement_scores r) (j - 1) = Some s /\ 0 < s).

(** The two frames were matched and at least [min_match_count] good matches
    were found; [src_pts] and [dst_pts] are their matched points. *)
Definition enough_good_matches (self : CameraMovementDetector) (f1 f2 : Frame)
    (src_pts dst_pts : list np.Pt) : Prop :=
  exists pdes d,
    snd (detectAndCompute (preprocess f1)) = Some pdes /\
    snd (detectAndCompute (preprocess f2)) = Some d /\
    (0 < length pdes)%nat /\ (0 < length d)%nat /\
    let good_matches := good_matches_of (sorted distance (bf_match pdes d)) in
    (min_match_count self <= Z.of_nat (length good_matches))%Z /\
    points_at (fst (detectAndCompute (preprocess f1))) queryIdx good_matches
      = Ok src_pts /\
    points_at (fst (detectAndCompute (preprocess f2))) trainIdx good_matches
      = Ok dst_pts.

(** The two frames were matched and fewer than [min_match_count] good
    matches were found. *)
Definition few_good_matches (self : CameraMovementDetector) (f1 f2 : Frame) : Prop :=
  exists pdes d,
    snd (detectAndCompute (preprocess f1)) = Some pdes /\
    snd (detectAndCompute (preprocess f2)) = Some d /\
    (0 < length pdes)%nat /\ (0 < length d)%nat /\
    (Z.of_nat (length (good_matches_of (sorted distance (bf_match pdes d))))
     < min_match_count self)%Z.

(** One of the two frames has no descriptor: the array is [None] or has no
    row. *)
Definition no_descriptors (f1 f2 : Frame) : Prop :=
  usable (snd (detectAndCompute (preprocess f1)))
         (snd (detectAndCompute (preprocess f2))) = false.

(** The maximum of the three fallback signals on the two grayscale frames,
    written out. *)
Definition fused_fallback (f1 f2 : Frame) : R :=
  let g1 := preprocess f1 in
  let g2 := preprocess f2 in
  Rmax (Rmax (calculate_frame_difference_score g1 g2)
             (calculate_optical_flow_score g1 g2))
       (calculate_edge_motion_score g1 g2).

End OpenCV.

(** ** ui_helpers.py: what the report views compute from a result

    The drawing and page-building calls (matplotlib, streamlit) are left
    out; the definitions below are the values the views compute from the
    result before they hand them over. *)

(** [scores[i] for i in indices]; an index out of range raises IndexError. *)
Fixpoint index_all (scores : list R) (indices : list nat) : exc (list R) :=
  match indices with
  | [] => Ok []
  | i :: rest =>
      match nth_error scores i with
      | Some s => r <- index_all scores rest ;; Ok (s :: r)
      | None => Raise
      end
  end.

(** [min(l)]; the empty list raises ValueError. *)
Definition py_min (l : list R) : exc R :=
  match l with
  | [] => Raise
  | x :: rest => Ok (fold_left Rmin rest x)
  end.

(** [plot_movement_scores]: the scatter markers (frame index, score) and the
    height of the dashed threshold line, if one is drawn. *)
Definition plot_movement_scores (movement_data : DetectionResult)
    : exc (list (nat * R) * option R) :=
  let scores := movement_scores movement_data in
  let movement_indices := movement_indices movement_data in
  let markers :=
    match movement_indices with
    | [] => []
    | _ =>
        combine movement_indices
                (map (fun i => if (i <? length scores)%nat then nth i scores 0 else 0)
                     movement_indices)
    end in
  threshold <-
    (match movement_indices with
     | [] => Ok None
     | _ =>
         if (0 <? length scores)%nat then
           picked <- index_all scores movement_indices ;;
           threshold <- py_min picked ;;
           Ok (Some threshold)
         else Ok None
     end) ;;
  Ok (markers, threshold).

(** [display_movement_details]: the list [movement_types] of the flagged
    frames that get a movement analysis, each with its classification. *)
Definition movement_types (movement_data : DetectionResult)
    : list (nat * MovementType) :=
  let matrices := transformation_matrices movement_data in
  flat_map
    (fun idx =>
       if (idx <? length matrices)%nat then
         match nth_error matrices idx with
         | Some (Some matrix) => [(idx, classify_movement_type (Some matrix))]
         | _ => []
         end
       else [])
    (movement_indices movement_data).

(** The dictionary [movement_values], in insertion order. *)
Definition movement_values (movement_data : MovementType)
    : list (String.string * R) :=
  [("Translation"%string,
    Rabs (translation_x movement_data) + Rabs (translation_y movement_data));
   ("Rotation"%string, Rabs (rotation movement_data));
   ("Scaling"%string, Rabs (scaling movement_data - 1.0) * 100);
   ("Perspective"%string, perspective movement_data * 10)].

(** [max(d, key=lambda k: d[k])]: the first key, in insertion order, whose
    value no other value exceeds. *)
Definition max_key (d : list (String.string * R)) : String.string :=
  match d with
  | [] => ""%string
  | kv :: rest =>
      fst (fold_left (fun best kv => if Rltb (snd best) (snd kv) then kv else best)
                     rest kv)
  end.

Definition dominant_type (movement_data : MovementType) : String.string :=
  max_key (movement_values movement_data).

(** [display_all_frames]: the list [movement_frames] of the frames shown. *)
Definition movement_frames {A : Type} (frames : list A)
    (movement_indices : list nat) : list (nat * A) :=
  flat_map
    (fun idx =>
       if (idx <? length frames)%nat then
         match nth_error frames idx with
         | Some frame => [(idx, frame)]
         | None => []
         end
       else [])
    movement_indices.

(** ** app.py: reading a video

    The loop [while True: ret, frame = cap.read() ...] over the frames the
    capture delivers.  [convert] is [cv2.cvtColor(frame, cv2.COLOR_BGR2RGB)];
    [total_frames] is what the capture reports as its frame count.  The two
    divisions raise ZeroDivisionError on a zero divisor. *)
Fixpoint read_frames {A B : Type} (convert : A -> B)
    (sample_rate total_frames : nat) (video : list A) (frame_count : nat)
    (all_frames frames_for_analysis : list B) : exc (list B * list B) :=
  match video with
  | [] => Ok (all_frames, frames_for_analysis)
  | frame :: rest =>
      if (total_frames =? 0)%nat then Raise
      else
        let all_frames := all_frames ++ [convert frame] in
        if (sample_rate =? 0)%nat then Raise
        else
          let frames_for_analysis :=
            if (frame_count mod sample_rate =? 0)%nat
            then frames_for_analysis ++ [convert frame]
            else frames_for_analysis in
          read_frames convert sample_rate total_frames rest (S frame_count)
                      all_frames frames_for_analysis
  end.

(** [[idx * sample_rate for idx in result['movement_indices']]] *)
Definition original_movement_indices (sample_rate : nat)
    (movement_indices : list nat) : list nat :=
  map (fun idx => (idx * sample_rate)%nat) movement_indices.

(** ** Vocabulary of the further properties *)

(** The matrix of a similarity of the plane: a rotation by [theta] radians,
    a uniform scale [s] and a translation by [(tx, ty)]. *)
Definition similarity (s theta tx ty : R) : Matrix :=
  mkMatrix (s * cos theta) (- (s * sin theta)) tx
           (s * sin theta) (s * cos theta) ty
           0 0 1.

(** An 8-bit image that has a pixel and as many pixels as its shape says. *)
Definition well_formed_image (img : Image) : Prop :=
  length (pix img) = (fst (shape img) * snd (shape img))%nat /\
  (0 < length (pix img))%nat /\
  Forall (fun p => (0 <= p <= 255)%Z) (pix img).

(** Two images of the same shape. *)
Definition same_shape (a b : Image) : Prop :=
  shape a = shape b /\ length (pix a) = length (pix b).


(** * A concrete scene

    Small frames and stand-ins for the OpenCV routines, used to run the
    detector on explicit inputs.  The stand-ins keep OpenCV's contracts (one
    descriptor row per keypoint, match indices in range) on every input. *)

Module Scene.

Definition img (p0 p1 p2 p3 : Z) : Image := mkImage (2, 2)%nat [p0; p1; p2; p3].

(** Two featureless frames of different brightness. *)
Definition dark : Frame := Frame2D (img 10 10 10 10).
Definition bright : Frame := Frame2D (img 200 200 200 200).
(** A textured scene, the same scene with sensor noise, and the scene after
    the camera has moved. *)
Definition still : Frame := Frame2D (img 100 50 60 70).
Definition noisy : Frame := Frame2D (img 101 50 60 72).
Definition panned : Frame := Frame2D (img 102 70 50 60).

(** The conversion takes three or four channels. *)
Definition cvtColor_accepts (sh : nat * nat * nat) (px : list Z) : bool :=
  (snd sh =? 3)%nat || (snd sh =? 4)%nat.

Definition cvtColor (sh : nat * nat * nat) (px : list Z) : Image :=
  mkImage (fst sh) px.

(** A frame of two channels, which the conversion rejects. *)
Definition two_channel : Frame :=
  Frame3D (2, 2, 2)%nat [100; 100; 50; 50; 60; 60; 70; 70]%Z.

Definition GaussianBlur (gray : Image) : Image := gray.

Definition corners_of_scene : list np.Pt := [(1, 1); (5, 1); (1, 5); (5, 5)].

Definition shift (dx dy : R) (p : np.Pt) : np.Pt := (fst p + dx, snd p + dy).

Definition keypoints (pts : list np.Pt) : list KeyPoint := map mkKeyPoint pts.

(** The descriptors of the scene, before and after noise or motion. *)
Definition des_still : list Descriptor := [[10%Z]; [20%Z]; [30%Z]; [40%Z]].
Definition des_moved : list Descriptor := [[12%Z]; [22%Z]; [32%Z]; [42%Z]].

(** Four matches, row i with row i, all at the same distance. *)
Definition four_matches (dist : R) : list DMatch :=
  [mkDMatch 0 0 dist; mkDMatch 1 1 dist; mkDMatch 2 2 dist; mkDMatch 3 3 dist].

(** ORB: four keypoints on the textured scene, displaced by (12, 16) after
    the camera has moved; none on a featureless frame. *)
Definition detectAndCompute (gray : Image)
    : list KeyPoint * option (list Descriptor) :=
  let tag := hd 0%Z (pix gray) in
  if (tag =? 100)%Z then
    (keypoints corners_of_scene, Some des_still)
  else if (tag =? 101)%Z then
    (keypoints corners_of_scene, Some des_moved)
  else if (tag =? 102)%Z then
    (keypoints (map (shift 12 16) corners_of_scene), Some des_moved)
  else ([], None).

Definition row_distance (r1 r2 : Descriptor) : Z := Z.abs (hd 0%Z r1 - hd 0%Z r2).

Fixpoint pair_rows (i : nat) (d1 d2 : list Descriptor) : list DMatch :=
  match d1, d2 with
  | r1 :: d1', r2 :: d2' =>
      mkDMatch i i (IZR (row_distance r1 r2)) :: pair_rows (S i) d1' d2'
  | _, _ => []
  end.

(** The matcher takes arrays whose rows have the same width. *)
Definition bf_match_accepts (d1 d2 : list Descriptor) : bool :=
  match d1, d2 with
  | r1 :: _, r2 :: _ => (length r1 =? length r2)%nat
  | _, _ => true
  end.

(** The matcher: row i of one array with row i of the other. *)
Definition bf_match (d1 d2 : list Descriptor) : list DMatch := pair_rows 0 d1 d2.

Definition translation (tx ty : R) : Matrix := mkMatrix 1 0 tx 0 1 ty 0 0 1.

(** The estimator takes at least four pairs of points. *)
Definition findHomography_accepts (src_pts dst_pts : list np.Pt) : bool :=
  (4 <=? length src_pts)%nat && (length src_pts =? length dst_pts)%nat.

(** A fit that succeeds: the translation that maps the first source point
    to the first destination point. *)
Definition fit (src_pts dst_pts : list np.Pt) : option Matrix :=
  match src_pts, dst_pts with
  | p :: _, q :: _ => Some (translation (fst q - fst p) (snd q - snd p))
  | _, _ => None
  end.

(** A fit that fails. *)
Definition no_fit (src_pts dst_pts : list np.Pt) : option Matrix := None.

(** No corner worth tracking. *)
Definition goodFeaturesToTrack (gray : Image) : exc (option (list np.Pt)) :=
  Ok None.

(** The tracker: every corner is followed one pixel to the right. *)
Definition calcOpticalFlowPyrLK (prev curr : Image) (corners : list np.Pt)
    : exc (list np.Pt * list Z) :=
  Ok (map (shift 1 0) corners, map (fun _ => 1%Z) corners).

(** No edge anywhere. *)
Definition Canny (gray : Image) : exc Image :=
  Ok (mkImage (shape gray) (map (fun _ => 0%Z) (pix gray))).

(** The stand-ins together, with the given homography fit. *)
Definition opencv (findHomography : list np.Pt -> list np.Pt -> option Matrix)
    : OpenCV :=
  Build_OpenCV cvtColor_accepts cvtColor GaussianBlur detectAndCompute
               bf_match_accepts bf_match findHomography_accepts findHomography
               goodFeaturesToTrack calcOpticalFlowPyrLK Canny.

(** [detect] on the scene. *)
Definition run (findHomography : list np.Pt -> list np.Pt -> option Matrix)
    (self : CameraMovementDetector) (frames : list Frame) : exc DetectionResult :=
  detect (cv := opencv findHomography) self frames.

(** [n] corners in a row, ten pixels apart. *)
Definition row_of_corners (n : nat) : list np.Pt :=
  map (fun i => (INR i * 10, 10)) (seq 1 n).

(** The stand-ins when [n] corners are detected in every frame. *)
Definition opencv_with_corners (n : nat) : OpenCV :=
  Build_OpenCV cvtColor_accepts cvtColor GaussianBlur detectAndCompute
               bf_match_accepts bf_match findHomography_accepts fit
               (fun _ => Ok (Some (row_of_corners n)))
               calcOpticalFlowPyrLK Canny.

(** The sparse-flow signal in that case. *)
Definition flow_with_corners (n : nat) (prev curr : Image) : R :=
  calculate_optical_flow_score (cv := opencv_with_corners n) prev curr.

(** The defaults of the program, with the smallest [min_match_count] its
    user interface offers. *)
Definition detector : CameraMovementDetector := mkDetector 5 15 4.

(** Detectors with a negative threshold. *)
Definition negative_feature : CameraMovementDetector := mkDetector (-1) 15 4.
Definition negative_homography : CameraMovementDetector := mkDetector 5 (-1) 4.
(** A detector with lower thresholds than [detector]. *)
Definition sensitive : CameraMovementDetector := mkDetector 0.05 10 4.


End Scene.


(** Every element of the list is non-negative. *)
Definition nonneg (a : list R) : Prop := Forall (fun x => 0 <= x) a.

(** * Properties *)

(** ** Comparisons *)

Lemma Rltb_true (x y : R) : Rltb x y = true <-> x < y.
Proof. unfold Rltb. destruct (Rlt_dec x y); split; intros; congruence || lra. Qed.

Lemma Rltb_false (x y : R) : Rltb x y = false <-> y <= x.
Proof. unfold Rltb. destruct (Rlt_dec x y); split; intros; congruence || lra. Qed.

Lemma Rleb_true (x y : R) : Rleb x y = true <-> x <= y.
Proof. unfold Rleb. destruct (Rle_dec x y); split; intros; congruence || lra. Qed.

Lemma Rleb_false (x y : R) : Rleb x y = false <-> y < x.
Proof. unfold Rleb. destruct (Rle_dec x y); split; intros; congruence || lra. Qed.

Lemma Reqb_true (x y : R) : Reqb x y = true <-> x = y.
Proof. unfold Reqb. destruct (Req_dec_T x y); split; intros; congruence. Qed.

Lemma Reqb_false (x y : R) : Reqb x y = false <-> x <> y.
Proof. unfold Reqb. destruct (Req_dec_T x y); split; intros; congruence. Qed.

(** ** Sums, means and variances of non-negative numbers *)

Lemma Rdiv_nonneg (x y : R) : 0 <= x -> 0 <= y -> 0 <= x / y.
Proof.
  intros Hx Hy. unfold Rdiv.
  destruct (Req_dec y 0) as [-> | Hne].
  - rewrite Rinv_0. lra.
  - apply Rmult_le_pos; [assumption |].
    apply Rlt_le, Rinv_0_lt_compat. lra.
Qed.

Lemma sum_nonneg (a : list R) : nonneg a -> 0 <= np.sum a.
Proof.
  induction 1 as [| x a Hx _ IH]; simpl; lra.
Qed.

Lemma mean_nonneg (a : list R) : nonneg a -> 0 <= np.mean a.
Proof.
  intros Ha. unfold np.mean.
  apply Rdiv_nonneg; [now apply sum_nonneg | apply pos_INR].
Qed.

Lemma var_nonneg (a : list R) : 0 <= np.var a.
Proof.
  unfold np.var. apply mean_nonneg.
  apply Forall_forall. intros y Hy.
  apply in_map_iff in Hy as (x & <- & _).
  apply pow_le, Rabs_pos.
Qed.

(** ** Sorting *)

Lemma insert_perm {A : Type} (key : A -> R) (x : A) (l : list A) :
  Permutation (x :: l) (insert key x l).
Proof.
  induction l as [| y l IH]; simpl.
  - apply Permutation_refl.
  - destruct (Rleb (key x) (key y)).
    + apply Permutation_refl.
    + eapply perm_trans; [apply perm_swap | now apply perm_skip].
Qed.

Lemma sorted_perm {A : Type} (key : A -> R) (l : list A) :
  Permutation l (sorted key l).
Proof.
  induction l as [| x l IH]; simpl.
  - apply perm_nil.
  - eapply perm_trans; [apply perm_skip, IH | apply insert_perm].
Qed.

Lemma sorted_In {A : Type} (key : A -> R) (l : list A) (x : A) :
  In x (sorted key l) <-> In x l.
Proof.
  split; apply Permutation_in;
    [apply Permutation_sym |]; apply sorted_perm.
Qed.

Lemma nth_nonneg (a : list R) (i : nat) : nonneg a -> 0 <= nth i a 0.
Proof.
  intros Ha. destruct (Nat.lt_ge_cases i (length a)) as [Hi | Hi].
  - unfold nonneg in Ha. rewrite Forall_forall in Ha. apply Ha, nth_In, Hi.
  - rewrite nth_overflow by assumption. lra.
Qed.

Lemma median_nonneg (a : list R) : nonneg a -> 0 <= np.median a.
Proof.
  intros Ha. unfold np.median.
  assert (Hs : nonneg (sorted (fun x => x) a)).
  { unfold nonneg in *. rewrite Forall_forall in *.
    intros x Hx. apply Ha. now apply sorted_In in Hx. }
  destruct (Nat.even (length a)).
  - pose proof (nth_nonneg _ (length a / 2 - 1) Hs).
    pose proof (nth_nonneg _ (length a / 2) Hs). lra.
  - now apply nth_nonneg.
Qed.

Lemma norm_nonneg (p : np.Pt) : 0 <= np.norm p.
Proof. apply sqrt_pos. Qed.

Lemma map_norm_nonneg (d : list np.Pt) : nonneg (map np.norm d).
Proof.
  apply Forall_forall. intros y Hy.
  apply in_map_iff in Hy as (p & <- & _). apply norm_nonneg.
Qed.

Lemma displacements_nonneg (src dst : list np.Pt) (ds : list R) :
  displacements src dst = Ok ds -> nonneg ds.
Proof.
  unfold displacements. destruct (np.subtract dst src) as [d |]; simpl; [| discriminate].
  intros [= <-]. apply map_norm_nonneg.
Qed.

(** ** Each scoring path is non-negative *)

Lemma geometric_terms_nonneg (H : Matrix) :
  0 <= translation_magnitude H * 1.5 + rotation_magnitude H * 30 +
       scale_change H * 50 + perspective_dist H * 20.
Proof.
  pose proof (sqrt_pos (h02 H ^ 2 + h12 H ^ 2)).
  pose proof (Rabs_pos (np.arctan2 (h10 H) (h00 H))).
  pose proof (Rabs_pos (h20 H)). pose proof (Rabs_pos (h21 H)).
  unfold translation_magnitude, rotation_magnitude, scale_change, perspective_dist.
  match goal with |- context [Rabs (1 - ?e)] => pose proof (Rabs_pos (1 - e)) end.
  lra.
Qed.

Lemma calculate_movement_score_nonneg (H : option Matrix) (src dst : list np.Pt) :
  0 <= calculate_movement_score H src dst.
Proof.
  unfold calculate_movement_score. destruct H as [H |].
  - pose proof (geometric_terms_nonneg H) as Hg.
    destruct ((0 <? length src)%nat && (0 <? length dst)%nat).
    + destruct (displacements src dst) as [ds |] eqn:E; simpl; [| lra].
      destruct (1 <? length ds)%nat; [| lra].
      pose proof (var_nonneg ds). lra.
    + simpl. lra.
  - destruct ((length src =? 0)%nat || (length dst =? 0)%nat); simpl; [lra |].
    destruct (displacements src dst) as [ds |] eqn:E; simpl; [| lra].
    pose proof (median_nonneg ds (displacements_nonneg _ _ _ E)).
    pose proof (var_nonneg ds). lra.
Qed.

Section Properties.

Context {cv : OpenCV}.

(** ** The loop of [detect] computes one outcome per adjacent pair *)

Lemma append_if_app (c : bool) (l : list nat) (idx : nat) :
  append_if c l idx = l ++ append_if c [] idx.
Proof. destruct c; simpl; [reflexivity | now rewrite app_nil_r]. Qed.

(** The indices already recorded are carried through untouched. *)
Lemma compare_frames_indices self idx pf pkp pdes gray kp d l :
  compare_frames self idx pf pkp pdes gray kp d l
  = ('(fl, s, H) <- compare_frames self idx pf pkp pdes gray kp d [] ;;
     Ok (l ++ fl, s, H)).
Proof.
  unfold compare_frames, call.
  destruct (bf_match_accepts pdes d); cbn [bind]; [| reflexivity].
  destruct (min_match_count self <=? _)%Z.
  - destruct (points_at pkp queryIdx _) as [src |]; cbn [bind]; [| reflexivity].
    destruct (points_at kp trainIdx _) as [dst |]; cbn [bind]; [| reflexivity].
    destruct (findHomography_accepts src dst); cbn [bind]; [| reflexivity].
    destruct (findHomography src dst) as [H |]; cbn [bind];
      match goal with
      | |- context [Reqb ?s 0 || ?b] => destruct (Reqb s 0 || b)
      end; cbn [bind]; cbv beta iota;
      rewrite ?(append_if_app _ (append_if _ l idx)), (append_if_app _ l);
      rewrite ?(append_if_app _ (append_if _ [] idx));
      now rewrite <- ?app_assoc.
  - cbn [bind].
    match goal with
    | |- context [Reqb ?s 0 || ?b] => destruct (Reqb s 0 || b)
    end; cbn [bind]; cbv beta iota.
    + now rewrite append_if_app.
    + now rewrite app_nil_r.
Qed.

Lemma extend_one res o :
  extend res [o]
  = mkResult (movement_indices res ++ flags_of o)
             (movement_scores res ++ [score_of o])
             (transformation_matrices res ++ [matrix_of o]).
Proof. unfold extend. cbn [map concat]. now rewrite app_nil_r. Qed.

Lemma extend_cons res o os : extend (extend res [o]) os = extend res (o :: os).
Proof.
  unfold extend. cbn [map concat movement_indices movement_scores
                      transformation_matrices].
  rewrite app_nil_r, <- !app_assoc. reflexivity.
Qed.

Lemma extend_nil res : extend res [] = res.
Proof.
  destruct res. unfold extend.
  cbn [map concat movement_indices movement_scores transformation_matrices].
  now rewrite !app_nil_r.
Qed.

(** An iteration with a predecessor appends the outcome of the pair. *)
(** On a frame that the conversion accepts the loop holds [preprocess]. *)
Lemma to_gray_accepted f :
  to_gray f = call (accepted f)
                   (match f with
                    | Frame3D sh px => cvtColor sh px
                    | Frame2D img => img
                    end).
Proof. destruct f; reflexivity. Qed.

Lemma loop_body_rejected self st idx f :
  accepted f = false -> loop_body self st idx f = Raise.
Proof.
  intros Hf. unfold loop_body. rewrite to_gray_accepted, Hf. reflexivity.
Qed.

Lemma loop_body_after self idx f1 f2 res :
  (0 < idx)%nat -> accepted f2 = true ->
  loop_body self (after f1 res) idx f2
  = (o <- transition self idx f1 f2 ;; Ok (after f2 (extend res [o]))).
Proof.
  intros Hidx Hf2. apply Nat.ltb_lt in Hidx.
  unfold loop_body, transition, after.
  rewrite to_gray_accepted, Hf2. cbn [call bind].
  change (GaussianBlur match f2 with
                       | Frame2D img => img
                       | Frame3D sh px => cvtColor sh px
                       end) with (preprocess f2).
  cbn [prev_frame prev_kp prev_des result].
  destruct (detectAndCompute (preprocess f2)) as [kp des].
  destruct (detectAndCompute (preprocess f1)) as [pkp pdes].
  cbn [fst snd].
  destruct pdes as [pdes |]; [destruct des as [d |] |].
  - destruct ((0 <? length pdes)%nat && (0 <? length d)%nat).
    + rewrite compare_frames_indices.
      destruct (compare_frames self idx _ pkp pdes _ kp d []) as [[[fl s] H] |];
        cbn [bind]; [| reflexivity].
      now rewrite extend_one.
    + cbn [bind]. rewrite extend_one. unfold record_transition, flags_of.
      cbn [fst snd]. now rewrite app_nil_r.
  - rewrite Hidx. cbn [bind]. rewrite extend_one.
    unfold record_transition, flags_of. cbn [fst snd]. now rewrite app_nil_r.
  - rewrite Hidx. cbn [bind]. rewrite extend_one.
    unfold record_transition, flags_of. cbn [fst snd]. now rewrite app_nil_r.
Qed.

Lemma last_default {A : Type} (l : list A) : forall x d1 d2,
  last (x :: l) d1 = last (x :: l) d2.
Proof.
  induction l as [| y l IH]; intros x d1 d2; [reflexivity |].
  change (last (y :: l) d1 = last (y :: l) d2). apply IH.
Qed.

Lemma transitions_cons self idx f1 f2 fs :
  transitions self idx (f1 :: f2 :: fs)
  = (o <- transition self idx f1 f2 ;;
     os <- transitions self (S idx) (f2 :: fs) ;;
     Ok (o :: os)).
Proof. reflexivity. Qed.

Lemma for_frames_after self fs : forall idx f1 res,
  (0 < idx)%nat -> forallb accepted fs = true ->
  for_frames self (after f1 res) idx fs
  = (outs <- transitions self idx (f1 :: fs) ;;
     Ok (after (last fs f1) (extend res outs))).
Proof.
  induction fs as [| f2 fs IH]; intros idx f1 res Hidx Hfs.
  - cbn [for_frames transitions bind last]. now rewrite extend_nil.
  - cbn [forallb] in Hfs. apply andb_prop in Hfs as [Hf2 Hfs].
    cbn [for_frames]. rewrite loop_body_after by assumption.
    rewrite transitions_cons.
    destruct (transition self idx f1 f2) as [o |]; cbn [bind]; [| reflexivity].
    rewrite IH by (lia || assumption).
    destruct (transitions self (S idx) (f2 :: fs)) as [os |]; [| reflexivity].
    cbn [bind]. rewrite extend_cons.
    change (last (f2 :: fs) f1) with (last (f1 :: f2 :: fs) f1).
    destruct fs as [| f3 fs]; [reflexivity |].
    now rewrite (last_default fs f3 f2 f1).
Qed.

(** The loop raises when it reaches a frame that the conversion rejects. *)
Lemma for_frames_rejected self fs : forall idx f1 res,
  (0 < idx)%nat -> forallb accepted fs = false ->
  for_frames self (after f1 res) idx fs = Raise.
Proof.
  induction fs as [| f2 fs IH]; intros idx f1 res Hidx Hfs; [discriminate |].
  cbn [forallb] in Hfs. cbn [for_frames].
  destruct (accepted f2) eqn:Hf2.
  - rewrite loop_body_after by assumption.
    destruct (transition self idx f1 f2) as [o |]; cbn [bind]; [| reflexivity].
    apply IH; [lia | exact Hfs].
  - now rewrite loop_body_rejected.
Qed.

(** The first iteration records nothing. *)
Lemma loop_body_initial self f :
  accepted f = true ->
  loop_body self initial 0 f = Ok (after f (mkResult [] [] [])).
Proof.
  intros Hf. unfold loop_body, after, initial.
  rewrite to_gray_accepted, Hf. cbn [call bind].
  change (GaussianBlur match f with
                       | Frame2D img => img
                       | Frame3D sh px => cvtColor sh px
                       end) with (preprocess f).
  cbn [prev_frame prev_kp prev_des result Nat.ltb Nat.leb].
  destruct (detectAndCompute (preprocess f)); reflexivity.
Qed.

(** [detect] raises when the conversion rejects a frame, and otherwise
    returns the outcomes of the adjacent pairs, in order. *)
Theorem detect_transitions self frames :
  detect self frames
  = if forallb accepted frames
    then (outs <- transitions self 1 frames ;;
          Ok (extend (mkResult [] [] []) outs))
    else Raise.
Proof.
  unfold detect. destruct frames as [| f fs].
  - reflexivity.
  - cbn [for_frames forallb]. destruct (accepted f) eqn:Hf.
    + rewrite loop_body_initial by assumption. cbn [bind andb].
      destruct (forallb accepted fs) eqn:Hfs.
      * rewrite for_frames_after by (lia || assumption).
        destruct (transitions self 1 (f :: fs)); reflexivity.
      * now rewrite for_frames_rejected by (lia || assumption).
    + now rewrite loop_body_rejected.
Qed.

Lemma detect_accepted self frames :
  forallb accepted frames = true ->
  detect self frames
  = (outs <- transitions self 1 frames ;; Ok (extend (mkResult [] [] []) outs)).
Proof. intros Hfs. now rewrite detect_transitions, Hfs. Qed.


(** ** The three fallback signals *)


Lemma zip_absdiff_nonneg (a b : list Z) :
  nonneg (map IZR (cv2.zip_absdiff a b)).
Proof.
  revert b. induction a as [| x a IH]; intros [| y b]; cbn [cv2.zip_absdiff map];
    try apply Forall_nil.
  apply Forall_cons; [| apply IH].
  apply IZR_le. apply Z.abs_nonneg.
Qed.

Lemma absdiff_nonneg (a b diff : Image) :
  cv2.absdiff a b = Ok diff -> nonneg (map IZR (pix diff)).
Proof.
  unfold cv2.absdiff. destruct (_ && _); [| discriminate].
  intros [= <-]. apply zip_absdiff_nonneg.
Qed.

Lemma frame_difference_score_nonneg (prev curr : Image) :
  0 <= calculate_frame_difference_score prev curr.
Proof.
  unfold calculate_frame_difference_score.
  destruct (cv2.absdiff prev curr) as [diff |] eqn:E; cbn [bind try_or_zero]; [| lra].
  pose proof (mean_nonneg _ (absdiff_nonneg _ _ _ E)) as Hm.
  match goal with
  | |- 0 <= INR ?c / INR ?t * 100 + _ =>
      pose proof (Rdiv_nonneg (INR c) (INR t) (pos_INR c) (pos_INR t))
  end.
  lra.
Qed.

Lemma optical_flow_score_nonneg (prev curr : Image) :
  0 <= calculate_optical_flow_score prev curr.
Proof.
  unfold calculate_optical_flow_score.
  destruct (goodFeaturesToTrack prev) as [[corners |] |]; cbn [bind try_or_zero];
    try lra.
  destruct (10 <? length corners)%nat; cbn [try_or_zero]; [| lra].
  destruct (calcOpticalFlowPyrLK prev curr corners) as [[next status] |];
    cbn [bind try_or_zero]; [| lra].
  destruct (np.select corners status) as [good_old |]; cbn [bind try_or_zero]; [| lra].
  destruct (np.select next status) as [good_new |]; cbn [bind try_or_zero]; [| lra].
  destruct (5 <? length good_old)%nat; cbn [try_or_zero]; [| lra].
  destruct (np.subtract good_new good_old) as [d |]; cbn [bind try_or_zero]; [| lra].
  pose proof (median_nonneg _ (map_norm_nonneg d)). lra.
Qed.

Lemma edge_motion_score_nonneg (prev curr : Image) :
  0 <= calculate_edge_motion_score prev curr.
Proof.
  unfold calculate_edge_motion_score.
  destruct (Canny prev) as [ep |]; cbn [bind try_or_zero]; [| lra].
  destruct (Canny curr) as [ec |]; cbn [bind try_or_zero]; [| lra].
  destruct (cv2.absdiff ep ec) as [ed |] eqn:E; cbn [bind try_or_zero]; [| lra].
  pose proof (mean_nonneg _ (absdiff_nonneg _ _ _ E)). lra.
Qed.

Lemma fallback_score_eq (prev gray : Image) :
  fallback_score prev gray
  = Rmax (Rmax (calculate_frame_difference_score prev gray) (calculate_optical_flow_score prev gray))
         (calculate_edge_motion_score prev gray).
Proof. reflexivity. Qed.

Lemma fallback_score_nonneg (prev gray : Image) :
  0 <= fallback_score prev gray.
Proof.
  rewrite fallback_score_eq.
  pose proof (frame_difference_score_nonneg prev gray) as Hd.
  eapply Rle_trans; [exact Hd |].
  eapply Rle_trans; [apply Rmax_l | apply Rmax_l].
Qed.


(** ** The three scoring paths of one comparison *)

Local Abbreviation good' pdes d :=
  (good_matches_of (sorted distance (bf_match pdes d))).

(** Too few good matches: the fallback signals decide. *)
Lemma compare_frames_few self idx pf pkp pdes gray kp d :
  bf_match_accepts pdes d = true ->
  (Z.of_nat (length (good' pdes d)) < min_match_count self)%Z ->
  compare_frames self idx pf pkp pdes gray kp d []
  = Ok (append_if (Rltb (threshold_feature self) (fallback_score pf gray)) [] idx,
        fallback_score pf gray, None).
Proof.
  intros Hbf Hfew. unfold compare_frames. rewrite Hbf. cbn [call bind].
  rewrite (proj2 (Z.leb_gt _ _) Hfew). cbn [bind]. cbv beta iota.
  rewrite (proj2 (Z.ltb_lt _ _) Hfew), orb_true_r. reflexivity.
Qed.

(** Enough good matches and a non-zero geometric score: it is recorded. *)
Lemma compare_frames_geometric self idx pf pkp pdes gray kp d src dst :
  bf_match_accepts pdes d = true ->
  (min_match_count self <= Z.of_nat (length (good' pdes d)))%Z ->
  points_at pkp queryIdx (good' pdes d) = Ok src ->
  points_at kp trainIdx (good' pdes d) = Ok dst ->
  findHomography_accepts src dst = true ->
  calculate_movement_score (findHomography src dst) src dst <> 0 ->
  compare_frames self idx pf pkp pdes gray kp d []
  = Ok (append_if
          (Rltb (geometric_bar self (findHomography src dst))
                (calculate_movement_score (findHomography src dst) src dst))
          [] idx,
        calculate_movement_score (findHomography src dst) src dst,
        findHomography src dst).
Proof.
  intros Hbf Hmany Hsrc Hdst Hfh Hnz. unfold compare_frames.
  rewrite Hbf. cbn [call bind].
  rewrite (proj2 (Z.leb_le _ _) Hmany), Hsrc, Hdst. cbn [bind].
  rewrite Hfh. cbn [call bind].
  assert (Hlt : (Z.of_nat (length (good' pdes d)) <? min_match_count self)%Z = false)
    by (apply Z.ltb_ge; exact Hmany).
  destruct (findHomography src dst) as [H |]; cbn [bind]; cbv beta iota;
    rewrite (proj2 (Reqb_false _ _) Hnz), Hlt; reflexivity.
Qed.

(** Enough good matches but a geometric score of exactly 0: the fallback
    signals replace it, after the geometric test has been made. *)
Lemma compare_frames_zero self idx pf pkp pdes gray kp d src dst :
  bf_match_accepts pdes d = true ->
  (min_match_count self <= Z.of_nat (length (good' pdes d)))%Z ->
  points_at pkp queryIdx (good' pdes d) = Ok src ->
  points_at kp trainIdx (good' pdes d) = Ok dst ->
  findHomography_accepts src dst = true ->
  calculate_movement_score (findHomography src dst) src dst = 0 ->
  compare_frames self idx pf pkp pdes gray kp d []
  = Ok (append_if (Rltb (threshold_feature self) (fallback_score pf gray))
          (append_if (Rltb (geometric_bar self (findHomography src dst)) 0) [] idx)
          idx,
        fallback_score pf gray,
        findHomography src dst).
Proof.
  intros Hbf Hmany Hsrc Hdst Hfh Hz. unfold compare_frames.
  rewrite Hbf. cbn [call bind].
  rewrite (proj2 (Z.leb_le _ _) Hmany), Hsrc, Hdst. cbn [bind].
  rewrite Hfh. cbn [call bind].
  destruct (findHomography src dst) as [H |]; cbn [bind]; cbv beta iota;
    rewrite Hz, (proj2 (Reqb_true 0 0) eq_refl); reflexivity.
Qed.

(** Every successful comparison was accepted by the matcher and took one of
    the three paths, the last two after the estimator accepted the matched
    points. *)
Lemma compare_frames_inv self idx pf pkp pdes gray kp d o :
  compare_frames self idx pf pkp pdes gray kp d [] = Ok o ->
  bf_match_accepts pdes d = true /\
  (((Z.of_nat (length (good' pdes d)) < min_match_count self)%Z /\
   o = (append_if (Rltb (threshold_feature self) (fallback_score pf gray)) [] idx,
        fallback_score pf gray, None))
  \/
  (exists src dst,
     (min_match_count self <= Z.of_nat (length (good' pdes d)))%Z /\
     points_at pkp queryIdx (good' pdes d) = Ok src /\
     points_at kp trainIdx (good' pdes d) = Ok dst /\
     findHomography_accepts src dst = true /\
     ((calculate_movement_score (findHomography src dst) src dst <> 0 /\
       o = (append_if
              (Rltb (geometric_bar self (findHomography src dst))
                    (calculate_movement_score (findHomography src dst) src dst))
              [] idx,
            calculate_movement_score (findHomography src dst) src dst,
            findHomography src dst))
      \/
      (calculate_movement_score (findHomography src dst) src dst = 0 /\
       o = (append_if (Rltb (threshold_feature self) (fallback_score pf gray))
              (append_if (Rltb (geometric_bar self (findHomography src dst)) 0)
                         [] idx)
              idx,
            fallback_score pf gray,
            findHomography src dst))))).
Proof.
  intros Hrun.
  destruct (bf_match_accepts pdes d) eqn:Hbf.
  2:{ unfold compare_frames in Hrun. rewrite Hbf in Hrun. discriminate. }
  split; [reflexivity |].
  destruct (Z.lt_ge_cases (Z.of_nat (length (good' pdes d))) (min_match_count self))
    as [Hfew | Hmany].
  - left. split; [assumption |].
    rewrite compare_frames_few in Hrun by assumption. congruence.
  - right.
    destruct (points_at pkp queryIdx (good' pdes d)) as [src |] eqn:Hsrc.
    2:{ unfold compare_frames in Hrun. rewrite Hbf in Hrun. cbn [call bind] in Hrun.
        rewrite (proj2 (Z.leb_le _ _) Hmany), Hsrc in Hrun. discriminate. }
    destruct (points_at kp trainIdx (good' pdes d)) as [dst |] eqn:Hdst.
    2:{ unfold compare_frames in Hrun. rewrite Hbf in Hrun. cbn [call bind] in Hrun.
        rewrite (proj2 (Z.leb_le _ _) Hmany), Hsrc, Hdst in Hrun. discriminate. }
    destruct (findHomography_accepts src dst) eqn:Hfh.
    2:{ unfold compare_frames in Hrun. rewrite Hbf in Hrun. cbn [call bind] in Hrun.
        rewrite (proj2 (Z.leb_le _ _) Hmany), Hsrc, Hdst in Hrun.
        cbn [bind] in Hrun. rewrite Hfh in Hrun. discriminate. }
    exists src, dst. repeat split; try assumption.
    destruct (Req_dec (calculate_movement_score (findHomography src dst) src dst) 0)
      as [Hz | Hnz].
    + right. split; [assumption |].
      rewrite (compare_frames_zero _ _ _ _ _ _ _ _ src dst) in Hrun by assumption.
      congruence.
    + left. split; [assumption |].
      rewrite (compare_frames_geometric _ _ _ _ _ _ _ _ src dst) in Hrun by assumption.
      congruence.
Qed.


(** ** One transition *)

Local Abbreviation kp_of f := (fst (detectAndCompute (preprocess f))).
Local Abbreviation des_of f := (snd (detectAndCompute (preprocess f))).

Lemma transition_unusable self idx f1 f2 :
  usable (des_of f1) (des_of f2) = false ->
  transition self idx f1 f2 = Ok ([], 0, None).
Proof.
  unfold usable, transition. intros Hu.
  destruct (des_of f1) as [pdes |]; [| reflexivity].
  destruct (des_of f2) as [d |]; [| reflexivity].
  now rewrite Hu.
Qed.

Lemma transition_usable self idx f1 f2 pdes d :
  des_of f1 = Some pdes -> des_of f2 = Some d ->
  (0 < length pdes)%nat -> (0 < length d)%nat ->
  transition self idx f1 f2
  = compare_frames self idx (preprocess f1) (kp_of f1) pdes
                    (preprocess f2) (kp_of f2) d [].
Proof.
  intros H1 H2 Hp Hd. unfold transition. rewrite H1, H2.
  apply Nat.ltb_lt in Hp, Hd. now rewrite Hp, Hd.
Qed.

Lemma transition_inv self idx f1 f2 o :
  transition self idx f1 f2 = Ok o ->
  (usable (des_of f1) (des_of f2) = false /\ o = ([], 0, None))
  \/
  (exists pdes d,
     des_of f1 = Some pdes /\ des_of f2 = Some d /\
     (0 < length pdes)%nat /\ (0 < length d)%nat /\
     compare_frames self idx (preprocess f1) (kp_of f1) pdes
                     (preprocess f2) (kp_of f2) d [] = Ok o).
Proof.
  intros Hrun.
  destruct (usable (des_of f1) (des_of f2)) eqn:Hu.
  - right. unfold usable in Hu.
    destruct (des_of f1) as [pdes |] eqn:H1; [| discriminate].
    destruct (des_of f2) as [d |] eqn:H2; [| discriminate].
    apply andb_prop in Hu as [Hp Hd]. apply Nat.ltb_lt in Hp, Hd.
    exists pdes, d. repeat split; try assumption.
    now rewrite <- (transition_usable self idx f1 f2 pdes d).
  - left. split; [reflexivity |].
    rewrite transition_unusable in Hrun by assumption. congruence.
Qed.

(** Case analysis on a successful transition: unusable descriptors, too few
    good matches, a non-zero geometric score, or a geometric score of 0. *)
Ltac transition_cases Hrun :=
  let Hu := fresh "Hu" in
  let pdes := fresh "pdes" in
  let d := fresh "d" in
  let src := fresh "src" in
  let dst := fresh "dst" in
  let Hfew := fresh "Hfew" in
  let Hmany := fresh "Hmany" in
  let Hsrc := fresh "Hsrc" in
  let Hdst := fresh "Hdst" in
  let Hs := fresh "Hs" in
  let H1 := fresh "Hdes1" in
  let H2 := fresh "Hdes2" in
  let Hp := fresh "Hp" in
  let Hd := fresh "Hd" in
  let Hcmp := fresh "Hcmp" in
  let Hbf := fresh "Hbf" in
  let Hfh := fresh "Hfh" in
  apply transition_inv in Hrun
    as [[Hu ->] | (pdes & d & H1 & H2 & Hp & Hd & Hcmp)];
  [| apply compare_frames_inv in Hcmp
       as [Hbf [[Hfew ->]
               | (src & dst & Hmany & Hsrc & Hdst & Hfh
                  & [[Hs ->] | [Hs ->]])]]].

Lemma append_if_nil_cases (c : bool) (idx : nat) :
  append_if c [] idx = (if c then [idx] else []).
Proof. destruct c; reflexivity. Qed.

(** A transition only ever records its own index. *)
Lemma transition_flags self idx f1 f2 o :
  transition self idx f1 f2 = Ok o ->
  forall j, In j (flags_of o) -> j = idx.
Proof.
  intros Hrun j. transition_cases Hrun; unfold flags_of; cbn [fst snd];
    unfold append_if;
    repeat match goal with
           | |- context [Rltb ?a ?b] => destruct (Rltb a b)
           end;
    cbn [app In]; intuition.
Qed.

Lemma transition_score_nonneg self idx f1 f2 o :
  transition self idx f1 f2 = Ok o -> 0 <= score_of o.
Proof.
  intros Hrun. transition_cases Hrun; unfold score_of; cbn [fst snd].
  - lra.
  - apply fallback_score_nonneg.
  - apply calculate_movement_score_nonneg.
  - apply fallback_score_nonneg.
Qed.

Lemma geometric_bar_nonneg self H :
  0 <= threshold_homography self -> 0 <= geometric_bar self H.
Proof. intros Hh. destruct H; cbn [geometric_bar]; lra. Qed.

(** With non-negative thresholds a transition is flagged at most once, and
    only with a positive score. *)
Lemma transition_flagged_positive self idx f1 f2 o :
  0 <= threshold_feature self -> 0 <= threshold_homography self ->
  transition self idx f1 f2 = Ok o ->
  flags_of o = [] \/ (flags_of o = [idx] /\ 0 < score_of o).
Proof.
  intros Hf Hh Hrun.
  transition_cases Hrun; unfold flags_of, score_of; cbn [fst snd].
  - now left.
  - rewrite append_if_nil_cases.
    destruct (Rltb _ _) eqn:E; [right | now left].
    apply Rltb_true in E. split; [reflexivity | lra].
  - rewrite append_if_nil_cases.
    destruct (Rltb _ _) eqn:E; [right | now left].
    apply Rltb_true in E.
    pose proof (geometric_bar_nonneg self (findHomography src dst) Hh).
    split; [reflexivity | lra].
  - pose proof (geometric_bar_nonneg self (findHomography src dst) Hh) as Hb.
    rewrite (proj2 (Rltb_false _ _) Hb). cbn [append_if].
    rewrite append_if_nil_cases.
    destruct (Rltb _ _) eqn:E; [right | now left].
    apply Rltb_true in E. split; [reflexivity | lra].
Qed.


(** ** No lookup fails when OpenCV keeps its contracts *)





Lemma points_at_length (kp : list KeyPoint) (sel : DMatch -> nat) (ms : list DMatch) :
  forall pts, points_at kp sel ms = Ok pts -> length pts = length ms.
Proof.
  induction ms as [| m ms IH]; intros pts; cbn [points_at].
  - now intros [= <-].
  - destruct (nth_error kp (sel m)); [| discriminate].
    destruct (points_at kp sel ms) as [r |]; [| discriminate].
    cbn [bind]. intros [= <-]. cbn [length]. now rewrite (IH r).
Qed.



(** ** The sequence of transitions *)

Lemma transitions_length self frames : forall idx outs,
  transitions self idx frames = Ok outs ->
  length outs = (length frames - 1)%nat.
Proof.
  induction frames as [| f1 [| f2 fs] IH]; intros idx outs Hrun.
  - now injection Hrun as <-.
  - now injection Hrun as <-.
  - rewrite transitions_cons in Hrun.
    destruct (transition self idx f1 f2) as [o |]; [| discriminate].
    cbn [bind] in Hrun.
    destruct (transitions self (S idx) (f2 :: fs)) as [os |] eqn:E; [| discriminate].
    injection Hrun as <-. apply IH in E. cbn [length] in *. lia.
Qed.


(** The outcome of the pair (frames[k], frames[k+1]) is the k-th one. *)
Lemma transitions_nth self frames : forall idx outs k f1 f2,
  transitions self idx frames = Ok outs ->
  nth_error frames k = Some f1 -> nth_error frames (S k) = Some f2 ->
  exists o, transition self (idx + k) f1 f2 = Ok o /\ nth_error outs k = Some o.
Proof.
  induction frames as [| g1 [| g2 fs] IH]; intros idx outs k f1 f2 Hrun Hk HSk.
  - destruct k; discriminate.
  - destruct k; discriminate.
  - rewrite transitions_cons in Hrun.
    destruct (transition self idx g1 g2) as [o |] eqn:Eo; [| discriminate].
    cbn [bind] in Hrun.
    destruct (transitions self (S idx) (g2 :: fs)) as [os |] eqn:E; [| discriminate].
    injection Hrun as <-.
    destruct k as [| k].
    + cbn [nth_error] in Hk, HSk. injection Hk as <-. injection HSk as <-.
      exists o. rewrite Nat.add_0_r. now split.
    + cbn [nth_error] in Hk.
      change (nth_error (g2 :: fs) (S k) = Some f2) in HSk.
      destruct (IH (S idx) os k f1 f2 E Hk HSk) as (o' & Ho' & Hn).
      exists o'. split; [| exact Hn].
      now replace (idx + S k)%nat with (S idx + k)%nat by lia.
Qed.

(** Every recorded index is the index of the transition that recorded it. *)
Lemma transitions_flags self frames : forall idx outs j,
  transitions self idx frames = Ok outs ->
  In j (concat (map flags_of outs)) ->
  exists k o, nth_error outs k = Some o /\ In j (flags_of o) /\ j = (idx + k)%nat.
Proof.
  induction frames as [| g1 [| g2 fs] IH]; intros idx outs j Hrun Hin.
  - injection Hrun as <-. destruct Hin.
  - injection Hrun as <-. destruct Hin.
  - rewrite transitions_cons in Hrun.
    destruct (transition self idx g1 g2) as [o |] eqn:Eo; [| discriminate].
    cbn [bind] in Hrun.
    destruct (transitions self (S idx) (g2 :: fs)) as [os |] eqn:E; [| discriminate].
    injection Hrun as <-. cbn [map concat] in Hin.
    apply in_app_or in Hin as [Hin | Hin].
    + exists 0%nat, o. repeat split; [assumption |].
      rewrite Nat.add_0_r. eapply transition_flags; eassumption.
    + destruct (IH (S idx) os j E Hin) as (k & o' & Hn & Hj & ->).
      exists (S k), o'. repeat split; [assumption.. | lia].
Qed.

Lemma transitions_flagged_nth self frames idx outs k o :
  transitions self idx frames = Ok outs ->
  nth_error outs k = Some o ->
  (In (idx + k)%nat (concat (map flags_of outs)) <-> In (idx + k)%nat (flags_of o)).
Proof.
  intros Hrun Hn. split.
  - intros Hin.
    destruct (transitions_flags self frames idx outs _ Hrun Hin)
      as (k' & o' & Hn' & Hj & Heq).
    assert (k' = k) by lia. subst k'. congruence.
  - intros Hin. apply in_concat. exists (flags_of o). split; [| assumption].
    apply in_map, (nth_error_In _ _ Hn).
Qed.


(** ** The program's formulas are the specification's formulas *)

Lemma var_eq_variance (a : list R) : np.var a = variance a.
Proof.
  unfold np.var, variance, np.mean. rewrite length_map. f_equal. f_equal.
  apply map_ext. intros x. apply pow2_abs.
Qed.

Lemma zip_sub_displacement (src : list np.Pt) : forall dst,
  map np.norm (np.zip_sub dst src) = map pair_displacement (combine src dst).
Proof.
  induction src as [| p src IH]; intros [| q dst]; try reflexivity.
  cbn [np.zip_sub combine map]. now rewrite IH.
Qed.

Lemma displacements_same_length (src dst : list np.Pt) :
  length src = length dst ->
  displacements src dst = Ok (map pair_displacement (combine src dst)).
Proof.
  intros Hlen. unfold displacements, np.subtract.
  rewrite <- Hlen, Nat.eqb_refl. cbn [bind]. now rewrite zip_sub_displacement.
Qed.

Lemma calculate_movement_score_some (H : Matrix) (src dst : list np.Pt) :
  length src = length dst ->
  calculate_movement_score (Some H) src dst
  = spec_homography_score H (combine src dst).
Proof.
  intros Hlen. unfold calculate_movement_score, spec_homography_score.
  rewrite displacements_same_length by assumption.
  unfold variance_or_zero.
  set (ds := map pair_displacement (combine src dst)).
  assert (Hds : length ds = length src).
  { unfold ds. rewrite length_map, length_combine. lia. }
  rewrite <- Hlen, <- Hds.
  unfold translation_magnitude, rotation_magnitude, scale_change, perspective_dist.
  destruct ds as [| x [| y ds']]; cbn [length Nat.ltb Nat.leb andb bind try_or_zero].
  - lra.
  - lra.
  - rewrite var_eq_variance. lra.
Qed.

Lemma median_nil : np.median [] = 0.
Proof. unfold np.median. cbn. lra. Qed.

Lemma variance_nil : variance [] = 0.
Proof. unfold variance. cbn. lra. Qed.

Lemma calculate_movement_score_none (src dst : list np.Pt) :
  length src = length dst ->
  calculate_movement_score None src dst = spec_degenerate_score (combine src dst).
Proof.
  intros Hlen. unfold calculate_movement_score, spec_degenerate_score.
  rewrite displacements_same_length by assumption.
  rewrite <- Hlen.
  destruct src as [| p src]; cbn [length Nat.eqb orb bind try_or_zero].
  - cbn [combine map]. rewrite median_nil, variance_nil. lra.
  - rewrite var_eq_variance. lra.
Qed.

(** ** From [detect] to one transition *)


Lemma detect_inv self frames r :
  detect self frames = Ok r ->
  exists outs,
    transitions self 1 frames = Ok outs /\
    movement_indices r = concat (map flags_of outs) /\
    movement_scores r = map score_of outs /\
    transformation_matrices r = map matrix_of outs.
Proof.
  rewrite detect_transitions.
  destruct (forallb accepted frames); [| discriminate].
  destruct (transitions self 1 frames) as [outs |]; [| discriminate].
  cbn [bind]. intros [= <-]. exists outs. now split.
Qed.

(** [detect] returns only when the conversion accepted every frame. *)
Lemma detect_frames_accepted self frames r :
  detect self frames = Ok r -> forallb accepted frames = true.
Proof.
  rewrite detect_transitions.
  destruct (forallb accepted frames); [reflexivity | discriminate].
Qed.

Lemma detect_nth self frames r k f1 f2 :
  detect self frames = Ok r ->
  nth_error frames k = Some f1 -> nth_error frames (S k) = Some f2 ->
  exists o,
    transition self (S k) f1 f2 = Ok o /\
    recorded r k (score_of o) /\
    stored r k (matrix_of o) /\
    (flagged r k <-> In (S k) (flags_of o)).
Proof.
  intros Hrun Hk HSk.
  destruct (detect_inv _ _ _ Hrun) as (outs & Houts & Hi & Hs & Hm).
  destruct (transitions_nth _ _ _ _ _ _ _ Houts Hk HSk) as (o & Ho & Hn).
  exists o. unfold recorded, stored, flagged.
  rewrite Hi, Hs, Hm. repeat split.
  - exact Ho.
  - now apply map_nth_error.
  - now apply map_nth_error.
  - apply (transitions_flagged_nth self frames 1 outs k o Houts Hn).
  - apply (transitions_flagged_nth self frames 1 outs k o Houts Hn).
Qed.

Lemma enough_transition_accepted self idx f1 f2 src dst :
  enough_good_matches self f1 f2 src dst ->
  matcher_accepts_orb -> findHomography_accepts src dst = true ->
  length src = length dst /\
  ((calculate_movement_score (findHomography src dst) src dst <> 0 /\
    transition self idx f1 f2
    = Ok (append_if
            (Rltb (geometric_bar self (findHomography src dst))
                  (calculate_movement_score (findHomography src dst) src dst))
            [] idx,
          calculate_movement_score (findHomography src dst) src dst,
          findHomography src dst))
   \/
   (calculate_movement_score (findHomography src dst) src dst = 0 /\
    transition self idx f1 f2
    = Ok (append_if (Rltb (threshold_feature self) (fused_fallback f1 f2))
            (append_if (Rltb (geometric_bar self (findHomography src dst)) 0)
                       [] idx)
            idx,
          fused_fallback f1 f2,
          findHomography src dst))).
Proof.
  intros (pdes & d & H1 & H2 & Hp & Hd & Hmany & Hsrc & Hdst) Hacc Hfh.
  pose proof (Hacc _ _ _ _ H1 H2) as Hbf.
  split.
  - apply points_at_length in Hsrc, Hdst. congruence.
  - rewrite (transition_usable self idx f1 f2 pdes d) by assumption.
    destruct (Req_dec (calculate_movement_score (findHomography src dst) src dst) 0)
      as [Hz | Hnz]; [right | left]; (split; [assumption |]).
    + now apply compare_frames_zero.
    + now apply compare_frames_geometric.
Qed.

(** The same, read off a transition that returned. *)
Lemma enough_transition self idx f1 f2 src dst o :
  enough_good_matches self f1 f2 src dst ->
  transition self idx f1 f2 = Ok o ->
  length src = length dst /\
  ((calculate_movement_score (findHomography src dst) src dst <> 0 /\
    o = (append_if
           (Rltb (geometric_bar self (findHomography src dst))
                 (calculate_movement_score (findHomography src dst) src dst))
           [] idx,
         calculate_movement_score (findHomography src dst) src dst,
         findHomography src dst))
   \/
   (calculate_movement_score (findHomography src dst) src dst = 0 /\
    o = (append_if (Rltb (threshold_feature self) (fused_fallback f1 f2))
           (append_if (Rltb (geometric_bar self (findHomography src dst)) 0)
                      [] idx)
           idx,
         fused_fallback f1 f2,
         findHomography src dst))).
Proof.
  intros (pdes & d & H1 & H2 & Hp & Hd & Hmany & Hsrc & Hdst) Ho.
  split; [apply points_at_length in Hsrc, Hdst; congruence |].
  rewrite (transition_usable self idx f1 f2 pdes d) in Ho by assumption.
  apply compare_frames_inv in Ho
    as [Hbf [[Hfew _] | (src' & dst' & _ & Hsrc' & Hdst' & Hfh & Hcase)]];
    [cbv zeta in Hmany; lia |].
  rewrite Hsrc in Hsrc'. rewrite Hdst in Hdst'.
  injection Hsrc' as <-. injection Hdst' as <-. exact Hcase.
Qed.

Lemma few_transition_accepted self idx f1 f2 :
  few_good_matches self f1 f2 -> matcher_accepts_orb ->
  transition self idx f1 f2
  = Ok (append_if (Rltb (threshold_feature self) (fused_fallback f1 f2)) [] idx,
        fused_fallback f1 f2, None).
Proof.
  intros (pdes & d & H1 & H2 & Hp & Hd & Hfew) Hacc.
  rewrite (transition_usable self idx f1 f2 pdes d) by assumption.
  apply compare_frames_few; [now apply (Hacc _ _ _ _ H1 H2) | assumption].
Qed.

(** The same, read off a transition that returned. *)
Lemma few_transition self idx f1 f2 o :
  few_good_matches self f1 f2 ->
  transition self idx f1 f2 = Ok o ->
  o = (append_if (Rltb (threshold_feature self) (fused_fallback f1 f2)) [] idx,
       fused_fallback f1 f2, None).
Proof.
  intros (pdes & d & H1 & H2 & Hp & Hd & Hfew) Ho.
  rewrite (transition_usable self idx f1 f2 pdes d) in Ho by assumption.
  apply compare_frames_inv in Ho
    as [Hbf [[_ ->] | (src & dst & Hmany & _)]]; [reflexivity | lia].
Qed.

Lemma In_append_if_nil (c : bool) (idx : nat) :
  In idx (append_if c [] idx) <-> c = true.
Proof. destruct c; cbn; intuition congruence. Qed.


Lemma transitions_scores_nonneg self frames : forall idx outs,
  transitions self idx frames = Ok outs ->
  Forall (fun s => 0 <= s) (map score_of outs).
Proof.
  induction frames as [| f1 [| f2 fs] IH]; intros idx outs Houts.
  - injection Houts as <-. constructor.
  - injection Houts as <-. constructor.
  - rewrite transitions_cons in Houts.
    destruct (transition self idx f1 f2) as [o |] eqn:Eo; [| discriminate].
    cbn [bind] in Houts.
    destruct (transitions self (S idx) (f2 :: fs)) as [os |] eqn:E; [| discriminate].
    injection Houts as <-. cbn [map]. constructor.
    + eapply transition_score_nonneg; eassumption.
    + eapply IH; eassumption.
Qed.

Lemma In_append_if_true (l : list nat) (idx : nat) :
  In idx (append_if true l idx).
Proof. cbn [append_if]. apply in_or_app. right. now left. Qed.

Lemma In_append_if_head (c : bool) (idx : nat) :
  In idx (append_if c ([] ++ [idx]) idx).
Proof. destruct c; cbn [append_if app]; [| now left]. now left. Qed.

(** ** The invariant of the reported indices *)

Lemma transitions_invariant self frames : forall idx outs,
  0 <= threshold_feature self -> 0 <= threshold_homography self ->
  transitions self idx frames = Ok outs ->
  StronglySorted lt (concat (map flags_of outs)) /\
  (forall j, In j (concat (map flags_of outs)) ->
     (idx <= j < idx + length outs)%nat /\
     exists o, nth_error outs (j - idx) = Some o /\ 0 < score_of o).
Proof.
  induction frames as [| f1 [| f2 fs] IH]; intros idx outs Hf Hh Houts.
  - injection Houts as <-. split; [constructor | intros j []].
  - injection Houts as <-. split; [constructor | intros j []].
  - rewrite transitions_cons in Houts.
    destruct (transition self idx f1 f2) as [o |] eqn:Eo; [| discriminate].
    cbn [bind] in Houts.
    destruct (transitions self (S idx) (f2 :: fs)) as [os |] eqn:E; [| discriminate].
    injection Houts as <-.
    destruct (IH (S idx) os Hf Hh E) as [Hsorted Hrest].
    cbn [map concat length].
    destruct (transition_flagged_positive self idx f1 f2 o Hf Hh Eo)
      as [-> | [-> Hpos]]; cbn [app].
    + split; [assumption |].
      intros j Hj. destruct (Hrest j Hj) as [Hb (o' & Hn & Hp)].
      split; [lia |]. exists o'. split; [| assumption].
      replace (j - idx)%nat with (S (j - S idx)) by lia. exact Hn.
    + split.
      * constructor; [assumption |].
        apply Forall_forall. intros j Hj.
        destruct (Hrest j Hj) as [Hb _]. lia.
      * intros j [<- | Hj].
        -- split; [lia |]. exists o. rewrite Nat.sub_diag. now split.
        -- destruct (Hrest j Hj) as [Hb (o' & Hn & Hp)].
           split; [lia |]. exists o'. split; [| assumption].
           replace (j - idx)%nat with (S (j - S idx)) by lia. exact Hn.
Qed.

(** ** Lower thresholds flag at least as much *)

Lemma append_if_mono (c1 c2 : bool) (l1 l2 : list nat) (idx : nat) :
  (c1 = true -> c2 = true) ->
  incl l1 l2 -> (length l1 <= length l2)%nat ->
  incl (append_if c1 l1 idx) (append_if c2 l2 idx) /\
  (length (append_if c1 l1 idx) <= length (append_if c2 l2 idx))%nat.
Proof.
  intros Hc Hincl Hlen. destruct c1; cbn [append_if].
  - rewrite (Hc eq_refl). cbn [append_if]. split.
    + apply incl_app_app; [assumption | apply incl_refl].
    + rewrite !length_app. cbn [length]. lia.
  - destruct c2; cbn [append_if]; split; try assumption.
    + now apply incl_appl.
    + rewrite length_app. lia.
Qed.

Lemma Rltb_mono (t1 t2 s : R) :
  t2 <= t1 -> Rltb t1 s = true -> Rltb t2 s = true.
Proof. intros Ht H1. apply Rltb_true in H1. apply Rltb_true. lra. Qed.

Lemma geometric_bar_mono self1 self2 H :
  threshold_homography self2 <= threshold_homography self1 ->
  geometric_bar self2 H <= geometric_bar self1 H.
Proof. intros Hh. destruct H; cbn [geometric_bar]; lra. Qed.

Lemma transition_mono self1 self2 idx f1 f2 o1 :
  threshold_feature self2 <= threshold_feature self1 ->
  threshold_homography self2 <= threshold_homography self1 ->
  min_match_count self2 = min_match_count self1 ->
  transition self1 idx f1 f2 = Ok o1 ->
  exists o2,
    transition self2 idx f1 f2 = Ok o2 /\
    score_of o2 = score_of o1 /\ matrix_of o2 = matrix_of o1 /\
    incl (flags_of o1) (flags_of o2) /\
    (length (flags_of o1) <= length (flags_of o2))%nat.
Proof.
  intros Hf Hh Hm Hrun.
  pose proof (fun H => geometric_bar_mono self1 self2 H Hh) as Hbar.
  transition_cases Hrun.
  - rewrite transition_unusable by assumption.
    eexists. split; [reflexivity |]. repeat split; auto using incl_refl.
  - rewrite (transition_usable self2 idx f1 f2 pdes d) by assumption.
    rewrite compare_frames_few by (rewrite ?Hm; assumption).
    eexists. split; [reflexivity |].
    unfold score_of, matrix_of, flags_of. cbn [fst snd].
    split; [reflexivity |]. split; [reflexivity |].
    apply append_if_mono; [apply Rltb_mono, Hf | apply incl_refl | lia].
  - rewrite (transition_usable self2 idx f1 f2 pdes d) by assumption.
    rewrite (compare_frames_geometric _ _ _ _ _ _ _ _ src dst)
      by (rewrite ?Hm; assumption).
    eexists. split; [reflexivity |].
    unfold score_of, matrix_of, flags_of. cbn [fst snd].
    split; [reflexivity |]. split; [reflexivity |].
    apply append_if_mono; [apply Rltb_mono, Hbar | apply incl_refl | lia].
  - rewrite (transition_usable self2 idx f1 f2 pdes d) by assumption.
    rewrite (compare_frames_zero _ _ _ _ _ _ _ _ src dst)
      by (rewrite ?Hm; assumption).
    eexists. split; [reflexivity |].
    unfold score_of, matrix_of, flags_of. cbn [fst snd].
    split; [reflexivity |]. split; [reflexivity |].
    apply append_if_mono; [apply Rltb_mono, Hf | |];
      apply append_if_mono; try apply Rltb_mono, Hbar; try apply incl_refl; lia.
Qed.

Lemma transitions_mono self1 self2 frames : forall idx outs1,
  threshold_feature self2 <= threshold_feature self1 ->
  threshold_homography self2 <= threshold_homography self1 ->
  min_match_count self2 = min_match_count self1 ->
  transitions self1 idx frames = Ok outs1 ->
  exists outs2,
    transitions self2 idx frames = Ok outs2 /\
    map score_of outs2 = map score_of outs1 /\
    map matrix_of outs2 = map matrix_of outs1 /\
    incl (concat (map flags_of outs1)) (concat (map flags_of outs2)) /\
    (length (concat (map flags_of outs1))
     <= length (concat (map flags_of outs2)))%nat.
Proof.
  induction frames as [| f1 [| f2 fs] IH]; intros idx outs1 Hf Hh Hm Hrun.
  - injection Hrun as <-. exists []. repeat split; auto using incl_refl.
  - injection Hrun as <-. exists []. repeat split; auto using incl_refl.
  - rewrite transitions_cons in Hrun. rewrite transitions_cons.
    destruct (transition self1 idx f1 f2) as [o1 |] eqn:Eo; [| discriminate].
    cbn [bind] in Hrun.
    destruct (transitions self1 (S idx) (f2 :: fs)) as [os1 |] eqn:E; [| discriminate].
    injection Hrun as <-.
    destruct (transition_mono self1 self2 idx f1 f2 o1 Hf Hh Hm Eo)
      as (o2 & -> & Hs & Hx & Hi & Hl).
    destruct (IH (S idx) os1 Hf Hh Hm E) as (os2 & -> & Hss & Hxs & His & Hls).
    cbn [bind]. exists (o2 :: os2). split; [reflexivity |].
    cbn [map concat]. rewrite Hs, Hx, Hss, Hxs.
    split; [reflexivity |]. split; [reflexivity |]. split.
    + now apply incl_app_app.
    + rewrite !length_app. lia.
Qed.

(** ** The sparse-flow signal *)


Lemma select_same_length {A B : Type} (mask : list Z) :
  forall (a : list A) (b : list B) ra rb,
    np.select a mask = Ok ra -> np.select b mask = Ok rb ->
    length ra = length rb.
Proof.
  induction mask as [| s mask IH]; intros [| x a] [| y b] ra rb;
    cbn [np.select]; try discriminate.
  - now intros [= <-] [= <-].
  - destruct (np.select a mask) as [ra' |] eqn:Ea; [| discriminate].
    destruct (np.select b mask) as [rb' |] eqn:Eb; [| discriminate].
    cbn [bind]. intros [= <-] [= <-].
    specialize (IH a b ra' rb' Ea Eb).
    destruct (Z.eqb s 1); cbn [length]; lia.
Qed.

Lemma optical_flow_score_tracked prev curr corners good_old good_new :
  tracked prev curr corners good_old good_new ->
  (10 < length corners)%nat -> (6 <= length good_old)%nat ->
  calculate_optical_flow_score prev curr
  = np.median (map pair_displacement (combine good_old good_new)) * 3.
Proof.
  intros (Hc & next & status & Hlk & Ho & Hn) H10 H6.
  unfold calculate_optical_flow_score.
  rewrite Hc. cbn [bind].
  rewrite (proj2 (Nat.ltb_lt _ _) H10), Hlk. cbn [bind]. cbv beta iota.
  rewrite Ho, Hn. cbn [bind].
  assert (H5 : (5 <? length good_old)%nat = true) by (apply Nat.ltb_lt; lia).
  rewrite H5.
  unfold np.subtract.
  rewrite <- (select_same_length status corners next good_old good_new Ho Hn).
  rewrite Nat.eqb_refl. cbn [bind try_or_zero].
  now rewrite zip_sub_displacement.
Qed.

Lemma optical_flow_score_inv prev curr :
  calculate_optical_flow_score prev curr <> 0 ->
  exists corners good_old good_new,
    tracked prev curr corners good_old good_new /\
    (10 < length corners)%nat /\ (6 <= length good_old)%nat.
Proof.
  unfold calculate_optical_flow_score.
  destruct (goodFeaturesToTrack prev) as [[corners |] |] eqn:Hc;
    cbn [bind try_or_zero]; try (intros Hne; now contradiction Hne).
  destruct (10 <? length corners)%nat eqn:H10; cbn [try_or_zero];
    [| intros Hne; now contradiction Hne].
  destruct (calcOpticalFlowPyrLK prev curr corners) as [[next status] |] eqn:Hlk;
    cbn [bind try_or_zero]; [| intros Hne; now contradiction Hne].
  destruct (np.select corners status) as [good_old |] eqn:Ho;
    cbn [bind try_or_zero]; [| intros Hne; now contradiction Hne].
  destruct (np.select next status) as [good_new |] eqn:Hn;
    cbn [bind try_or_zero]; [| intros Hne; now contradiction Hne].
  destruct (5 <? length good_old)%nat eqn:H5; cbn [try_or_zero];
    [| intros Hne; now contradiction Hne].
  intros _. exists corners, good_old, good_new.
  apply Nat.ltb_lt in H10, H5.
  split; [| split; [assumption | lia]].
  split; [assumption |]. now exists next, status.
Qed.


(** * The claims *)


(** C2, amended. For a transition with at least [min_match_count] good
    matches and a fitted matrix H, if the specification's weighted sum is not
    exactly 0, then it is the recorded score, H is the stored matrix, and
    the transition is flagged exactly when the sum exceeds
    [threshold_homography]. *)
Theorem homography_path_score self frames r k f1 f2 src dst H :
  detect self frames = Ok r ->
  nth_error frames k = Some f1 -> nth_error frames (S k) = Some f2 ->
  enough_good_matches self f1 f2 src dst ->
  findHomography src dst = Some H ->
  spec_homography_score H (combine src dst) <> 0 ->
  recorded r k (spec_homography_score H (combine src dst)) /\
  stored r k (Some H) /\
  (flagged r k <->
   threshold_homography self < spec_homography_score H (combine src dst)).
Proof.
  intros Hrun Hk HSk Hpath HH Hnz.
  destruct (detect_nth _ _ _ _ _ _ Hrun Hk HSk) as (o & Ho & Hrec & Hsto & Hflag).
  destruct (enough_transition self (S k) f1 f2 src dst o Hpath Ho)
    as [Hlen Hcase].
  rewrite HH in Hcase.
  rewrite (calculate_movement_score_some H src dst Hlen) in Hcase.
  destruct Hcase as [[_ Heq] | [Hz _]]; [| contradiction].
  clear Ho. subst o.
  unfold score_of, matrix_of, flags_of in *. cbn [fst snd geometric_bar] in *.
  repeat split; try assumption.
  - intros Hf. apply Hflag, In_append_if_nil, Rltb_true in Hf. exact Hf.
  - intros Hlt. apply Hflag, In_append_if_nil, Rltb_true. exact Hlt.
Qed.

(** C3, amended. For a transition whose two frames were matched with fewer
    than [min_match_count] good matches, the recorded score is the maximum
    of the three fallback signals on the two grayscale frames and the
    transition is flagged exactly when that maximum exceeds
    [threshold_feature].  For a transition where one of the two frames has
    no descriptor, the recorded score is 0, no matrix is stored and the
    transition is not flagged. *)
Theorem fallback_path_score self frames r k f1 f2 :
  detect self frames = Ok r ->
  nth_error frames k = Some f1 -> nth_error frames (S k) = Some f2 ->
  (few_good_matches self f1 f2 ->
   recorded r k (fused_fallback f1 f2) /\
   (flagged r k <-> threshold_feature self < fused_fallback f1 f2))
  /\
  (no_descriptors f1 f2 ->
   recorded r k 0 /\ stored r k None /\ ~ flagged r k).
Proof.
  intros Hrun Hk HSk.
  destruct (detect_nth _ _ _ _ _ _ Hrun Hk HSk) as (o & Ho & Hrec & Hsto & Hflag).
  split.
  - intros Hfew. pose proof (few_transition self (S k) f1 f2 o Hfew Ho) as Heq.
    clear Ho. subst o.
    unfold score_of, flags_of in *. cbn [fst snd] in *.
    split; [assumption |].
    rewrite Hflag, In_append_if_nil. apply Rltb_true.
  - intros Hno. unfold no_descriptors in Hno.
    rewrite (transition_unusable self (S k) f1 f2 Hno) in Ho.
    injection Ho as <-.
    unfold score_of, matrix_of, flags_of in *. cbn [fst snd] in *.
    repeat split; try assumption.
    intros Hf. apply Hflag in Hf. destruct Hf.
Qed.

(** C4, amended. For a transition with at least [min_match_count] good
    matches for which no matrix could be fitted, let v be the median of the
    per-pair displacements plus 0.1 times their variance.  The transition is
    flagged whenever v exceeds [threshold_homography * 0.5].  When v is not
    exactly 0, v is the recorded score and the transition is flagged exactly
    when v exceeds that bar; when v is exactly 0, the recorded score is the
    maximum of the three fallback signals. *)
Theorem degenerate_path_score self frames r k f1 f2 src dst :
  detect self frames = Ok r ->
  nth_error frames k = Some f1 -> nth_error frames (S k) = Some f2 ->
  enough_good_matches self f1 f2 src dst ->
  findHomography src dst = None ->
  let v := spec_degenerate_score (combine src dst) in
  stored r k None /\
  (threshold_homography self * 0.5 < v -> flagged r k) /\
  (v <> 0 ->
   recorded r k v /\ (flagged r k <-> threshold_homography self * 0.5 < v)) /\
  (v = 0 -> recorded r k (fused_fallback f1 f2)).
Proof.
  intros Hrun Hk HSk Hpath HH v.
  destruct (detect_nth _ _ _ _ _ _ Hrun Hk HSk) as (o & Ho & Hrec & Hsto & Hflag).
  destruct (enough_transition self (S k) f1 f2 src dst o Hpath Ho)
    as [Hlen Hcase].
  rewrite HH in Hcase.
  rewrite (calculate_movement_score_none src dst Hlen) in Hcase.
  fold v in Hcase.
  destruct Hcase as [[Hnz Heq] | [Hz Heq]];
    clear Ho; subst o;
    unfold score_of, matrix_of, flags_of in *; cbn [fst snd geometric_bar] in *.
  - split; [assumption |]. split; [| split].
    + intros Hlt. apply Hflag, In_append_if_nil, Rltb_true. exact Hlt.
    + intros _. split; [assumption |].
      rewrite Hflag, In_append_if_nil. apply Rltb_true.
    + intros Hz. contradiction.
  - split; [assumption |]. split; [| split].
    + intros Hlt. apply Hflag. rewrite Hz in Hlt.
      rewrite (proj2 (Rltb_true _ _) Hlt). cbn [append_if].
      apply In_append_if_head.
    + intros Hnz. contradiction.
    + intros _. assumption.
Qed.

(** C6. Every element of [movement_scores] returned by [detect] is greater
    than or equal to 0, for every frame sequence and every configuration. *)
Theorem detect_scores_nonneg self frames r :
  detect self frames = Ok r ->
  Forall (fun s => 0 <= s) (movement_scores r).
Proof.
  intros Hrun.
  destruct (detect_inv _ _ _ Hrun) as (outs & Houts & _ & -> & _).
  eapply transitions_scores_nonneg. eassumption.
Qed.

(** C8, amended. [detect] validates nothing.  Called with an empty frame
    sequence it returns normally, with three empty lists.  A frame whose
    dimensions the grayscale conversion rejects is discovered
    mid-sequence: the loop runs over the frames before it as on any other
    input, recording their transitions, and [detect] raises in the
    iteration that reaches the frame. *)
Theorem detect_no_validation self :
  detect self [] = Ok (mkResult [] [] []) /\
  forall good bad rest r,
    detect self good = Ok r -> accepted bad = false ->
    exists st,
      for_frames self initial 0 good = Ok st /\ result st = r /\
      loop_body self st (length good) bad = Raise /\
      detect self (good ++ bad :: rest) = Raise.
Proof.
  split; [reflexivity |].
  intros good bad rest r Hrun Hbad.
  unfold detect in Hrun.
  destruct (for_frames self initial 0 good) as [st |] eqn:Hloop; [| discriminate].
  cbn [bind] in Hrun. injection Hrun as Hres.
  exists st. split; [reflexivity |]. split; [exact Hres |].
  split; [now apply loop_body_rejected |].
  rewrite detect_transitions, forallb_app. cbn [forallb].
  rewrite Hbad, andb_false_r. reflexivity.
Qed.

(** C10, amended. For a transition with at least [min_match_count] good
    matches and a fitted matrix H whose decomposition score is exactly 0,
    the recorded score is the maximum of the three fallback signals while
    the stored matrix is still H; the transition is flagged whenever that
    maximum exceeds [threshold_feature], and, for a non-negative
    [threshold_homography], exactly then. *)
Theorem zero_score_falls_back self frames r k f1 f2 src dst H :
  detect self frames = Ok r ->
  nth_error frames k = Some f1 -> nth_error frames (S k) = Some f2 ->
  enough_good_matches self f1 f2 src dst ->
  findHomography src dst = Some H ->
  spec_homography_score H (combine src dst) = 0 ->
  recorded r k (fused_fallback f1 f2) /\
  stored r k (Some H) /\
  (threshold_feature self < fused_fallback f1 f2 -> flagged r k) /\
  (0 <= threshold_homography self ->
   (flagged r k <-> threshold_feature self < fused_fallback f1 f2)).
Proof.
  intros Hrun Hk HSk Hpath HH Hz.
  destruct (detect_nth _ _ _ _ _ _ Hrun Hk HSk) as (o & Ho & Hrec & Hsto & Hflag).
  destruct (enough_transition self (S k) f1 f2 src dst o Hpath Ho)
    as [Hlen Hcase].
  rewrite HH in Hcase.
  rewrite (calculate_movement_score_some H src dst Hlen) in Hcase.
  destruct Hcase as [[Hnz _] | [_ Heq]]; [contradiction |].
  clear Ho. subst o.
  unfold score_of, matrix_of, flags_of in *. cbn [fst snd geometric_bar] in *.
  split; [assumption |]. split; [assumption |]. split.
  - intros Hlt. apply Hflag. rewrite (proj2 (Rltb_true _ _) Hlt).
    apply In_append_if_true.
  - intros Hh. rewrite Hflag, (proj2 (Rltb_false _ _) Hh).
    cbn [append_if]. rewrite In_append_if_nil. apply Rltb_true.
Qed.


(** C5, amended. For non-negative [threshold_feature] and
    [threshold_homography], whatever [min_match_count] and the frame sequence
    of length N: the returned [movement_indices] is strictly ascending and
    lies in 1 .. N-1, [movement_scores[i]] is defined and non-negative for
    every i in range, and every reported index has a strictly positive score
    at its transition. *)
Theorem detect_invariant self frames r :
  0 <= threshold_feature self -> 0 <= threshold_homography self ->
  detect self frames = Ok r ->
  result_invariant (length frames) r.
Proof.
  intros Hf Hh Hrun.
  destruct (detect_inv _ _ _ Hrun) as (outs & Houts & Hi & Hs & _).
  destruct (transitions_invariant self frames 1 outs Hf Hh Houts) as [Hsorted Hin].
  pose proof (transitions_length _ _ _ _ Houts) as Hlen.
  pose proof (transitions_scores_nonneg _ _ _ _ Houts) as Hnn.
  unfold result_invariant. rewrite Hi, Hs. repeat split.
  - exact Hsorted.
  - destruct (Hin j H) as [Hb _]. lia.
  - destruct (Hin j H) as [Hb _]. lia.
  - intros i Hi'.
    destruct (nth_error (map score_of outs) i) as [s |] eqn:E.
    + exists s. split; [reflexivity |].
      rewrite Forall_forall in Hnn. apply Hnn. eapply nth_error_In, E.
    + apply nth_error_None in E. rewrite length_map in E. lia.
  - intros j Hj. destruct (Hin j Hj) as [_ (o & Hn & Hp)].
    exists (score_of o). split; [| assumption].
    now apply map_nth_error.
Qed.

(** C7. For a fixed frame sequence and a fixed [min_match_count], lowering
    [threshold_feature] and [threshold_homography] never loses a flagged
    transition: the run with the lower thresholds returns the same scores,
    reports every index the other run reports, and neither the number of
    reported indices nor the number of distinct flagged transitions
    decreases. *)
Theorem detect_monotonic self1 self2 frames r1 :
  threshold_feature self2 <= threshold_feature self1 ->
  threshold_homography self2 <= threshold_homography self1 ->
  min_match_count self2 = min_match_count self1 ->
  detect self1 frames = Ok r1 ->
  exists r2,
    detect self2 frames = Ok r2 /\
    movement_scores r2 = movement_scores r1 /\
    incl (movement_indices r1) (movement_indices r2) /\
    (length (movement_indices r1) <= length (movement_indices r2))%nat /\
    (length (nodup Nat.eq_dec (movement_indices r1))
     <= length (nodup Nat.eq_dec (movement_indices r2)))%nat.
Proof.
  intros Hf Hh Hm Hrun.
  destruct (detect_inv _ _ _ Hrun) as (outs1 & Houts1 & Hi & Hs & _).
  destruct (transitions_mono self1 self2 frames 1 outs1 Hf Hh Hm Houts1)
    as (outs2 & Houts2 & Hss & _ & Hincl & Hlen).
  rewrite detect_accepted, Houts2 by (eapply detect_frames_accepted; eassumption).
  cbn [bind].
  eexists. split; [reflexivity |].
  cbn [extend movement_scores movement_indices app].
  rewrite Hi, Hs. repeat split; try assumption.
  apply NoDup_incl_length; [apply NoDup_nodup |].
  intros j Hj. apply nodup_In. apply nodup_In in Hj. now apply Hincl.
Qed.


(** C9, amended. The sparse optical-flow signal is the median displacement
    of the successfully tracked corner points multiplied by 3 whenever more
    than 10 corner points were detected in the previous frame and at least 6
    of them were tracked successfully into the current frame; in every other
    case it is 0. *)
Theorem optical_flow_score_cases prev curr :
  (forall corners good_old good_new,
     tracked prev curr corners good_old good_new ->
     (10 < length corners)%nat -> (6 <= length good_old)%nat ->
     calculate_optical_flow_score prev curr
     = np.median (map pair_displacement (combine good_old good_new)) * 3)
  /\
  ((forall corners good_old good_new,
      tracked prev curr corners good_old good_new ->
      ~ ((10 < length corners)%nat /\ (6 <= length good_old)%nat)) ->
   calculate_optical_flow_score prev curr = 0).
Proof.
  split.
  - intros corners good_old good_new. apply optical_flow_score_tracked.
  - intros Hnone.
    destruct (Req_dec (calculate_optical_flow_score prev curr) 0) as [Hz | Hnz]; [assumption |].
    destruct (optical_flow_score_inv prev curr Hnz)
      as (corners & good_old & good_new & Ht & H10 & H6).
    exfalso. exact (Hnone corners good_old good_new Ht (conj H10 H6)).
Qed.

End Properties.

(** * The detector on the concrete scene *)

(** ** The stand-ins keep OpenCV's contracts *)




Lemma scene_matcher_accepts_orb fit :
  matcher_accepts_orb (cv := Scene.opencv fit).
Proof.
  unfold matcher_accepts_orb. intros img1 img2 d1 d2.
  cbn [detectAndCompute bf_match_accepts Scene.opencv].
  unfold Scene.detectAndCompute. cbv zeta.
  destruct (hd 0%Z (pix img1) =? 100)%Z;
    [| destruct (hd 0%Z (pix img1) =? 101)%Z;
       [| destruct (hd 0%Z (pix img1) =? 102)%Z; [| discriminate]]];
    (intros [= <-];
     destruct (hd 0%Z (pix img2) =? 100)%Z;
       [| destruct (hd 0%Z (pix img2) =? 101)%Z;
          [| destruct (hd 0%Z (pix img2) =? 102)%Z; [| discriminate]]];
     intros [= <-]; reflexivity).
Qed.

Lemma scene_estimator_accepts_four fit :
  estimator_accepts_four (cv := Scene.opencv fit).
Proof.
  unfold estimator_accepts_four. intros src dst Hfour Hlen.
  cbn [findHomography_accepts Scene.opencv]. unfold Scene.findHomography_accepts.
  apply andb_true_intro. split; [now apply Nat.leb_le | now apply Nat.eqb_eq].
Qed.

(** ** Evaluating comparisons and sorts on explicit numbers *)

Lemma Rltb_yes (x y : R) : x < y -> Rltb x y = true.
Proof. apply Rltb_true. Qed.

Lemma Rltb_no (x y : R) : y <= x -> Rltb x y = false.
Proof. apply Rltb_false. Qed.

Lemma Rleb_yes (x y : R) : x <= y -> Rleb x y = true.
Proof. apply Rleb_true. Qed.

Lemma Rleb_no (x y : R) : y < x -> Rleb x y = false.
Proof. apply Rleb_false. Qed.

Lemma Reqb_yes (x y : R) : x = y -> Reqb x y = true.
Proof. apply Reqb_true. Qed.

Lemma Reqb_no (x y : R) : x <> y -> Reqb x y = false.
Proof. apply Reqb_false. Qed.

(** Replace integer expressions under [IZR] by their values. *)
Ltac zeval :=
  repeat match goal with
         | |- context [IZR ?z] =>
             lazymatch z with
             | Z0 => fail
             | Zpos _ => fail
             | Zneg _ => fail
             | _ => let v := eval vm_compute in z in
                    progress change z with v
             end
         end.

(** Decide the comparisons of the goal by linear arithmetic. *)
Ltac rdecide :=
  repeat match goal with
         | |- context [Rmin ?a ?b] =>
             first [rewrite (Rmin_left a b) by lra | rewrite (Rmin_right a b) by lra]
         | |- context [Rmax ?a ?b] =>
             first [rewrite (Rmax_left a b) by lra | rewrite (Rmax_right a b) by lra]
         | |- context [Rltb ?a ?b] =>
             first [rewrite (Rltb_yes a b) by lra | rewrite (Rltb_no a b) by lra]
         | |- context [Rleb ?a ?b] =>
             first [rewrite (Rleb_yes a b) by lra | rewrite (Rleb_no a b) by lra]
         | |- context [Reqb ?a ?b] =>
             first [rewrite (Reqb_yes a b) by lra | rewrite (Reqb_no a b) by lra]
         end.

(** A list already in order is left as it is (the sort is stable). *)
Lemma sorted_in_order {A : Type} (key : A -> R) (l : list A) :
  StronglySorted (fun a b => key a <= key b) l -> sorted key l = l.
Proof.
  induction 1 as [| x l Hs IH Hall]; [reflexivity |].
  cbn [sorted]. rewrite IH.
  destruct l as [| y l']; [reflexivity |].
  cbn [insert]. inversion Hall as [| ? ? Hxy _]; subst.
  now rewrite Rleb_yes.
Qed.

(** ** Matching on the scene *)

Lemma scene_matches_moved : Scene.bf_match Scene.des_still Scene.des_moved = Scene.four_matches 2.
Proof.
  unfold Scene.bf_match. cbn [Scene.pair_rows]. zeval. reflexivity.
Qed.

Lemma scene_matches_same : Scene.bf_match Scene.des_still Scene.des_still = Scene.four_matches 0.
Proof.
  unfold Scene.bf_match. cbn [Scene.pair_rows]. zeval. reflexivity.
Qed.

Lemma four_matches_sorted (dist : R) :
  sorted distance (Scene.four_matches dist) = Scene.four_matches dist.
Proof.
  apply sorted_in_order. unfold Scene.four_matches.
  repeat (constructor; cbn [distance]; try lra).
Qed.

Lemma good_matches_close (dist : R) :
  0 < dist < 20 -> good_matches_of (Scene.four_matches dist) = Scene.four_matches dist.
Proof.
  intros Hd. unfold good_matches_of, Scene.four_matches. cbn [distance filter].
  assert (Hlt : dist < Rmin 50 (dist * 2.5)).
  { unfold Rmin. destruct (Rle_dec 50 (dist * 2.5)); lra. }
  rewrite (Rltb_yes _ _ Hlt). reflexivity.
Qed.

Lemma good_matches_identical : good_matches_of (Scene.four_matches 0) = [].
Proof.
  unfold good_matches_of, Scene.four_matches. cbn [distance filter].
  assert (Hno : Rmin 50 (0 * 2.5) <= 0).
  { unfold Rmin. destruct (Rle_dec 50 (0 * 2.5)); lra. }
  rewrite (Rltb_no _ _ Hno). reflexivity.
Qed.

Lemma sum_repeat (c : R) (n : nat) : np.sum (repeat c n) = INR n * c.
Proof.
  induction n as [| n IH]; [cbn; lra |].
  cbn [repeat]. unfold np.sum in *. cbn [fold_right]. rewrite IH, S_INR. lra.
Qed.

Lemma variance_repeat (c : R) (n : nat) : variance (repeat c n) = 0.
Proof.
  unfold variance. rewrite repeat_length, sum_repeat.
  destruct n as [| n].
  - cbn. lra.
  - assert (Hn : INR (S n) <> 0) by (apply not_0_INR; discriminate).
    replace (INR (S n) * c / INR (S n)) with c by (field; assumption).
    rewrite map_repeat, sum_repeat. field. assumption.
Qed.

Lemma repeat_in_order (c : R) (n : nat) :
  StronglySorted (fun a b : R => a <= b) (repeat c n).
Proof.
  induction n as [| n IH]; cbn [repeat]; constructor; [assumption |].
  apply Forall_forall. intros x Hx. apply repeat_spec in Hx. lra.
Qed.

Lemma nth_repeat_lt (c : R) (n i : nat) : (i < n)%nat -> nth i (repeat c n) 0 = c.
Proof.
  intros Hi. rewrite (nth_indep _ 0 c) by (now rewrite repeat_length).
  apply nth_repeat.
Qed.

Lemma median_repeat (c : R) (n : nat) : (0 < n)%nat -> np.median (repeat c n) = c.
Proof.
  intros Hn. unfold np.median.
  rewrite (sorted_in_order (fun x => x)) by apply repeat_in_order.
  rewrite repeat_length.
  assert (n / 2 < n)%nat by (apply Nat.div_lt; lia).
  rewrite !nth_repeat_lt by lia.
  destruct (Nat.even n); lra.
Qed.

Lemma pair_displacement_shift (p : np.Pt) (dx dy : R) :
  pair_displacement (p, Scene.shift dx dy p) = sqrt (dx ^ 2 + dy ^ 2).
Proof.
  unfold pair_displacement, Scene.shift. cbn [fst snd]. f_equal. ring.
Qed.

Lemma pair_displacement_same (p : np.Pt) : pair_displacement (p, p) = 0.
Proof.
  unfold pair_displacement.
  replace ((fst p - fst p) ^ 2 + (snd p - snd p) ^ 2) with 0 by ring.
  apply sqrt_0.
Qed.

Lemma displacements_shift (pts : list np.Pt) (dx dy : R) :
  map pair_displacement (combine pts (map (Scene.shift dx dy) pts))
  = repeat (sqrt (dx ^ 2 + dy ^ 2)) (length pts).
Proof.
  induction pts as [| p pts IH]; [reflexivity |].
  cbn [map combine length repeat]. now rewrite pair_displacement_shift, IH.
Qed.

Lemma displacements_same (pts : list np.Pt) :
  map pair_displacement (combine pts pts) = repeat 0 (length pts).
Proof.
  induction pts as [| p pts IH]; [reflexivity |].
  cbn [map combine length repeat]. now rewrite pair_displacement_same, IH.
Qed.

Lemma arctan2_0_1 : np.arctan2 0 1 = 0.
Proof.
  unfold np.arctan2. rewrite Rltb_yes by lra.
  replace (0 / 1) with 0 by field. apply atan_0.
Qed.

(** The score of a pure translation: 1.5 times its length, plus the
    variance term. *)
Lemma translation_score (tx ty : R) (pairs : list (np.Pt * np.Pt)) :
  spec_homography_score (Scene.translation tx ty) pairs
  = sqrt (tx ^ 2 + ty ^ 2) * 1.5
    + 0.1 * variance_or_zero (map pair_displacement pairs).
Proof.
  unfold spec_homography_score, Scene.translation.
  cbn [h00 h01 h02 h10 h11 h12 h20 h21 h22].
  rewrite arctan2_0_1.
  replace (1 ^ 2 + 0 ^ 2) with 1 by ring.
  replace (0 ^ 2 + 1 ^ 2) with 1 by ring.
  rewrite sqrt_1, !Rabs_R0.
  replace (1 - (1 + 1) / 2) with 0 by field.
  rewrite Rabs_R0. lra.
Qed.

Lemma variance_or_zero_repeat (c : R) (n : nat) :
  variance_or_zero (repeat c n) = 0.
Proof.
  unfold variance_or_zero. destruct (_ <? _)%nat; [reflexivity |].
  apply variance_repeat.
Qed.

(** Replace a call of [cv2.absdiff] on explicit images by its value. *)
Ltac absdiff_eval :=
  repeat match goal with
         | |- context [cv2.absdiff ?a ?b] =>
             let v := eval vm_compute in (cv2.absdiff a b) in
             change (cv2.absdiff a b) with v
         end.

(** Replace natural-number expressions under [INR] by integer literals. *)
Ltac neval :=
  repeat match goal with
         | |- context [INR ?n] =>
             let v := eval vm_compute in (Z.of_nat n) in
             rewrite (INR_IZR_INZ n); change (Z.of_nat n) with v
         end.

Local Abbreviation scene_diff := calculate_frame_difference_score.
Local Abbreviation scene_flow fit :=
  (calculate_optical_flow_score (cv := Scene.opencv fit)).
Local Abbreviation scene_edge fit :=
  (calculate_edge_motion_score (cv := Scene.opencv fit)).
Local Abbreviation scene_fallback fit := (fused_fallback (cv := Scene.opencv fit)).

Lemma scene_flow_zero fit (prev curr : Image) : scene_flow fit prev curr = 0.
Proof. reflexivity. Qed.

Lemma scene_edge_zero fit (a b c d a' b' c' d' : Z) :
  scene_edge fit (Scene.img a b c d) (Scene.img a' b' c' d') = 0.
Proof.
  unfold calculate_edge_motion_score. cbn [Canny Scene.opencv].
  unfold Scene.Canny, Scene.img. cbn [bind shape pix map]. absdiff_eval. cbn [bind try_or_zero pix].
  unfold np.mean, np.sum. cbn [map fold_right length]. neval. lra.
Qed.

Lemma scene_diff_noisy :
  scene_diff (Scene.img 100 50 60 70) (Scene.img 101 50 60 72) = 0.075.
Proof.
  unfold calculate_frame_difference_score, Scene.img.
  absdiff_eval. cbn [bind try_or_zero].
  unfold np.mean, np.sum, cv2.threshold. cbn [map fold_right length pix shape fst snd].
  neval. lra.
Qed.

(** ** The paths taken on the scene *)

Local Abbreviation scene_enough fit :=
  (enough_good_matches (cv := Scene.opencv fit)).
Local Abbreviation scene_few fit := (few_good_matches (cv := Scene.opencv fit)).
Local Abbreviation scene_no_descriptors fit :=
  (no_descriptors (cv := Scene.opencv fit)).
Local Abbreviation scene_transition fit := (transition (cv := Scene.opencv fit)).
Local Abbreviation moved_corners :=
  (map (Scene.shift 12 16) Scene.corners_of_scene).

Lemma scene_good_moved :
  good_matches_of (sorted distance (Scene.bf_match Scene.des_still Scene.des_moved))
  = Scene.four_matches 2.
Proof.
  rewrite scene_matches_moved, four_matches_sorted.
  apply good_matches_close. lra.
Qed.

Lemma scene_good_same :
  good_matches_of (sorted distance (Scene.bf_match Scene.des_still Scene.des_still))
  = [].
Proof.
  rewrite scene_matches_same, four_matches_sorted.
  apply good_matches_identical.
Qed.

(** Still scene, then the same scene with noise: four good matches between
    keypoints that have not moved. *)
Lemma scene_enough_noisy fit self :
  min_match_count self = 4%Z ->
  scene_enough fit self Scene.still Scene.noisy
               Scene.corners_of_scene Scene.corners_of_scene.
Proof.
  intros Hm. exists Scene.des_still, Scene.des_moved.
  split; [reflexivity |]. split; [reflexivity |].
  split; [cbn; lia |]. split; [cbn; lia |].
  cbv zeta. cbn [bf_match Scene.opencv]. rewrite scene_good_moved, Hm.
  split; [cbn; lia |]. split; reflexivity.
Qed.

(** Still scene, then the scene after the camera has moved: four good
    matches between keypoints displaced by (12, 16). *)
Lemma scene_enough_panned fit self :
  min_match_count self = 4%Z ->
  scene_enough fit self Scene.still Scene.panned
               Scene.corners_of_scene moved_corners.
Proof.
  intros Hm. exists Scene.des_still, Scene.des_moved.
  split; [reflexivity |]. split; [reflexivity |].
  split; [cbn; lia |]. split; [cbn; lia |].
  cbv zeta. cbn [bf_match Scene.opencv]. rewrite scene_good_moved, Hm.
  split; [cbn; lia |]. split; reflexivity.
Qed.

(** The same frame twice: every match is at distance 0, none is good. *)
Lemma scene_few_same fit self :
  min_match_count self = 4%Z ->
  scene_few fit self Scene.still Scene.still.
Proof.
  intros Hm. exists Scene.des_still, Scene.des_still.
  split; [reflexivity |]. split; [reflexivity |].
  split; [cbn; lia |]. split; [cbn; lia |].
  cbn [bf_match Scene.opencv]. rewrite scene_good_same, Hm. cbn. lia.
Qed.

(** Two featureless frames: no descriptor at all. *)
Lemma scene_no_descriptors_flat fit :
  scene_no_descriptors fit Scene.dark Scene.bright.
Proof. reflexivity. Qed.

(** ** Scores on the scene *)

Lemma scene_fit_noisy :
  Scene.fit Scene.corners_of_scene Scene.corners_of_scene
  = Some (Scene.translation 0 0).
Proof.
  unfold Scene.fit, Scene.corners_of_scene, Scene.translation. cbn [fst snd].
  do 2 f_equal; lra.
Qed.

Lemma scene_fit_panned :
  Scene.fit Scene.corners_of_scene moved_corners
  = Some (Scene.translation 12 16).
Proof.
  unfold Scene.fit, Scene.corners_of_scene, Scene.translation, Scene.shift.
  cbn [map fst snd]. do 2 f_equal; lra.
Qed.

Lemma sqrt_12_16 : sqrt (12 ^ 2 + 16 ^ 2) = 20.
Proof.
  replace (12 ^ 2 + 16 ^ 2) with (20 * 20) by ring.
  apply sqrt_square. lra.
Qed.

Lemma sqrt_0_0 : sqrt (0 ^ 2 + 0 ^ 2) = 0.
Proof. replace (0 ^ 2 + 0 ^ 2) with 0 by ring. apply sqrt_0. Qed.

Lemma sqrt_1_0 : sqrt (1 ^ 2 + 0 ^ 2) = 1.
Proof. replace (1 ^ 2 + 0 ^ 2) with 1 by ring. apply sqrt_1. Qed.

(** Nothing moved and the fit is the identity: the weighted sum is 0. *)
Lemma scene_score_noisy :
  spec_homography_score (Scene.translation 0 0)
    (combine Scene.corners_of_scene Scene.corners_of_scene) = 0.
Proof.
  rewrite translation_score, displacements_same, variance_or_zero_repeat, sqrt_0_0.
  lra.
Qed.

(** Every keypoint moved by (12, 16): the weighted sum is 20 * 1.5. *)
Lemma scene_score_panned :
  spec_homography_score (Scene.translation 12 16)
    (combine Scene.corners_of_scene moved_corners) = 30.
Proof.
  rewrite translation_score, displacements_shift, variance_or_zero_repeat,
    sqrt_12_16.
  lra.
Qed.

Lemma scene_degenerate_noisy :
  spec_degenerate_score (combine Scene.corners_of_scene Scene.corners_of_scene) = 0.
Proof.
  unfold spec_degenerate_score. cbv zeta.
  rewrite displacements_same, variance_repeat, median_repeat by (cbn; lia).
  lra.
Qed.

Lemma scene_degenerate_panned :
  spec_degenerate_score (combine Scene.corners_of_scene moved_corners) = 20.
Proof.
  unfold spec_degenerate_score. cbv zeta.
  rewrite displacements_shift, variance_repeat, median_repeat by (cbn; lia).
  rewrite sqrt_12_16. lra.
Qed.

Lemma scene_diff_same : scene_diff (Scene.img 100 50 60 70) (Scene.img 100 50 60 70) = 0.
Proof.
  unfold calculate_frame_difference_score, Scene.img.
  absdiff_eval. cbn [bind try_or_zero].
  unfold np.mean, np.sum, cv2.threshold. cbn [map fold_right length pix shape fst snd].
  neval. lra.
Qed.

Lemma scene_diff_flat :
  scene_diff (Scene.img 10 10 10 10) (Scene.img 200 200 200 200) = 119.
Proof.
  unfold calculate_frame_difference_score, Scene.img.
  absdiff_eval. cbn [bind try_or_zero].
  unfold np.mean, np.sum, cv2.threshold. cbn [map fold_right length pix shape fst snd].
  neval. lra.
Qed.

Lemma scene_fallback_noisy fit : scene_fallback fit Scene.still Scene.noisy = 0.075.
Proof.
  unfold fused_fallback, Scene.still, Scene.noisy. cbv zeta.
  cbn [preprocess GaussianBlur Scene.opencv Scene.GaussianBlur].
  rewrite scene_diff_noisy, scene_flow_zero, scene_edge_zero. rdecide. reflexivity.
Qed.

Lemma scene_fallback_same fit : scene_fallback fit Scene.still Scene.still = 0.
Proof.
  unfold fused_fallback, Scene.still. cbv zeta.
  cbn [preprocess GaussianBlur Scene.opencv Scene.GaussianBlur].
  rewrite scene_diff_same, scene_flow_zero, scene_edge_zero. rdecide. reflexivity.
Qed.

Lemma scene_fallback_flat fit : scene_fallback fit Scene.dark Scene.bright = 119.
Proof.
  unfold fused_fallback, Scene.dark, Scene.bright. cbv zeta.
  cbn [preprocess GaussianBlur Scene.opencv Scene.GaussianBlur].
  rewrite scene_diff_flat, scene_flow_zero, scene_edge_zero. rdecide. reflexivity.
Qed.

(** ** Runs of the detector on the scene *)

Lemma scene_run_pair fit self f1 f2 fl s H :
  scene_transition fit self 1%nat f1 f2 = Ok (fl, s, H) ->
  forallb (accepted (cv := Scene.opencv fit)) [f1; f2] = true ->
  Scene.run fit self [f1; f2] = Ok (mkResult fl [s] [H]).
Proof.
  intros Ho Hfs. unfold Scene.run.
  rewrite detect_accepted, transitions_cons, Ho by assumption.
  cbn [transitions bind]. unfold extend, flags_of, score_of, matrix_of.
  cbn [map concat app fst snd movement_indices movement_scores
       transformation_matrices].
  now rewrite app_nil_r.
Qed.

Lemma scene_transition_enough fit self f1 f2 src dst H s :
  (4 <= min_match_count self)%Z ->
  scene_enough fit self f1 f2 src dst ->
  fit src dst = H ->
  calculate_movement_score H src dst = s ->
  scene_transition fit self 1%nat f1 f2
  = Ok (if Reqb s 0
        then (append_if (Rltb (threshold_feature self) (scene_fallback fit f1 f2))
                (append_if (Rltb (geometric_bar self H) 0) [] 1%nat) 1%nat,
              scene_fallback fit f1 f2, H)
        else (append_if (Rltb (geometric_bar self H) s) [] 1%nat, s, H)).
Proof.
  intros Hfour Hpath HH Hs.
  assert (Hfh : @findHomography_accepts (Scene.opencv fit) src dst = true).
  { destruct Hpath as (pdes & d & _ & _ & _ & _ & Hmany & Hsrc & Hdst).
    cbv zeta in Hmany.
    apply points_at_length in Hsrc, Hdst.
    apply scene_estimator_accepts_four; [lia | congruence]. }
  destruct (enough_transition_accepted (cv := Scene.opencv fit)
              self 1%nat f1 f2 src dst Hpath (scene_matcher_accepts_orb fit) Hfh)
    as [_ Hcase].
  cbn [findHomography Scene.opencv] in Hcase.
  rewrite HH, Hs in Hcase.
  destruct Hcase as [[Hnz ->] | [Hz ->]].
  - now rewrite (Reqb_no _ _ Hnz).
  - now rewrite (Reqb_yes _ _ Hz).
Qed.

(** Still scene then noise, with a fit: the geometric score is 0 and the
    fallback maximum 0.075 is recorded next to the identity matrix. *)
Lemma scene_run_noisy self :
  min_match_count self = 4%Z ->
  Scene.run Scene.fit self [Scene.still; Scene.noisy]
  = Ok (mkResult
          (append_if (Rltb (threshold_feature self) 0.075)
             (append_if (Rltb (threshold_homography self) 0) [] 1%nat) 1%nat)
          [0.075] [Some (Scene.translation 0 0)]).
Proof.
  intros Hm. apply scene_run_pair; [| reflexivity].
  rewrite (scene_transition_enough Scene.fit self _ _ _ _
             (Some (Scene.translation 0 0)) 0
             (Z.eq_le_incl _ _ (eq_sym Hm))
             (scene_enough_noisy _ self Hm) scene_fit_noisy).
  - rewrite (Reqb_yes 0 0 eq_refl), scene_fallback_noisy. reflexivity.
  - rewrite calculate_movement_score_some by reflexivity. apply scene_score_noisy.
Qed.

(** Still scene then noise, without a fit: the degenerate score is 0 and
    the fallback maximum is recorded. *)
Lemma scene_run_noisy_no_fit self :
  min_match_count self = 4%Z ->
  Scene.run Scene.no_fit self [Scene.still; Scene.noisy]
  = Ok (mkResult
          (append_if (Rltb (threshold_feature self) 0.075)
             (append_if (Rltb (threshold_homography self * 0.5) 0) [] 1%nat) 1%nat)
          [0.075] [None]).
Proof.
  intros Hm. apply scene_run_pair; [| reflexivity].
  rewrite (scene_transition_enough Scene.no_fit self _ _ _ _ None 0
             (Z.eq_le_incl _ _ (eq_sym Hm))
             (scene_enough_noisy _ self Hm) eq_refl).
  - rewrite (Reqb_yes 0 0 eq_refl), scene_fallback_noisy. reflexivity.
  - rewrite calculate_movement_score_none by reflexivity.
    apply scene_degenerate_noisy.
Qed.

(** Still scene then camera motion, with a fit: the geometric score 30. *)
Lemma scene_run_panned self :
  min_match_count self = 4%Z ->
  Scene.run Scene.fit self [Scene.still; Scene.panned]
  = Ok (mkResult (append_if (Rltb (threshold_homography self) 30) [] 1%nat)
          [30] [Some (Scene.translation 12 16)]).
Proof.
  intros Hm. apply scene_run_pair; [| reflexivity].
  rewrite (scene_transition_enough Scene.fit self _ _ _ _
             (Some (Scene.translation 12 16)) 30
             (Z.eq_le_incl _ _ (eq_sym Hm))
             (scene_enough_panned _ self Hm) scene_fit_panned).
  - rewrite (Reqb_no 30 0) by lra. reflexivity.
  - rewrite calculate_movement_score_some by reflexivity. apply scene_score_panned.
Qed.

(** Still scene then camera motion, without a fit: the degenerate score 20. *)
Lemma scene_run_panned_no_fit self :
  min_match_count self = 4%Z ->
  Scene.run Scene.no_fit self [Scene.still; Scene.panned]
  = Ok (mkResult (append_if (Rltb (threshold_homography self * 0.5) 20) [] 1%nat)
          [20] [None]).
Proof.
  intros Hm. apply scene_run_pair; [| reflexivity].
  rewrite (scene_transition_enough Scene.no_fit self _ _ _ _ None 20
             (Z.eq_le_incl _ _ (eq_sym Hm))
             (scene_enough_panned _ self Hm) eq_refl).
  - rewrite (Reqb_no 20 0) by lra. reflexivity.
  - rewrite calculate_movement_score_none by reflexivity.
    apply scene_degenerate_panned.
Qed.

(** The same frame twice: no good match, the fallback maximum 0. *)
Lemma scene_run_same self :
  min_match_count self = 4%Z ->
  Scene.run Scene.fit self [Scene.still; Scene.still]
  = Ok (mkResult (append_if (Rltb (threshold_feature self) 0) [] 1%nat) [0] [None]).
Proof.
  intros Hm. apply scene_run_pair; [| reflexivity].
  rewrite (few_transition_accepted (cv := Scene.opencv Scene.fit) self 1%nat _ _
             (scene_few_same _ self Hm) (scene_matcher_accepts_orb _)).
  rewrite scene_fallback_same. reflexivity.
Qed.

(** Two featureless frames: 0 is recorded and nothing is reported. *)
Lemma scene_run_flat self :
  Scene.run Scene.fit self [Scene.dark; Scene.bright]
  = Ok (mkResult [] [0] [None]).
Proof.
  apply scene_run_pair; [| reflexivity].
  rewrite (transition_unusable (cv := Scene.opencv Scene.fit)
             self 1%nat _ _ (scene_no_descriptors_flat _)).
  reflexivity.
Qed.

Ltac scene_run_eval lemma :=
  rewrite lemma by reflexivity;
  cbn [threshold_feature threshold_homography
       Scene.detector Scene.negative_feature Scene.negative_homography
       Scene.sensitive];
  rdecide; reflexivity.

Lemma scene_run_noisy_default :
  Scene.run Scene.fit Scene.detector [Scene.still; Scene.noisy]
  = Ok (mkResult [] [0.075] [Some (Scene.translation 0 0)]).
Proof. scene_run_eval scene_run_noisy. Qed.

Lemma scene_run_noisy_sensitive :
  Scene.run Scene.fit Scene.sensitive [Scene.still; Scene.noisy]
  = Ok (mkResult [1%nat] [0.075] [Some (Scene.translation 0 0)]).
Proof. scene_run_eval scene_run_noisy. Qed.

Lemma scene_run_noisy_negative :
  Scene.run Scene.fit Scene.negative_homography [Scene.still; Scene.noisy]
  = Ok (mkResult [1%nat] [0.075] [Some (Scene.translation 0 0)]).
Proof. scene_run_eval scene_run_noisy. Qed.

Lemma scene_run_noisy_no_fit_default :
  Scene.run Scene.no_fit Scene.detector [Scene.still; Scene.noisy]
  = Ok (mkResult [] [0.075] [None]).
Proof. scene_run_eval scene_run_noisy_no_fit. Qed.

Lemma scene_run_panned_default :
  Scene.run Scene.fit Scene.detector [Scene.still; Scene.panned]
  = Ok (mkResult [1%nat] [30] [Some (Scene.translation 12 16)]).
Proof. scene_run_eval scene_run_panned. Qed.

Lemma scene_run_panned_no_fit_default :
  Scene.run Scene.no_fit Scene.detector [Scene.still; Scene.panned]
  = Ok (mkResult [1%nat] [20] [None]).
Proof. scene_run_eval scene_run_panned_no_fit. Qed.

Lemma scene_run_same_default :
  Scene.run Scene.fit Scene.detector [Scene.still; Scene.still]
  = Ok (mkResult [] [0] [None]).
Proof. scene_run_eval scene_run_same. Qed.

Lemma scene_run_same_negative :
  Scene.run Scene.fit Scene.negative_feature [Scene.still; Scene.still]
  = Ok (mkResult [1%nat] [0] [None]).
Proof. scene_run_eval scene_run_same. Qed.

(** ** The sparse-flow signal on a row of corners *)

Local Abbreviation scene_tracked n :=
  (tracked (cv := Scene.opencv_with_corners n)).

Lemma select_all {A : Type} (a : list A) :
  np.select a (map (fun _ => 1%Z) a) = Ok a.
Proof.
  induction a as [| x a IH]; [reflexivity |].
  cbn [map np.select]. rewrite IH. reflexivity.
Qed.

Lemma select_all_shifted (a : list np.Pt) (dx dy : R) :
  np.select (map (Scene.shift dx dy) a) (map (fun _ => 1%Z) a)
  = Ok (map (Scene.shift dx dy) a).
Proof.
  induction a as [| x a IH]; [reflexivity |].
  cbn [map np.select]. rewrite IH. reflexivity.
Qed.

(** Every corner of the row is tracked, one pixel to the right. *)
Lemma scene_tracked_all (n : nat) (prev curr : Image) :
  scene_tracked n prev curr (Scene.row_of_corners n) (Scene.row_of_corners n)
                (map (Scene.shift 1 0) (Scene.row_of_corners n)).
Proof.
  split; [reflexivity |].
  exists (map (Scene.shift 1 0) (Scene.row_of_corners n)),
         (map (fun _ => 1%Z) (Scene.row_of_corners n)).
  split; [reflexivity |]. split; [apply select_all | apply select_all_shifted].
Qed.

Lemma row_of_corners_length (n : nat) : length (Scene.row_of_corners n) = n.
Proof. unfold Scene.row_of_corners. now rewrite length_map, length_seq. Qed.

(** The median displacement of the tracked corners is one pixel. *)
Lemma scene_median_tracked (n : nat) :
  (0 < n)%nat ->
  np.median (map pair_displacement
               (combine (Scene.row_of_corners n)
                        (map (Scene.shift 1 0) (Scene.row_of_corners n)))) * 3 = 3.
Proof.
  intros Hn.
  rewrite displacements_shift, row_of_corners_length, median_repeat by assumption.
  rewrite sqrt_1_0. lra.
Qed.

(** With six corners detected the signal is 0, although all six are
    tracked. *)
Lemma scene_flow_six (prev curr : Image) : Scene.flow_with_corners 6 prev curr = 0.
Proof. reflexivity. Qed.

(** * Witnesses and counterexamples *)

Local Abbreviation still_pairs :=
  (combine Scene.corners_of_scene Scene.corners_of_scene).
Local Abbreviation moved_pairs :=
  (combine Scene.corners_of_scene moved_corners).



(** Witness of C2 (amended): the camera moved by (12, 16), the score is
    30 and the transition is flagged. *)
Lemma homography_path_score_witness :
  let r := mkResult [1%nat] [30] [Some (Scene.translation 12 16)] in
  Scene.run Scene.fit Scene.detector [Scene.still; Scene.panned] = Ok r /\
  spec_homography_score (Scene.translation 12 16) moved_pairs <> 0 /\
  recorded r 0 (spec_homography_score (Scene.translation 12 16) moved_pairs) /\
  stored r 0 (Some (Scene.translation 12 16)) /\
  (flagged r 0 <->
   threshold_homography Scene.detector
   < spec_homography_score (Scene.translation 12 16) moved_pairs).
Proof.
  assert (Hnz : spec_homography_score (Scene.translation 12 16) moved_pairs <> 0)
    by (rewrite scene_score_panned; lra).
  split; [exact scene_run_panned_default |].
  split; [exact Hnz |].
  exact (homography_path_score (cv := Scene.opencv Scene.fit)
           Scene.detector [Scene.still; Scene.panned] _ 0%nat
           Scene.still Scene.panned Scene.corners_of_scene moved_corners
           (Scene.translation 12 16)
           scene_run_panned_default eq_refl eq_refl
           (scene_enough_panned _ Scene.detector eq_refl)
           scene_fit_panned Hnz).
Defined.

(** Counterexample to C2 as stated: nothing moved, the fit is the identity
    and the specification's weighted sum is 0, yet the recorded score is the
    fallback maximum 0.075. *)
Lemma homography_path_score_counterexample :
  let r := mkResult [] [0.075] [Some (Scene.translation 0 0)] in
  Scene.run Scene.fit Scene.detector [Scene.still; Scene.noisy] = Ok r /\
  scene_enough Scene.fit Scene.detector Scene.still Scene.noisy
               Scene.corners_of_scene Scene.corners_of_scene /\
  Scene.fit Scene.corners_of_scene Scene.corners_of_scene
  = Some (Scene.translation 0 0) /\
  ~ recorded r 0 (spec_homography_score (Scene.translation 0 0) still_pairs).
Proof.
  split; [exact scene_run_noisy_default |].
  split; [exact (scene_enough_noisy _ Scene.detector eq_refl) |].
  split; [exact scene_fit_noisy |].
  unfold recorded. cbn [movement_scores nth_error].
  rewrite scene_score_noisy. intros [= Heq]. lra.
Qed.

(** Witness of C3 (amended): the same frame twice gives no good match and
    the fallback maximum is recorded; two featureless frames have no
    descriptor and 0 is recorded. *)
Lemma fallback_path_score_witness :
  let r1 := mkResult [] [0] [None] in
  let r2 := mkResult [] [0] [None] in
  (Scene.run Scene.fit Scene.detector [Scene.still; Scene.still] = Ok r1 /\
   scene_few Scene.fit Scene.detector Scene.still Scene.still /\
   recorded r1 0 (scene_fallback Scene.fit Scene.still Scene.still) /\
   (flagged r1 0 <->
    threshold_feature Scene.detector
    < scene_fallback Scene.fit Scene.still Scene.still))
  /\
  (Scene.run Scene.fit Scene.detector [Scene.dark; Scene.bright] = Ok r2 /\
   scene_no_descriptors Scene.fit Scene.dark Scene.bright /\
   recorded r2 0 0 /\ stored r2 0 None /\ ~ flagged r2 0).
Proof.
  split.
  - split; [exact scene_run_same_default |].
    split; [exact (scene_few_same _ Scene.detector eq_refl) |].
    exact (proj1 (fallback_path_score (cv := Scene.opencv Scene.fit)
                    Scene.detector [Scene.still; Scene.still] _ 0%nat
                    Scene.still Scene.still
                    scene_run_same_default eq_refl eq_refl)
                 (scene_few_same _ Scene.detector eq_refl)).
  - split; [exact (scene_run_flat Scene.detector) |].
    split; [exact (scene_no_descriptors_flat _) |].
    exact (proj2 (fallback_path_score (cv := Scene.opencv Scene.fit)
                    Scene.detector [Scene.dark; Scene.bright] _ 0%nat
                    Scene.dark Scene.bright
                    (scene_run_flat Scene.detector) eq_refl eq_refl)
                 (scene_no_descriptors_flat _)).
Defined.

(** Counterexample to C3 as stated: two featureless frames of different
    brightness have no descriptor; the fallback maximum is 119, above
    [threshold_feature], yet 0 is recorded and nothing is flagged. *)
Lemma fallback_path_score_counterexample :
  let r := mkResult [] [0] [None] in
  Scene.run Scene.fit Scene.detector [Scene.dark; Scene.bright] = Ok r /\
  scene_no_descriptors Scene.fit Scene.dark Scene.bright /\
  ~ recorded r 0 (scene_fallback Scene.fit Scene.dark Scene.bright) /\
  ~ (flagged r 0 <->
     threshold_feature Scene.detector
     < scene_fallback Scene.fit Scene.dark Scene.bright).
Proof.
  split; [exact (scene_run_flat Scene.detector) |].
  split; [exact (scene_no_descriptors_flat _) |].
  rewrite scene_fallback_flat. unfold recorded, flagged.
  cbn [movement_scores movement_indices nth_error threshold_feature Scene.detector].
  split.
  - intros [= Heq]. lra.
  - intros [_ Hflag]. apply Hflag. lra.
Qed.

(** Witness of C4 (amended): the camera moved by (12, 16) and no matrix
    could be fitted; the score is 20 and the transition is flagged. *)
Lemma degenerate_path_score_witness :
  let r := mkResult [1%nat] [20] [None] in
  Scene.run Scene.no_fit Scene.detector [Scene.still; Scene.panned] = Ok r /\
  scene_enough Scene.no_fit Scene.detector Scene.still Scene.panned
               Scene.corners_of_scene moved_corners /\
  let v := spec_degenerate_score moved_pairs in
  stored r 0 None /\
  (threshold_homography Scene.detector * 0.5 < v -> flagged r 0) /\
  (v <> 0 ->
   recorded r 0 v /\
   (flagged r 0 <-> threshold_homography Scene.detector * 0.5 < v)) /\
  (v = 0 -> recorded r 0 (scene_fallback Scene.no_fit Scene.still Scene.panned)).
Proof.
  split; [exact scene_run_panned_no_fit_default |].
  split; [exact (scene_enough_panned _ Scene.detector eq_refl) |].
  exact (degenerate_path_score (cv := Scene.opencv Scene.no_fit)
           Scene.detector [Scene.still; Scene.panned] _ 0%nat
           Scene.still Scene.panned Scene.corners_of_scene moved_corners
           scene_run_panned_no_fit_default eq_refl eq_refl
           (scene_enough_panned _ Scene.detector eq_refl) eq_refl).
Defined.

(** Counterexample to C4 as stated: nothing moved and no matrix could be
    fitted; the median plus 0.1 times the variance is 0, yet the recorded
    score is the fallback maximum 0.075. *)
Lemma degenerate_path_score_counterexample :
  let r := mkResult [] [0.075] [None] in
  Scene.run Scene.no_fit Scene.detector [Scene.still; Scene.noisy] = Ok r /\
  scene_enough Scene.no_fit Scene.detector Scene.still Scene.noisy
               Scene.corners_of_scene Scene.corners_of_scene /\
  Scene.no_fit Scene.corners_of_scene Scene.corners_of_scene = None /\
  ~ recorded r 0 (spec_degenerate_score still_pairs).
Proof.
  split; [exact scene_run_noisy_no_fit_default |].
  split; [exact (scene_enough_noisy _ Scene.detector eq_refl) |].
  split; [reflexivity |].
  unfold recorded. cbn [movement_scores nth_error].
  rewrite scene_degenerate_noisy. intros [= Heq]. lra.
Qed.

(** Witness of C5 (amended): the defaults are non-negative; on the moving
    scene index 1 is reported with score 30. *)
Lemma detect_invariant_witness :
  let r := mkResult [1%nat] [30] [Some (Scene.translation 12 16)] in
  0 <= threshold_feature Scene.detector /\
  0 <= threshold_homography Scene.detector /\
  Scene.run Scene.fit Scene.detector [Scene.still; Scene.panned] = Ok r /\
  result_invariant 2 r.
Proof.
  assert (Hf : 0 <= threshold_feature Scene.detector) by (cbn; lra).
  assert (Hh : 0 <= threshold_homography Scene.detector) by (cbn; lra).
  split; [exact Hf |]. split; [exact Hh |].
  split; [exact scene_run_panned_default |].
  exact (detect_invariant (cv := Scene.opencv Scene.fit)
           Scene.detector [Scene.still; Scene.panned] _
           Hf Hh scene_run_panned_default).
Defined.

(** Counterexample to C5 as stated: with [threshold_feature = -1] the same
    frame twice is flagged although its score is 0. *)
Lemma detect_invariant_counterexample :
  let r := mkResult [1%nat] [0] [None] in
  Scene.run Scene.fit Scene.negative_feature [Scene.still; Scene.still] = Ok r /\
  ~ result_invariant 2 r.
Proof.
  split; [exact scene_run_same_negative |].
  intros (_ & _ & _ & Hpos).
  destruct (Hpos 1%nat (or_introl eq_refl)) as (s & Hs & Hlt).
  cbn [movement_scores nth_error Nat.sub] in Hs.
  injection Hs as <-. lra.
Qed.

(** Witness of C6: the still scene followed by a noisy frame. *)
Lemma detect_scores_nonneg_witness :
  let r := mkResult [] [0.075] [Some (Scene.translation 0 0)] in
  Scene.run Scene.fit Scene.detector [Scene.still; Scene.noisy] = Ok r /\
  Forall (fun s => 0 <= s) (movement_scores r).
Proof.
  split; [exact scene_run_noisy_default |].
  exact (detect_scores_nonneg (cv := Scene.opencv Scene.fit)
           Scene.detector [Scene.still; Scene.noisy] _ scene_run_noisy_default).
Defined.

(** Witness of C7: lowering the thresholds from (5, 15) to (0.05, 10) keeps
    the scores and adds a flagged transition. *)
Lemma detect_monotonic_witness :
  let r1 := mkResult [] [0.075] [Some (Scene.translation 0 0)] in
  threshold_feature Scene.sensitive <= threshold_feature Scene.detector /\
  threshold_homography Scene.sensitive <= threshold_homography Scene.detector /\
  min_match_count Scene.sensitive = min_match_count Scene.detector /\
  Scene.run Scene.fit Scene.detector [Scene.still; Scene.noisy] = Ok r1 /\
  exists r2,
    Scene.run Scene.fit Scene.sensitive [Scene.still; Scene.noisy] = Ok r2 /\
    movement_scores r2 = movement_scores r1 /\
    incl (movement_indices r1) (movement_indices r2) /\
    (length (movement_indices r1) <= length (movement_indices r2))%nat /\
    (length (nodup Nat.eq_dec (movement_indices r1))
     <= length (nodup Nat.eq_dec (movement_indices r2)))%nat.
Proof.
  assert (Hf : threshold_feature Scene.sensitive <= threshold_feature Scene.detector)
    by (cbn; lra).
  assert (Hh : threshold_homography Scene.sensitive
               <= threshold_homography Scene.detector) by (cbn; lra).
  split; [exact Hf |]. split; [exact Hh |]. split; [reflexivity |].
  split; [exact scene_run_noisy_default |].
  exact (detect_monotonic (cv := Scene.opencv Scene.fit)
           Scene.detector Scene.sensitive [Scene.still; Scene.noisy] _
           Hf Hh eq_refl scene_run_noisy_default).
Defined.

(** Witness of C8 (amended): after the pan, a frame of two channels.  The
    loop has recorded the pan when it raises on the third frame. *)
Lemma detect_no_validation_witness :
  Scene.run Scene.fit Scene.detector [Scene.still; Scene.panned]
  = Ok (mkResult [1%nat] [30] [Some (Scene.translation 12 16)]) /\
  exists st,
    for_frames (cv := Scene.opencv Scene.fit) Scene.detector initial 0
               [Scene.still; Scene.panned] = Ok st /\
    result st = mkResult [1%nat] [30] [Some (Scene.translation 12 16)] /\
    loop_body (cv := Scene.opencv Scene.fit) Scene.detector st 2
              Scene.two_channel = Raise /\
    Scene.run Scene.fit Scene.detector
              [Scene.still; Scene.panned; Scene.two_channel] = Raise.
Proof.
  split; [exact scene_run_panned_default |].
  exact (proj2 (detect_no_validation (cv := Scene.opencv Scene.fit) Scene.detector)
           [Scene.still; Scene.panned] Scene.two_channel [] _
           scene_run_panned_default eq_refl).
Defined.

(** Counterexample to C8 as stated: the empty sequence raises nothing, and
    on the pan followed by a frame of two channels the failure comes in the
    third iteration, after the loop has recorded the pan. *)
Lemma detect_no_validation_counterexample :
  Scene.run Scene.fit Scene.detector [] = Ok (mkResult [] [] []) /\
  exists st,
    for_frames (cv := Scene.opencv Scene.fit) Scene.detector initial 0
               [Scene.still; Scene.panned] = Ok st /\
    movement_indices (result st) = [1%nat] /\
    movement_scores (result st) = [30] /\
    loop_body (cv := Scene.opencv Scene.fit) Scene.detector st 2
              Scene.two_channel = Raise.
Proof.
  split; [reflexivity |].
  pose proof scene_run_panned_default as Hrun.
  unfold Scene.run, detect in Hrun.
  destruct (for_frames (cv := Scene.opencv Scene.fit) Scene.detector initial 0
              [Scene.still; Scene.panned]) as [st |]; [| discriminate].
  cbn [bind] in Hrun. injection Hrun as Hres.
  exists st. split; [reflexivity |]. rewrite Hres.
  split; [reflexivity |]. split; [reflexivity |].
  now apply loop_body_rejected.
Qed.

(** Witness of C9 (amended): eleven corners, all tracked one pixel to the
    right, give 3. *)
Lemma optical_flow_score_cases_witness :
  let prev := Scene.img 100 50 60 70 in
  let curr := Scene.img 102 70 50 60 in
  let corners := Scene.row_of_corners 11 in
  let moved := map (Scene.shift 1 0) corners in
  scene_tracked 11 prev curr corners corners moved /\
  (10 < length corners)%nat /\ (6 <= length corners)%nat /\
  Scene.flow_with_corners 11 prev curr
  = np.median (map pair_displacement (combine corners moved)) * 3.
Proof.
  assert (H10 : (10 < length (Scene.row_of_corners 11))%nat) by (cbn; lia).
  assert (H6 : (6 <= length (Scene.row_of_corners 11))%nat) by (cbn; lia).
  split; [exact (scene_tracked_all 11 _ _) |].
  split; [exact H10 |]. split; [exact H6 |].
  exact (proj1 (optical_flow_score_cases (cv := Scene.opencv_with_corners 11)
                  (Scene.img 100 50 60 70) (Scene.img 102 70 50 60))
               _ _ _ (scene_tracked_all 11 _ _) H10 H6).
Defined.

(** Counterexample to C9 as stated: six corners are detected and all six
    are tracked, one pixel to the right; the claim gives 3, the program
    gives 0. *)
Lemma optical_flow_score_counterexample :
  let prev := Scene.img 100 50 60 70 in
  let curr := Scene.img 102 70 50 60 in
  let corners := Scene.row_of_corners 6 in
  let moved := map (Scene.shift 1 0) corners in
  scene_tracked 6 prev curr corners corners moved /\
  (6 <= length corners)%nat /\
  Scene.flow_with_corners 6 prev curr
  <> np.median (map pair_displacement (combine corners moved)) * 3.
Proof.
  split; [exact (scene_tracked_all 6 _ _) |].
  split; [cbn; lia |].
  rewrite scene_flow_six, scene_median_tracked by lia. lra.
Qed.

(** Witness of C10 (amended): nothing moved, the fit is the identity, the
    fallback maximum 0.075 is recorded next to the matrix. *)
Lemma zero_score_falls_back_witness :
  let r := mkResult [] [0.075] [Some (Scene.translation 0 0)] in
  Scene.run Scene.fit Scene.detector [Scene.still; Scene.noisy] = Ok r /\
  spec_homography_score (Scene.translation 0 0) still_pairs = 0 /\
  recorded r 0 (scene_fallback Scene.fit Scene.still Scene.noisy) /\
  stored r 0 (Some (Scene.translation 0 0)) /\
  (threshold_feature Scene.detector
   < scene_fallback Scene.fit Scene.still Scene.noisy -> flagged r 0) /\
  (0 <= threshold_homography Scene.detector ->
   (flagged r 0 <->
    threshold_feature Scene.detector
    < scene_fallback Scene.fit Scene.still Scene.noisy)).
Proof.
  split; [exact scene_run_noisy_default |].
  split; [exact scene_score_noisy |].
  exact (zero_score_falls_back (cv := Scene.opencv Scene.fit)
           Scene.detector [Scene.still; Scene.noisy] _ 0%nat
           Scene.still Scene.noisy Scene.corners_of_scene Scene.corners_of_scene
           (Scene.translation 0 0)
           scene_run_noisy_default eq_refl eq_refl
           (scene_enough_noisy _ Scene.detector eq_refl)
           scene_fit_noisy scene_score_noisy).
Defined.

(** Counterexample to C10 as stated: with [threshold_homography = -1] the
    transition is flagged by the geometric test (0 > -1) although the
    fallback maximum 0.075 does not exceed [threshold_feature = 5]. *)
Lemma zero_score_falls_back_counterexample :
  let r := mkResult [1%nat] [0.075] [Some (Scene.translation 0 0)] in
  Scene.run Scene.fit Scene.negative_homography [Scene.still; Scene.noisy] = Ok r /\
  scene_enough Scene.fit Scene.negative_homography Scene.still Scene.noisy
               Scene.corners_of_scene Scene.corners_of_scene /\
  Scene.fit Scene.corners_of_scene Scene.corners_of_scene
  = Some (Scene.translation 0 0) /\
  spec_homography_score (Scene.translation 0 0) still_pairs = 0 /\
  ~ (flagged r 0 <->
     threshold_feature Scene.negative_homography
     < scene_fallback Scene.fit Scene.still Scene.noisy).
Proof.
  split; [exact scene_run_noisy_negative |].
  split; [exact (scene_enough_noisy _ Scene.negative_homography eq_refl) |].
  split; [exact scene_fit_noisy |].
  split; [exact scene_score_noisy |].
  rewrite scene_fallback_noisy. unfold flagged.
  cbn [movement_indices threshold_feature Scene.negative_homography].
  intros [Hflag _].
  assert (5 < 0.075) by (apply Hflag; now left). lra.
Qed.

(** * Further properties of the code *)

(** ** Sorting and the good-match filter *)

Lemma insert_ordered {A : Type} (key : A -> R) (x : A) (l : list A) :
  StronglySorted (fun a b => key a <= key b) l ->
  StronglySorted (fun a b => key a <= key b) (insert key x l).
Proof.
  induction 1 as [| y l Hs IH Hall]; cbn [insert].
  - constructor; constructor.
  - destruct (Rleb (key x) (key y)) eqn:E.
    + apply Rleb_true in E. constructor; [now constructor |].
      constructor; [assumption |].
      eapply Forall_impl; [| exact Hall]. cbv beta. intros z Hz. lra.
    + apply Rleb_false in E. constructor; [assumption |].
      assert (Hperm : Permutation (x :: l) (insert key x l)) by apply insert_perm.
      eapply Permutation_Forall; [exact Hperm |].
      constructor; [lra | assumption].
Qed.

Lemma sorted_ordered {A : Type} (key : A -> R) (l : list A) :
  StronglySorted (fun a b => key a <= key b) (sorted key l).
Proof.
  induction l as [| x l IH]; cbn [sorted]; [constructor |].
  now apply insert_ordered.
Qed.

(** On a list in ascending order, keeping the elements below a bound keeps
    a prefix. *)
Lemma filter_below_prefix {A : Type} (key : A -> R) (t : R) (l : list A) :
  StronglySorted (fun a b => key a <= key b) l ->
  filter (fun m => Rltb (key m) t) l
  = firstn (length (filter (fun m => Rltb (key m) t) l)) l.
Proof.
  induction 1 as [| x l Hs IH Hall]; [reflexivity |].
  cbn [filter]. destruct (Rltb (key x) t) eqn:E.
  - cbn [length firstn]. now rewrite <- IH.
  - apply Rltb_false in E.
    assert (Hnone : filter (fun m => Rltb (key m) t) l = []).
    { clear IH Hs. induction Hall as [| z l Hz _ IHl]; [reflexivity |].
      cbn [filter]. rewrite (proj2 (Rltb_false (key z) t)) by lra. exact IHl. }
    rewrite Hnone. reflexivity.
Qed.

(** ** Reading a video *)

(** The number of multiples of [rate] below [n]. *)
Local Abbreviation samples_below rate n := ((n + rate - 1) / rate)%nat.

Lemma samples_below_step (rate c : nat) :
  (0 < rate)%nat ->
  (c mod rate = 0 ->
   samples_below rate c * rate = c /\
   samples_below rate (S c) = S (samples_below rate c))%nat /\
  (c mod rate <> 0 ->
   samples_below rate (S c) = samples_below rate c /\
   c < samples_below rate c * rate)%nat.
Proof.
  intros Hrate.
  pose proof (Nat.div_mod_eq c rate) as Hc.
  pose proof (Nat.mod_upper_bound c rate ltac:(lia)) as Hm.
  set (q := (c / rate)%nat) in *. set (m := (c mod rate)%nat) in *.
  split; intros Hcase.
  - assert (H1 : samples_below rate c = q).
    { symmetry. apply (Nat.div_unique _ _ _ (rate - 1)); nia. }
    assert (H2 : samples_below rate (S c) = S q).
    { symmetry. apply (Nat.div_unique _ _ _ 0); nia. }
    rewrite H1, H2. split; nia.
  - assert (H1 : samples_below rate c = S q).
    { symmetry. apply (Nat.div_unique _ _ _ (m - 1)); nia. }
    assert (H2 : samples_below rate (S c) = S q).
    { symmetry. apply (Nat.div_unique _ _ _ m); nia. }
    rewrite H1, H2. split; nia.
Qed.

Lemma read_frames_from {A B : Type} (convert : A -> B)
    (sample_rate total_frames : nat) (video : list A) :
  (0 < sample_rate)%nat -> (0 < total_frames)%nat ->
  forall frame_count all_frames frames_for_analysis,
  exists sampled,
    read_frames convert sample_rate total_frames video frame_count
                all_frames frames_for_analysis
    = Ok (all_frames ++ map convert video, frames_for_analysis ++ sampled) /\
    length sampled
    = (samples_below sample_rate (frame_count + length video)
       - samples_below sample_rate frame_count)%nat /\
    forall i, (i < length sampled)%nat ->
      nth_error sampled i
      = nth_error (map convert video)
          ((samples_below sample_rate frame_count + i) * sample_rate
           - frame_count).
Proof.
  intros Hrate Htotal.
  induction video as [| frame rest IH]; intros c all fa.
  - exists []. cbn [read_frames map length]. rewrite !app_nil_r, Nat.add_0_r.
    split; [reflexivity |]. split; [lia |]. cbn [length]. lia.
  - cbn [read_frames].
    rewrite (proj2 (Nat.eqb_neq total_frames 0)) by lia.
    rewrite (proj2 (Nat.eqb_neq sample_rate 0)) by lia.
    destruct (IH (S c) (all ++ [convert frame])
                 (if (c mod sample_rate =? 0)%nat
                  then fa ++ [convert frame] else fa))
      as (sampled & -> & Hlen & Hnth).
    destruct (samples_below_step sample_rate c Hrate) as [Hzero Hnonzero].
    cbn [length map]. rewrite Nat.add_succ_r.
    change (S (c + length rest)) with (S c + length rest)%nat in *.
    assert (Hmono : (samples_below sample_rate (S c)
                     <= samples_below sample_rate (S c + length rest))%nat).
    { apply Nat.Div0.div_le_mono. lia. }
    destruct (c mod sample_rate =? 0)%nat eqn:E.
    + apply Nat.eqb_eq in E. destruct (Hzero E) as [Hq HS].
      exists (convert frame :: sampled). rewrite <- !app_assoc. cbn [app].
      split; [reflexivity |]. cbn [length]. split; [lia |].
      intros [| i] Hi.
      * replace ((samples_below sample_rate c + 0) * sample_rate - c)%nat
          with 0%nat by lia.
        reflexivity.
      * rewrite HS in Hnth.
        change (nth_error (convert frame :: sampled) (S i))
          with (nth_error sampled i).
        cbn [length] in Hi. rewrite Hnth by lia.
        replace ((samples_below sample_rate c + S i) * sample_rate - c)%nat
          with (S ((S (samples_below sample_rate c) + i) * sample_rate - S c))
          by nia.
        reflexivity.
    + apply Nat.eqb_neq in E. destruct (Hnonzero E) as [HS Hlt].
      exists sampled. rewrite <- !app_assoc. cbn [app].
      split; [reflexivity |]. split; [lia |].
      intros i Hi. rewrite Hnth by assumption. rewrite HS.
      replace ((samples_below sample_rate c + i) * sample_rate - c)%nat
        with (S ((samples_below sample_rate c + i) * sample_rate - S c))
        by nia.
      reflexivity.
Qed.

Lemma read_frames_start {A B : Type} (convert : A -> B)
    (sample_rate total_frames : nat) (video : list A) :
  (0 < sample_rate)%nat -> (0 < total_frames)%nat ->
  exists frames_for_analysis,
    read_frames convert sample_rate total_frames video 0 [] []
    = Ok (map convert video, frames_for_analysis) /\
    length frames_for_analysis
    = ((length video + sample_rate - 1) / sample_rate)%nat /\
    forall i, (i < length frames_for_analysis)%nat ->
      nth_error frames_for_analysis i
      = nth_error (map convert video) (i * sample_rate).
Proof.
  intros Hrate Htotal.
  destruct (read_frames_from convert sample_rate total_frames video
              Hrate Htotal 0%nat [] []) as (sampled & Hrun & Hlen & Hnth).
  assert (Hzero : samples_below sample_rate 0 = 0%nat)
    by (apply Nat.div_small; lia).
  exists sampled. cbn [app] in Hrun. split; [exact Hrun |].
  rewrite Hzero in *. cbn [Nat.add] in *. split; [lia |].
  intros i Hi. rewrite (Hnth i Hi). f_equal. lia.
Qed.

Lemma read_frames_inv {A B : Type} (convert : A -> B)
    (sample_rate total_frames : nat) (video : list A) all_frames sampled :
  read_frames convert sample_rate total_frames video 0 [] []
  = Ok (all_frames, sampled) ->
  forall i, (i < length sampled)%nat ->
    nth_error sampled i = nth_error all_frames (i * sample_rate).
Proof.
  intros Hrun.
  destruct video as [| frame rest].
  - injection Hrun as <- <-. cbn [length]. lia.
  - assert (Hpos : (0 < sample_rate)%nat /\ (0 < total_frames)%nat).
    { cbn [read_frames] in Hrun.
      destruct total_frames; [discriminate |].
      destruct sample_rate; [discriminate |]. lia. }
    destruct (read_frames_start convert sample_rate total_frames
                (frame :: rest) (proj1 Hpos) (proj2 Hpos))
      as (sampled' & Hrun' & _ & Hnth).
    rewrite Hrun in Hrun'. injection Hrun' as -> ->. exact Hnth.
Qed.

(** X1. With a positive sample rate and a positive reported frame count the
    video loop ends normally: [all_frames] holds every frame of the video,
    converted, and [frames_for_analysis] holds the frames 0, rate, 2*rate,
    ... of the video, ceil(F / rate) of them. *)
Theorem read_frames_sampled {A B : Type} (convert : A -> B)
    (sample_rate total_frames : nat) (video : list A) :
  (0 < sample_rate)%nat -> (0 < total_frames)%nat ->
  exists frames_for_analysis,
    read_frames convert sample_rate total_frames video 0 [] []
    = Ok (map convert video, frames_for_analysis) /\
    length frames_for_analysis
    = ((length video + sample_rate - 1) / sample_rate)%nat /\
    forall i, (i < length frames_for_analysis)%nat ->
      nth_error frames_for_analysis i
      = nth_error (map convert video) (i * sample_rate).
Proof. apply read_frames_start. Qed.


(** ** The frame-difference signal *)

Lemma zip_absdiff_length (a : list Z) : forall b,
  length a = length b -> length (cv2.zip_absdiff a b) = length a.
Proof.
  induction a as [| x a IH]; intros [| y b] Hlen; cbn in *; try lia.
  rewrite IH; lia.
Qed.

Lemma zip_absdiff_range (a : list Z) : forall b,
  Forall (fun p => (0 <= p <= 255)%Z) a ->
  Forall (fun p => (0 <= p <= 255)%Z) b ->
  Forall (fun p => (0 <= p <= 255)%Z) (cv2.zip_absdiff a b).
Proof.
  induction a as [| x a IH]; intros [| y b] Ha Hb; cbn [cv2.zip_absdiff];
    try constructor.
  - inversion Ha; inversion Hb; subst. lia.
  - inversion Ha; inversion Hb; subst. now apply IH.
Qed.

Lemma zip_absdiff_comm (a : list Z) : forall b,
  cv2.zip_absdiff a b = cv2.zip_absdiff b a.
Proof.
  induction a as [| x a IH]; intros [| y b]; cbn [cv2.zip_absdiff];
    try reflexivity.
  rewrite IH. f_equal. lia.
Qed.

Lemma zip_absdiff_same (a : list Z) :
  cv2.zip_absdiff a a = map (fun _ => 0%Z) a.
Proof.
  induction a as [| x a IH]; [reflexivity |].
  cbn [cv2.zip_absdiff map]. rewrite IH. f_equal. lia.
Qed.

Lemma absdiff_same_shape (a b : Image) :
  same_shape a b ->
  cv2.absdiff a b = Ok (mkImage (shape a) (cv2.zip_absdiff (pix a) (pix b))).
Proof.
  intros [Hs Hl]. unfold cv2.absdiff. rewrite Hs, Hl, !Nat.eqb_refl. reflexivity.
Qed.

Lemma sum_bounds (lo hi : R) (l : list R) :
  Forall (fun x => lo <= x <= hi) l ->
  INR (length l) * lo <= np.sum l <= INR (length l) * hi.
Proof.
  induction 1 as [| x l Hx _ IH]; unfold np.sum in *.
  - cbn. lra.
  - cbn [fold_right length]. rewrite S_INR. lra.
Qed.

Lemma mean_bounds (lo hi : R) (l : list R) :
  (0 < length l)%nat -> Forall (fun x => lo <= x <= hi) l ->
  lo <= np.mean l <= hi.
Proof.
  intros Hpos Hall. unfold np.mean.
  pose proof (sum_bounds lo hi l Hall) as Hs.
  assert (Hn : 0 < INR (length l)) by now apply lt_0_INR.
  split.
  - apply Rmult_le_reg_r with (r := INR (length l)); [assumption |].
    unfold Rdiv. rewrite Rmult_assoc, Rinv_l by lra. lra.
  - apply Rmult_le_reg_r with (r := INR (length l)); [assumption |].
    unfold Rdiv. rewrite Rmult_assoc, Rinv_l by lra. lra.
Qed.

Lemma pixels_as_reals (lo hi : Z) (l : list Z) :
  Forall (fun p => (lo <= p <= hi)%Z) l ->
  Forall (fun x => IZR lo <= x <= IZR hi) (map IZR l).
Proof.
  induction 1 as [| p l Hp _ IH]; cbn [map]; constructor; [| assumption].
  split; apply IZR_le; lia.
Qed.

(** The pixels the threshold keeps are the pixels above it. *)
Lemma changed_pixels (diff : list Z) :
  filter (fun p => (0 <? p)%Z)
         (map (fun p => if (25 <? p)%Z then 255%Z else 0%Z) diff)
  = map (fun _ => 255%Z) (filter (fun p => (25 <? p)%Z) diff).
Proof.
  induction diff as [| p diff IH]; [reflexivity |].
  cbn [map filter]. destruct (25 <? p)%Z; cbn [Z.ltb Z.compare map]; now rewrite IH.
Qed.

(** The signal written out on two images of the same shape. *)
Lemma frame_difference_formula (a b : Image) :
  same_shape a b ->
  calculate_frame_difference_score a b
  = INR (length (filter (fun p => (25 <? p)%Z) (cv2.zip_absdiff (pix a) (pix b))))
      / INR (fst (shape a) * snd (shape a)) * 100
    + np.mean (map IZR (cv2.zip_absdiff (pix a) (pix b))) * 0.1.
Proof.
  intros Hsame. unfold calculate_frame_difference_score.
  rewrite absdiff_same_shape by assumption.
  cbn [bind try_or_zero]. unfold cv2.threshold. cbn [pix shape].
  now rewrite changed_pixels, length_map.
Qed.

(** X2. On two 8-bit images of the same shape the frame-difference signal
    lies between 0 and 125.5: up to 100 for the share of changed pixels
    plus up to 25.5 for a tenth of the mean difference. *)
Theorem frame_difference_bounds (prev_frame curr_frame : Image) :
  well_formed_image prev_frame -> well_formed_image curr_frame ->
  same_shape prev_frame curr_frame ->
  0 <= calculate_frame_difference_score prev_frame curr_frame <= 125.5.
Proof.
  intros (Hsize & Hpos & Hrange) (_ & _ & Hrange') Hsame.
  rewrite frame_difference_formula by assumption.
  destruct Hsame as [_ Hlen].
  set (diff := cv2.zip_absdiff (pix prev_frame) (pix curr_frame)).
  assert (Hdl : length diff = length (pix prev_frame))
    by now apply zip_absdiff_length.
  assert (Hmean : 0 <= np.mean (map IZR diff) <= 255).
  { apply mean_bounds; [rewrite length_map; lia |].
    apply (pixels_as_reals 0 255). now apply zip_absdiff_range. }
  rewrite <- Hsize, <- Hdl.
  pose proof (filter_length_le (fun p => (25 <? p)%Z) diff) as Hle.
  apply le_INR in Hle.
  assert (Hn : 0 < INR (length diff)) by (apply lt_0_INR; lia).
  pose proof (pos_INR (length (filter (fun p => (25 <? p)%Z) diff))) as Hc.
  set (changed := INR (length (filter (fun p => (25 <? p)%Z) diff))) in *.
  assert (Hratio : 0 <= changed / INR (length diff) <= 1).
  { split.
    - apply Rdiv_nonneg; lra.
    - apply Rmult_le_reg_r with (r := INR (length diff)); [assumption |].
      unfold Rdiv. rewrite Rmult_assoc, Rinv_l by lra. lra. }
  lra.
Qed.

(** X3. When no pixel changes by more than 25 grey levels the threshold
    keeps no pixel: the signal is a tenth of the mean difference and stays
    at or below 2.5. *)
Theorem frame_difference_small_changes (prev_frame curr_frame : Image) :
  well_formed_image prev_frame -> well_formed_image curr_frame ->
  same_shape prev_frame curr_frame ->
  Forall (fun d => (d <= 25)%Z)
         (cv2.zip_absdiff (pix prev_frame) (pix curr_frame)) ->
  calculate_frame_difference_score prev_frame curr_frame
  = np.mean (map IZR (cv2.zip_absdiff (pix prev_frame) (pix curr_frame))) * 0.1
  /\ calculate_frame_difference_score prev_frame curr_frame <= 2.5.
Proof.
  intros (Hsize & Hpos & Hrange) (_ & _ & Hrange') Hsame Hsmall.
  rewrite frame_difference_formula by assumption.
  destruct Hsame as [_ Hlen].
  set (diff := cv2.zip_absdiff (pix prev_frame) (pix curr_frame)) in *.
  assert (Hdl : length diff = length (pix prev_frame))
    by now apply zip_absdiff_length.
  assert (Hnone : filter (fun p => (25 <? p)%Z) diff = []).
  { clear Hdl. induction Hsmall as [| p l Hp _ IH]; [reflexivity |].
    cbn [filter]. rewrite (proj2 (Z.ltb_ge 25 p)) by lia. exact IH. }
  rewrite Hnone. cbn [length INR].
  assert (Hmean : 0 <= np.mean (map IZR diff) <= 25).
  { apply mean_bounds; [rewrite length_map; lia |].
    apply (pixels_as_reals 0 25).
    pose proof (zip_absdiff_range _ _ Hrange Hrange') as Hr. fold diff in Hr.
    rewrite Forall_forall in *. intros p Hp.
    specialize (Hr p Hp). specialize (Hsmall p Hp). lia. }
  unfold Rdiv at 1. rewrite Rmult_0_l, Rmult_0_l, Rplus_0_l.
  split; [reflexivity | lra].
Qed.

(** X4. The frame-difference signal does not depend on the order of the two
    frames. *)
Theorem frame_difference_symmetric (prev_frame curr_frame : Image) :
  calculate_frame_difference_score prev_frame curr_frame
  = calculate_frame_difference_score curr_frame prev_frame.
Proof.
  unfold calculate_frame_difference_score, cv2.absdiff.
  rewrite (Nat.eqb_sym (fst (shape curr_frame))),
          (Nat.eqb_sym (snd (shape curr_frame))),
          (Nat.eqb_sym (length (pix curr_frame))).
  destruct (Nat.eqb (fst (shape prev_frame)) (fst (shape curr_frame))) eqn:E1;
    [| reflexivity].
  destruct (Nat.eqb (snd (shape prev_frame)) (snd (shape curr_frame))) eqn:E2;
    [| reflexivity].
  destruct (Nat.eqb (length (pix prev_frame)) (length (pix curr_frame)));
    [| reflexivity].
  apply Nat.eqb_eq in E1, E2.
  cbn [andb bind try_or_zero]. unfold cv2.threshold. cbn [pix shape].
  now rewrite (zip_absdiff_comm (pix curr_frame)), E1, E2.
Qed.

Lemma mean_zeros (l : list Z) : np.mean (map IZR (map (fun _ => 0%Z) l)) = 0.
Proof.
  unfold np.mean.
  assert (Hs : np.sum (map IZR (map (fun _ => 0%Z) l)) = 0).
  { induction l as [| x l IH]; unfold np.sum in *; cbn [map fold_right]; lra. }
  rewrite Hs. unfold Rdiv. apply Rmult_0_l.
Qed.

Lemma filter_zeros (l : list Z) :
  filter (fun p => (25 <? p)%Z) (map (fun _ => 0%Z) l) = [].
Proof. induction l as [| x l IH]; [reflexivity | exact IH]. Qed.

Lemma frame_difference_same (f : Image) : calculate_frame_difference_score f f = 0.
Proof.
  rewrite frame_difference_formula by (split; reflexivity).
  rewrite zip_absdiff_same, filter_zeros, mean_zeros. cbn [length INR].
  unfold Rdiv. lra.
Qed.


(** ** scoring.py: reading a matrix *)

(** ** Reading a matrix: angles *)

Lemma atan_sign_neg (t : R) : t <= 0 -> atan t <= 0.
Proof.
  intros [Hlt | ->]; [| rewrite atan_0; lra].
  apply atan_increasing in Hlt. rewrite atan_0 in Hlt. lra.
Qed.

Lemma atan_sign_pos (t : R) : 0 < t -> 0 < atan t.
Proof. intros Hlt. apply atan_increasing in Hlt. now rewrite atan_0 in Hlt. Qed.

Lemma arctan2_range (y x : R) : - PI < np.arctan2 y x <= PI.
Proof.
  pose proof PI_RGT_0 as Hpi. unfold np.arctan2.
  destruct (Rltb 0 x) eqn:Hx.
  - pose proof (atan_bound (y / x)). lra.
  - apply Rltb_false in Hx. destruct (Rltb x 0) eqn:Hx'.
    + apply Rltb_true in Hx'.
      assert (Hinv : / x < 0) by now apply Rinv_lt_0_compat.
      destruct (Rleb 0 y) eqn:Hy.
      * apply Rleb_true in Hy.
        assert (y / x <= 0) by (unfold Rdiv; nra).
        pose proof (atan_sign_neg _ H). pose proof (atan_bound (y / x)). lra.
      * apply Rleb_false in Hy.
        assert (0 < y / x) by (unfold Rdiv; nra).
        pose proof (atan_sign_pos _ H). pose proof (atan_bound (y / x)). lra.
    + destruct (Rltb 0 y); [lra |]. destruct (Rltb y 0); lra.
Qed.

Lemma tan_ratio (s theta : R) :
  0 < s -> cos theta <> 0 -> s * sin theta / (s * cos theta) = tan theta.
Proof. intros Hs Hc. unfold tan. field. split; lra. Qed.

Lemma tan_period (theta : R) : cos theta <> 0 -> tan (theta + PI) = tan theta.
Proof.
  intros Hc. unfold tan. rewrite neg_sin, neg_cos. field. assumption.
Qed.

(** The angle of the point [s (cos theta, sin theta)] is [theta]. *)
Lemma arctan2_polar (s theta : R) :
  0 < s -> - PI < theta <= PI ->
  np.arctan2 (s * sin theta) (s * cos theta) = theta.
Proof.
  intros Hs [Hlo Hhi]. pose proof PI_RGT_0 as Hpi. unfold np.arctan2.
  destruct (Rtotal_order theta (- (PI / 2))) as [Hq | [Hq | Hq]].
  - (* third quadrant *)
    assert (Hc : cos theta < 0).
    { rewrite <- cos_neg. apply cos_lt_0; lra. }
    assert (Hsn : sin theta < 0).
    { pose proof (sin_gt_0 (- theta)) as Hg. rewrite sin_neg in Hg.
      assert (0 < - sin theta) by (apply Hg; lra). lra. }
    rewrite (proj2 (Rltb_false 0 (s * cos theta))) by nra.
    rewrite (proj2 (Rltb_true (s * cos theta) 0)) by nra.
    rewrite (proj2 (Rleb_false 0 (s * sin theta))) by nra.
    rewrite tan_ratio by lra.
    rewrite <- tan_period by lra.
    rewrite atan_tan by lra. lra.
  - subst theta. rewrite sin_neg, cos_neg, sin_PI2, cos_PI2.
    rewrite (proj2 (Rltb_false 0 (s * 0))) by lra.
    rewrite (proj2 (Rltb_false (s * 0) 0)) by lra.
    rewrite (proj2 (Rltb_false 0 (s * - (1)))) by lra.
    rewrite (proj2 (Rltb_true (s * - (1)) 0)) by lra. reflexivity.
  - destruct (Rtotal_order theta (PI / 2)) as [Hp | [Hp | Hp]].
    + assert (Hc : 0 < cos theta) by (apply cos_gt_0; lra).
      rewrite (proj2 (Rltb_true 0 (s * cos theta))) by nra.
      rewrite tan_ratio by lra. apply atan_tan. lra.
    + subst theta. rewrite sin_PI2, cos_PI2.
      rewrite (proj2 (Rltb_false 0 (s * 0))) by lra.
      rewrite (proj2 (Rltb_false (s * 0) 0)) by lra.
      rewrite (proj2 (Rltb_true 0 (s * 1))) by lra. reflexivity.
    + assert (Hc : cos theta < 0) by (apply cos_lt_0; lra).
      assert (Hsn : 0 <= sin theta) by (apply sin_ge_0; lra).
      rewrite (proj2 (Rltb_false 0 (s * cos theta))) by nra.
      rewrite (proj2 (Rltb_true (s * cos theta) 0)) by nra.
      rewrite (proj2 (Rleb_true 0 (s * sin theta))) by nra.
      rewrite tan_ratio by lra.
      assert (Hc' : cos (theta - PI) <> 0).
      { replace theta with (theta - PI + PI) in Hc by ring.
        rewrite neg_cos in Hc. lra. }
      replace (tan theta) with (tan (theta - PI)).
      * rewrite atan_tan by lra. lra.
      * rewrite <- (tan_period (theta - PI)) by assumption. f_equal. ring.
Qed.

Lemma similarity_scale (s theta : R) :
  0 <= s ->
  sqrt ((s * cos theta) ^ 2 + (s * sin theta) ^ 2) = s /\
  sqrt ((- (s * sin theta)) ^ 2 + (s * cos theta) ^ 2) = s.
Proof.
  intros Hs. pose proof (sin2_cos2 theta) as Hone. unfold Rsqr in Hone.
  split.
  - replace ((s * cos theta) ^ 2 + (s * sin theta) ^ 2) with (s * s) by nra.
    now apply sqrt_square.
  - replace ((- (s * sin theta)) ^ 2 + (s * cos theta) ^ 2) with (s * s) by nra.
    now apply sqrt_square.
Qed.

(** X5. [classify_movement_type] reads a similarity back: for the matrix
    of a rotation by [theta] in (-pi, pi], a uniform scale [s > 0] and a
    translation [(tx, ty)] it reports exactly that translation, the angle
    in degrees, the scale, and no perspective. *)
Theorem classify_similarity (s theta tx ty : R) :
  0 < s -> - PI < theta <= PI ->
  classify_movement_type (Some (similarity s theta tx ty))
  = mkMovementType tx ty (np.degrees theta) s 0.
Proof.
  intros Hs Ht. unfold classify_movement_type, similarity.
  cbn [h00 h01 h02 h10 h11 h12 h20 h21 h22].
  destruct (similarity_scale s theta) as [-> ->]; [lra |].
  rewrite arctan2_polar by assumption.
  rewrite Rabs_R0. unfold np.degrees.
  f_equal; lra.
Qed.

(** X6. The score of a similarity is linear in what it does: 1.5 per pixel
    of translation, 30 per radian of rotation, 50 per unit of scale change,
    plus a tenth of the variance of the displacements of the matched
    points (when there are at least two). *)
Theorem similarity_score (s theta tx ty : R) (src dst : list np.Pt) :
  0 < s -> - PI < theta <= PI -> length src = length dst ->
  calculate_movement_score (Some (similarity s theta tx ty)) src dst
  = sqrt (tx ^ 2 + ty ^ 2) * 1.5 + Rabs theta * 30 + Rabs (1 - s) * 50
    + 0.1 * variance_or_zero (map pair_displacement (combine src dst)).
Proof.
  intros Hs Ht Hlen. rewrite calculate_movement_score_some by assumption.
  unfold spec_homography_score, similarity.
  cbn [h00 h01 h02 h10 h11 h12 h20 h21 h22].
  destruct (similarity_scale s theta) as [-> ->]; [lra |].
  rewrite arctan2_polar by assumption.
  rewrite Rabs_R0.
  replace ((s + s) / 2) with s by lra. lra.
Qed.

(** X7. Whatever the matrix, the reported rotation lies between -180 and
    180 degrees, and the reported scaling and perspective are not
    negative. *)
Theorem classify_ranges (transformation_matrix : option Matrix) :
  let t := classify_movement_type transformation_matrix in
  - 180 <= rotation t <= 180 /\ 0 <= scaling t /\ 0 <= perspective t.
Proof.
  cbv zeta. pose proof PI_RGT_0 as Hpi.
  destruct transformation_matrix as [m |];
    cbn [classify_movement_type rotation scaling perspective]; [| lra].
  pose proof (arctan2_range (h10 m) (h00 m)) as [Hlo Hhi].
  pose proof (sqrt_pos (h00 m ^ 2 + h10 m ^ 2)).
  pose proof (sqrt_pos (h01 m ^ 2 + h11 m ^ 2)).
  pose proof (Rabs_pos (h20 m)). pose proof (Rabs_pos (h21 m)).
  unfold np.degrees.
  assert (Hk : 0 < 180 / PI) by (apply Rdiv_lt_0_compat; lra).
  assert (Hk' : PI * (180 / PI) = 180) by (field; lra).
  repeat split; try lra; nra.
Qed.

(** ** The dominant movement *)

(** Python's [max] with a key returns the first element whose key no other
    exceeds. *)
Lemma first_max_split {K : Type} (rest : list (K * R)) : forall kv,
  let best :=
    fold_left (fun best kv => if Rltb (snd best) (snd kv) then kv else best)
              rest kv in
  exists before later,
    kv :: rest = before ++ best :: later /\
    Forall (fun x => snd x < snd best) before /\
    Forall (fun x => snd x <= snd best) later.
Proof.
  induction rest as [| x rest IH] using rev_ind; intros kv; cbv zeta.
  - exists [], []. cbn [fold_left app]. repeat split; constructor.
  - rewrite fold_left_app. cbn [fold_left].
    destruct (IH kv) as (before & later & Hsplit & Hb & Ha).
    set (best := fold_left _ rest kv) in *.
    destruct (Rltb (snd best) (snd x)) eqn:E.
    + apply Rltb_true in E.
      exists (kv :: rest), []. split; [reflexivity |]. split; [| constructor].
      rewrite Hsplit. apply Forall_app. split.
      * eapply Forall_impl; [| exact Hb]. cbv beta. intros; lra.
      * constructor; [assumption |].
        eapply Forall_impl; [| exact Ha]. cbv beta. intros; lra.
    + apply Rltb_false in E.
      exists before, (later ++ [x]). split.
      * change (kv :: rest ++ [x]) with ((kv :: rest) ++ [x]).
        rewrite Hsplit, <- app_assoc. reflexivity.
      * split; [assumption |]. apply Forall_app. split; [assumption |].
        constructor; [assumption | constructor].
Qed.

(** X8. The dominant movement is the first of Translation, Rotation,
    Scaling, Perspective whose value no other exceeds: every kind listed
    before it has a strictly smaller value, every kind listed after it a
    value that is not larger.  On a tie the earlier kind wins. *)
Theorem dominant_type_first_max (movement_data : MovementType) :
  exists before v later,
    movement_values movement_data
    = before ++ (dominant_type movement_data, v) :: later /\
    Forall (fun kv => snd kv < v) before /\
    Forall (fun kv => snd kv <= v) later.
Proof.
  unfold dominant_type, max_key.
  destruct (movement_values movement_data) as [| kv rest] eqn:E;
    [discriminate |].
  destruct (first_max_split rest kv) as (before & later & Hsplit & Hb & Ha).
  exists before, (snd (fold_left
     (fun best kv0 => if Rltb (snd best) (snd kv0) then kv0 else best) rest kv)),
    later.
  rewrite <- surjective_pairing. now repeat split.
Qed.

(** ** A shape mismatch in the scorer *)

Lemma subtract_mismatch (a b : list np.Pt) :
  (1 < length a)%nat -> (1 < length b)%nat -> length a <> length b ->
  np.subtract a b = Raise.
Proof.
  intros Ha Hb Hne. unfold np.subtract.
  rewrite (proj2 (Nat.eqb_neq _ _) Hne).
  destruct a as [| p [| p' a]]; cbn [length] in Ha; try lia.
  destruct b as [| q [| q' b]]; cbn [length] in Hb; try lia.
  reflexivity.
Qed.

(** X9. A shape mismatch is swallowed: when the two point arrays have
    different lengths, each of at least two points, the subtraction raises
    inside the [try] and the score is 0.0, whatever the matrix. *)
Theorem score_shape_mismatch (H : option Matrix) (src_pts dst_pts : list np.Pt) :
  (1 < length src_pts)%nat -> (1 < length dst_pts)%nat ->
  length src_pts <> length dst_pts ->
  calculate_movement_score H src_pts dst_pts = 0.
Proof.
  intros Hs Hd Hne. unfold calculate_movement_score, displacements.
  rewrite subtract_mismatch by (assumption || congruence).
  destruct src_pts as [| p src]; [cbn [length] in Hs; lia |].
  destruct dst_pts as [| q dst]; [cbn [length] in Hd; lia |].
  destruct H; reflexivity.
Qed.

(** ** Lists read by index *)

Lemma index_all_inv (scores : list R) (indices : list nat) : forall picked,
  index_all scores indices = Ok picked ->
  Forall2 (fun i s => nth_error scores i = Some s) indices picked.
Proof.
  induction indices as [| i rest IH]; intros picked; cbn [index_all].
  - intros [= <-]. constructor.
  - destruct (nth_error scores i) as [s |] eqn:E; [| discriminate].
    destruct (index_all scores rest) as [r |]; [| discriminate].
    cbn [bind]. intros [= <-]. constructor; [assumption | now apply IH].
Qed.

Lemma index_all_raise (scores : list R) (indices : list nat) :
  index_all scores indices = Raise <->
  exists i, In i indices /\ (length scores <= i)%nat.
Proof.
  induction indices as [| i rest IH]; cbn [index_all].
  - split; [discriminate | intros (i & [] & _)].
  - destruct (nth_error scores i) as [s |] eqn:E.
    + assert (Hi : (i < length scores)%nat)
        by (apply nth_error_Some; congruence).
      destruct (index_all scores rest) as [r |]; cbn [bind].
      * split; [discriminate |].
        intros (j & [<- | Hj] & Hle); [lia |].
        destruct IH as [_ IH]. discriminate IH. now exists j.
      * split; [| reflexivity]. intros _.
        destruct IH as [IH _]. destruct (IH eq_refl) as (j & Hj & Hle).
        exists j. split; [now right | assumption].
    + apply nth_error_None in E. split; [| reflexivity].
      intros _. exists i. split; [now left | assumption].
Qed.

Lemma fold_min_spec (rest : list R) : forall x,
  In (fold_left Rmin rest x) (x :: rest) /\
  forall y, In y (x :: rest) -> fold_left Rmin rest x <= y.
Proof.
  induction rest as [| z rest IH]; intros x; cbn [fold_left].
  - split; [now left |]. intros y [<- | []]. lra.
  - destruct (IH (Rmin x z)) as [Hin Hle]. split.
    + destruct Hin as [Hin | Hin]; [| now right; right].
      rewrite <- Hin. unfold Rmin. destruct (Rle_dec x z); [now left | right; now left].
    + intros y Hy.
      pose proof (Hle (Rmin x z) (or_introl eq_refl)) as Hm.
      pose proof (Rmin_l x z). pose proof (Rmin_r x z).
      destruct Hy as [<- | [<- | Hy]]; try lra.
      apply Hle. now right.
Qed.

Lemma Forall2_combine {A B : Type} (P : A -> B -> Prop) (l1 : list A) (l2 : list B) :
  Forall2 P l1 l2 ->
  map fst (combine l1 l2) = l1 /\
  (forall a b, In (a, b) (combine l1 l2) -> P a b) /\
  (forall a, In a l1 -> exists b, In b l2 /\ P a b) /\
  (forall b, In b l2 -> exists a, In a l1 /\ P a b).
Proof.
  induction 1 as [| a b l1 l2 Hab _ (IH1 & IH2 & IH3 & IH4)];
    cbn [combine map fst].
  - repeat split; intros; contradiction.
  - split; [now rewrite IH1 |]. split; [| split].
    + intros a' b' [[= <- <-] | Hin]; [assumption | now apply IH2].
    + intros a' [<- | Hin]; [exists b; split; [now left | assumption] |].
      destruct (IH3 a' Hin) as (b' & Hb' & HP). exists b'. split; [now right | assumption].
    + intros b' [<- | Hin]; [exists a; split; [now left | assumption] |].
      destruct (IH4 b' Hin) as (a' & Ha' & HP). exists a'. split; [now right | assumption].
Qed.

(** The guarded lookups of the scatter plot agree with the plain ones when
    the plain ones succeed. *)
Lemma guarded_lookups (scores : list R) (indices : list nat) (picked : list R) :
  Forall2 (fun i s => nth_error scores i = Some s) indices picked ->
  map (fun i => if (i <? length scores)%nat then nth i scores 0 else 0) indices
  = picked.
Proof.
  induction 1 as [| i s indices picked His _ IH]; [reflexivity |].
  cbn [map]. rewrite IH. f_equal.
  assert (Hi : (i < length scores)%nat) by (apply nth_error_Some; congruence).
  rewrite (proj2 (Nat.ltb_lt _ _) Hi).
  now apply nth_error_nth.
Qed.

Section Further.

Context {cv : OpenCV}.

(** X10. [match_features] returns the empty list, without calling the
    matcher, when a descriptor array is [None] or has no row.  Otherwise it
    calls the matcher, outside any [try]: when the matcher takes the two
    arrays the result is exactly its matches, rearranged in ascending order
    of distance, and when the matcher raises so does [match_features]. *)
Theorem match_features_sorted (des1 des2 : option (list Descriptor)) :
  match des1, des2 with
  | Some d1, Some d2 =>
      if (0 <? length d1)%nat && (0 <? length d2)%nat
      then
        if bf_match_accepts d1 d2
        then exists matches,
               match_features des1 des2 = Ok matches /\
               StronglySorted (fun a b => distance a <= distance b) matches /\
               Permutation (bf_match d1 d2) matches
        else match_features des1 des2 = Raise
      else match_features des1 des2 = Ok []
  | _, _ => match_features des1 des2 = Ok []
  end.
Proof.
  unfold match_features.
  destruct des1 as [d1 |]; [destruct des2 as [d2 |] |]; try reflexivity.
  destruct ((0 <? length d1)%nat && (0 <? length d2)%nat); [| reflexivity].
  destruct (bf_match_accepts d1 d2); cbn [call bind]; [| reflexivity].
  eexists. split; [reflexivity |].
  split; [apply sorted_ordered | apply sorted_perm].
Qed.

(** X11. The good matches are a prefix of the sorted matches, and each of
    them is closer than 50 and closer than 2.5 times the best match. *)
Theorem good_matches_prefix (ms : list DMatch) :
  let matches := sorted distance ms in
  let good_matches := good_matches_of matches in
  good_matches = firstn (length good_matches) matches /\
  forall m best,
    In m good_matches -> hd_error matches = Some best ->
    distance m < 50 /\ distance m < distance best * 2.5.
Proof.
  cbv zeta. pose proof (sorted_ordered distance ms) as Hord.
  unfold good_matches_of.
  destruct (sorted distance ms) as [| m0 rest] eqn:E.
  - split; [reflexivity | intros m best []].
  - split.
    + now apply filter_below_prefix.
    + intros m best Hin [= <-].
      apply filter_In in Hin as [_ Hlt]. apply Rltb_true in Hlt.
      pose proof (Rmin_l 50 (distance m0 * 2.5)).
      pose proof (Rmin_r 50 (distance m0 * 2.5)). lra.
Qed.

Lemma good_matches_nil_iff (ms : list DMatch) :
  good_matches_of (sorted distance ms) = [] <->
  match hd_error (sorted distance ms) with
  | None => True
  | Some best => distance best <= 0 \/ 50 <= distance best
  end.
Proof.
  pose proof (sorted_ordered distance ms) as Hord.
  unfold good_matches_of.
  destruct (sorted distance ms) as [| m0 rest] eqn:E; cbn [hd_error].
  - tauto.
  - inversion Hord as [| ? ? _ Hall]; subst.
    set (t := Rmin 50 (distance m0 * 2.5)).
    assert (Ht : t <= 50 /\ t <= distance m0 * 2.5)
      by (split; [apply Rmin_l | apply Rmin_r]).
    split.
    + intros Hnil. cbn [filter] in Hnil.
      destruct (Rltb (distance m0) t) eqn:Hm0; [discriminate |].
      apply Rltb_false in Hm0. unfold t, Rmin in Hm0.
      destruct (Rle_dec 50 (distance m0 * 2.5)); lra.
    + intros Hbest. cbn [filter].
      assert (Hm0 : t <= distance m0) by lra.
      rewrite (proj2 (Rltb_false _ _) Hm0).
      clear Hord E.
      induction Hall as [| z l Hz _ IHl]; [reflexivity |].
      cbn [filter]. rewrite (proj2 (Rltb_false (distance z) t)) by lra.
      exact IHl.
Qed.

(** X12. No match is good exactly when there is no match at all or the best
    match has distance 0 (or less) or at least 50; in particular identical
    descriptors (distance 0) leave no good match. *)
Theorem good_matches_empty (ms : list DMatch) :
  good_matches_of (sorted distance ms) = [] <->
  match hd_error (sorted distance ms) with
  | None => True
  | Some best => distance best <= 0 \/ 50 <= distance best
  end.
Proof. apply good_matches_nil_iff. Qed.

(** ** One transition, whatever the thresholds *)

Ltac outcome_cases Hrun :=
  let Hu := fresh "Hu" in
  let pdes := fresh "pdes" in
  let d := fresh "d" in
  let src := fresh "src" in
  let dst := fresh "dst" in
  let Hfew := fresh "Hfew" in
  let Hmany := fresh "Hmany" in
  let Hsrc := fresh "Hsrc" in
  let Hdst := fresh "Hdst" in
  let Hs := fresh "Hs" in
  let H1 := fresh "Hdes1" in
  let H2 := fresh "Hdes2" in
  let Hp := fresh "Hp" in
  let Hd := fresh "Hd" in
  let Hcmp := fresh "Hcmp" in
  let Hbf := fresh "Hbf" in
  let Hfh := fresh "Hfh" in
  apply transition_inv in Hrun
    as [[Hu ->] | (pdes & d & H1 & H2 & Hp & Hd & Hcmp)];
  [| apply compare_frames_inv in Hcmp
       as [Hbf [[Hfew ->]
               | (src & dst & Hmany & Hsrc & Hdst & Hfh
                  & [[Hs ->] | [Hs ->]])]]].

(** The index only names the flags: the same two frames give the same score
    and matrix at every position. *)
Lemma transition_reindex self idx idx' f1 f2 o :
  transition self idx f1 f2 = Ok o ->
  transition self idx' f1 f2
  = Ok (map (fun _ => idx') (flags_of o), score_of o, matrix_of o).
Proof.
  intros Hrun. outcome_cases Hrun; unfold flags_of, score_of, matrix_of;
    cbn [fst snd].
  - now rewrite transition_unusable.
  - rewrite (transition_usable self idx' f1 f2 pdes d) by assumption.
    rewrite compare_frames_few by assumption.
    destruct (Rltb _ _); reflexivity.
  - rewrite (transition_usable self idx' f1 f2 pdes d) by assumption.
    rewrite (compare_frames_geometric _ _ _ _ _ _ _ _ src dst) by assumption.
    destruct (Rltb _ _); reflexivity.
  - rewrite (transition_usable self idx' f1 f2 pdes d) by assumption.
    rewrite (compare_frames_zero _ _ _ _ _ _ _ _ src dst) by assumption.
    do 2 destruct (Rltb _ _); reflexivity.
Qed.

(** The thresholds only decide the flags. *)
Lemma transition_thresholds self1 self2 idx f1 f2 o1 :
  min_match_count self2 = min_match_count self1 ->
  transition self1 idx f1 f2 = Ok o1 ->
  exists fl, transition self2 idx f1 f2 = Ok (fl, score_of o1, matrix_of o1).
Proof.
  intros Hm Hrun. outcome_cases Hrun; unfold score_of, matrix_of; cbn [fst snd].
  - rewrite transition_unusable by assumption. now eexists.
  - rewrite (transition_usable self2 idx f1 f2 pdes d) by assumption.
    rewrite compare_frames_few by (rewrite ?Hm; assumption). now eexists.
  - rewrite (transition_usable self2 idx f1 f2 pdes d) by assumption.
    rewrite (compare_frames_geometric _ _ _ _ _ _ _ _ src dst)
      by (rewrite ?Hm; assumption).
    now eexists.
  - rewrite (transition_usable self2 idx f1 f2 pdes d) by assumption.
    rewrite (compare_frames_zero _ _ _ _ _ _ _ _ src dst)
      by (rewrite ?Hm; assumption).
    now eexists.
Qed.

(** A transition appends its index at most twice. *)
Lemma transition_flags_length self idx f1 f2 o :
  transition self idx f1 f2 = Ok o -> (length (flags_of o) <= 2)%nat.
Proof.
  intros Hrun. outcome_cases Hrun; unfold flags_of; cbn [fst snd];
    unfold append_if;
    repeat match goal with
           | |- context [Rltb ?a ?b] => destruct (Rltb a b)
           end;
    cbn [app length]; lia.
Qed.


(** ** The whole sequence *)

Lemma transitions_thresholds self1 self2 frames : forall idx outs1,
  min_match_count self2 = min_match_count self1 ->
  transitions self1 idx frames = Ok outs1 ->
  exists outs2,
    transitions self2 idx frames = Ok outs2 /\
    map score_of outs2 = map score_of outs1 /\
    map matrix_of outs2 = map matrix_of outs1.
Proof.
  induction frames as [| f1 [| f2 fs] IH]; intros idx outs1 Hm Hrun.
  - injection Hrun as <-. now exists [].
  - injection Hrun as <-. now exists [].
  - rewrite transitions_cons in Hrun. rewrite transitions_cons.
    destruct (transition self1 idx f1 f2) as [o1 |] eqn:Eo; [| discriminate].
    cbn [bind] in Hrun.
    destruct (transitions self1 (S idx) (f2 :: fs)) as [os1 |] eqn:E; [| discriminate].
    injection Hrun as <-.
    destruct (transition_thresholds self1 self2 idx f1 f2 o1 Hm Eo) as [fl ->].
    destruct (IH (S idx) os1 Hm E) as (os2 & -> & Hs & Hx).
    cbn [bind]. eexists. split; [reflexivity |].
    cbn [map]. unfold score_of at 1, matrix_of at 1. cbn [fst snd].
    now rewrite Hs, Hx.
Qed.

(** The outcomes of a sequence begin with the outcomes of each of its
    prefixes. *)
Lemma transitions_prefix self fs gs : forall idx outs,
  transitions self idx (fs ++ gs) = Ok outs ->
  exists outs1 outs2,
    transitions self idx fs = Ok outs1 /\ outs = outs1 ++ outs2.
Proof.
  induction fs as [| f1 fs IH]; intros idx outs Hrun.
  - exists [], outs. now split.
  - destruct fs as [| f2 fs].
    + exists [], outs. now split.
    + change ((f1 :: f2 :: fs) ++ gs) with (f1 :: f2 :: (fs ++ gs)) in Hrun.
      rewrite transitions_cons in Hrun. rewrite transitions_cons.
      destruct (transition self idx f1 f2) as [o |]; [| discriminate].
      cbn [bind] in Hrun.
      destruct (transitions self (S idx) (f2 :: fs ++ gs)) as [os |] eqn:E;
        [| discriminate].
      injection Hrun as <-.
      destruct (IH (S idx) os E) as (os1 & os2 & -> & ->).
      cbn [bind]. exists (o :: os1), os2. now split.
Qed.

(** Whatever the thresholds, the recorded indices are in ascending order,
    each is the index of a transition of the sequence, and there are at
    most two per transition. *)
Lemma transitions_flags_ordered self frames : forall idx outs,
  transitions self idx frames = Ok outs ->
  StronglySorted le (concat (map flags_of outs)) /\
  (forall j, In j (concat (map flags_of outs)) ->
             (idx <= j < idx + length outs)%nat) /\
  (length (concat (map flags_of outs)) <= 2 * length outs)%nat.
Proof.
  induction frames as [| f1 [| f2 fs] IH]; intros idx outs Hrun.
  - injection Hrun as <-. cbn. repeat split; try constructor; intros; tauto.
  - injection Hrun as <-. cbn. repeat split; try constructor; intros; tauto.
  - rewrite transitions_cons in Hrun.
    destruct (transition self idx f1 f2) as [o |] eqn:Eo; [| discriminate].
    cbn [bind] in Hrun.
    destruct (transitions self (S idx) (f2 :: fs)) as [os |] eqn:E; [| discriminate].
    injection Hrun as <-.
    destruct (IH (S idx) os E) as (Hsorted & Hrange & Hlen).
    pose proof (transition_flags self idx f1 f2 o Eo) as Hown.
    pose proof (transition_flags_length self idx f1 f2 o Eo) as Htwo.
    cbn [map concat length]. split; [| split].
    + revert Hown. generalize (flags_of o) as fl.
      induction fl as [| x fl IHfl]; intros Hown; cbn [app]; [assumption |].
      constructor.
      * apply IHfl. intros j Hj. apply Hown. now right.
      * apply Forall_forall. intros j Hj. apply in_app_or in Hj as [Hj | Hj].
        -- rewrite (Hown x (or_introl eq_refl)), (Hown j (or_intror Hj)). lia.
        -- rewrite (Hown x (or_introl eq_refl)).
           specialize (Hrange j Hj). lia.
    + intros j Hj. apply in_app_or in Hj as [Hj | Hj].
      * rewrite (Hown j Hj). lia.
      * specialize (Hrange j Hj). lia.
    + rewrite length_app. lia.
Qed.

(** With non-negative thresholds each transition records at most one
    index. *)
Lemma transitions_flags_count self frames : forall idx outs,
  0 <= threshold_feature self -> 0 <= threshold_homography self ->
  transitions self idx frames = Ok outs ->
  (length (concat (map flags_of outs)) <= length outs)%nat.
Proof.
  induction frames as [| f1 [| f2 fs] IH]; intros idx outs Hf Hh Hrun.
  - injection Hrun as <-. cbn. lia.
  - injection Hrun as <-. cbn. lia.
  - rewrite transitions_cons in Hrun.
    destruct (transition self idx f1 f2) as [o |] eqn:Eo; [| discriminate].
    cbn [bind] in Hrun.
    destruct (transitions self (S idx) (f2 :: fs)) as [os |] eqn:E; [| discriminate].
    injection Hrun as <-.
    specialize (IH (S idx) os Hf Hh E).
    cbn [map concat length]. rewrite length_app.
    destruct (transition_flagged_positive self idx f1 f2 o Hf Hh Eo)
      as [-> | [-> _]]; cbn [length]; lia.
Qed.

(** What [extract_features] returned is what the loop of [detect] holds. *)
Lemma extract_features_inv f kp des :
  extract_features f = Ok (kp, des) ->
  accepted f = true /\ detectAndCompute (preprocess f) = (kp, des).
Proof.
  unfold extract_features. rewrite to_gray_accepted.
  destruct (accepted f); cbn [call bind]; [| discriminate].
  intros [= Heq]. split; [reflexivity |]. destruct f; exact Heq.
Qed.

(** X13. When two consecutive frames both have descriptors (as
    [extract_features] returns them) but their best match (as
    [match_features] orders them) has distance 0 (or at least 50, or there
    is no match), and [min_match_count] is positive, no homography is
    attempted: the recorded score is the maximum of the fallback signals, no
    matrix is stored, and the transition is flagged exactly when that
    maximum exceeds [threshold_feature]. *)
Theorem no_good_match_falls_back self frames r k f1 f2 kp1 des1 kp2 des2 matches :
  detect self frames = Ok r ->
  nth_error frames k = Some f1 -> nth_error frames (S k) = Some f2 ->
  extract_features f1 = Ok (kp1, des1) ->
  extract_features f2 = Ok (kp2, des2) ->
  usable des1 des2 = true ->
  (0 < min_match_count self)%Z ->
  match_features des1 des2 = Ok matches ->
  match hd_error matches with
  | None => True
  | Some best => distance best <= 0 \/ 50 <= distance best
  end ->
  recorded r k (fused_fallback f1 f2) /\
  stored r k None /\
  (flagged r k <-> threshold_feature self < fused_fallback f1 f2).
Proof.
  intros Hrun Hk HSk He1 He2 Hu Hmin Hms Hbest.
  destruct (detect_nth _ _ _ _ _ _ Hrun Hk HSk) as (o & Ho & Hrec & Hsto & Hflag).
  apply extract_features_inv in He1 as [_ He1], He2 as [_ He2].
  assert (Hfew : few_good_matches self f1 f2).
  { unfold usable in Hu. unfold match_features in Hms.
    destruct des1 as [pdes |]; [| discriminate].
    destruct des2 as [d |]; [| discriminate].
    rewrite Hu in Hms.
    apply andb_prop in Hu as [Hp Hd]. apply Nat.ltb_lt in Hp, Hd.
    destruct (bf_match_accepts pdes d); cbn [call bind] in Hms; [| discriminate].
    injection Hms as <-.
    exists pdes, d. rewrite He1, He2. repeat split; try assumption.
    rewrite (proj2 (good_matches_nil_iff (bf_match pdes d)) Hbest).
    cbn [length]. lia. }
  pose proof (few_transition self (S k) f1 f2 o Hfew Ho) as Heq.
  clear Ho. subst o.
  unfold score_of, matrix_of, flags_of in *. cbn [fst snd] in *.
  repeat split; try assumption.
  - intros Hf. apply Hflag, In_append_if_nil, Rltb_true in Hf. exact Hf.
  - intros Hlt. apply Hflag, In_append_if_nil, Rltb_true. exact Hlt.
Qed.

(** Where a stored matrix comes from. *)
Lemma stored_some_iff self frames r k f1 f2 H :
  detect self frames = Ok r ->
  nth_error frames k = Some f1 -> nth_error frames (S k) = Some f2 ->
  (stored r k (Some H) <->
   exists src_pts dst_pts,
     enough_good_matches self f1 f2 src_pts dst_pts /\
     findHomography src_pts dst_pts = Some H).
Proof.
  intros Hrun Hk HSk.
  destruct (detect_nth _ _ _ _ _ _ Hrun Hk HSk) as (o & Ho & _ & Hsto & _).
  unfold stored in *. rewrite Hsto. split.
  - intros [= Hm]. outcome_cases Ho; unfold matrix_of in Hm; cbn [snd] in Hm;
      try discriminate.
    + exists src, dst. split; [| exact Hm].
      exists pdes, d. repeat split; assumption.
    + exists src, dst. split; [| exact Hm].
      exists pdes, d. repeat split; assumption.
  - intros (src & dst & Hpath & HH).
    destruct (enough_transition self (S k) f1 f2 src dst o Hpath Ho)
      as [_ Hcase].
    rewrite HH in Hcase.
    destruct Hcase as [[_ Heq] | [_ Heq]]; rewrite Heq; reflexivity.
Qed.

(** X14. A matrix is stored for a transition exactly when the two frames had
    at least [min_match_count] good matches and the homography fit on their
    matched points returned that matrix. *)
Theorem stored_matrix_origin self frames r k f1 f2 H :
  detect self frames = Ok r ->
  nth_error frames k = Some f1 -> nth_error frames (S k) = Some f2 ->
  (stored r k (Some H) <->
   exists src_pts dst_pts,
     enough_good_matches self f1 f2 src_pts dst_pts /\
     findHomography src_pts dst_pts = Some H).
Proof.
  apply stored_some_iff.
Qed.

(** X15. The thresholds only decide which transitions are flagged: two
    detectors with the same [min_match_count] return the same scores and
    the same matrices on the same frames. *)
Theorem scores_ignore_thresholds self1 self2 frames r1 :
  min_match_count self2 = min_match_count self1 ->
  detect self1 frames = Ok r1 ->
  exists r2,
    detect self2 frames = Ok r2 /\
    movement_scores r2 = movement_scores r1 /\
    transformation_matrices r2 = transformation_matrices r1.
Proof.
  intros Hm Hrun.
  destruct (detect_inv _ _ _ Hrun) as (outs1 & Houts1 & _ & Hs & Hx).
  destruct (transitions_thresholds self1 self2 frames 1 outs1 Hm Houts1)
    as (outs2 & Houts2 & Hss & Hxs).
  rewrite detect_accepted, Houts2 by (eapply detect_frames_accepted; eassumption).
  cbn [bind].
  eexists. split; [reflexivity |].
  cbn [extend movement_scores transformation_matrices app].
  now rewrite Hs, Hx.
Qed.

(** X16. Each transition depends on its two frames only: the score, the
    matrix and the flag that [detect] records for frames k and k+1 of a
    sequence are those it records when given these two frames alone. *)
Theorem detect_pairwise self frames r k f1 f2 :
  detect self frames = Ok r ->
  nth_error frames k = Some f1 -> nth_error frames (S k) = Some f2 ->
  exists r2,
    detect self [f1; f2] = Ok r2 /\
    (forall s, recorded r k s <-> recorded r2 0 s) /\
    (forall H, stored r k H <-> stored r2 0 H) /\
    (flagged r k <-> flagged r2 0).
Proof.
  intros Hrun Hk HSk.
  destruct (detect_nth _ _ _ _ _ _ Hrun Hk HSk) as (o & Ho & Hrec & Hsto & Hflag).
  pose proof (transition_reindex self (S k) 1 f1 f2 o Ho) as Ho1.
  assert (Hfs : forallb accepted [f1; f2] = true).
  { pose proof (detect_frames_accepted _ _ _ Hrun) as Hall.
    rewrite forallb_forall in Hall. cbn [forallb].
    rewrite (Hall f1 (nth_error_In _ _ Hk)), (Hall f2 (nth_error_In _ _ HSk)).
    reflexivity. }
  rewrite detect_accepted, transitions_cons, Ho1 by assumption.
  cbn [transitions bind].
  eexists. split; [reflexivity |].
  unfold recorded, stored, flagged in *.
  cbn [extend movement_scores transformation_matrices movement_indices
       map concat app nth_error].
  unfold score_of at 2, matrix_of at 2, flags_of at 2. cbn [fst snd].
  rewrite Hrec, Hsto, Hflag, app_nil_r. repeat split; try tauto.
  - intros Hin. apply in_map_iff. exists (S k). now split.
  - intros Hin. apply in_map_iff in Hin as (j & _ & Hj).
    rewrite <- (transition_flags self (S k) f1 f2 o Ho j Hj). exact Hj.
Qed.

(** X17. Adding frames at the end changes nothing before them: the result
    for a sequence begins with the result for each of its prefixes. *)
Theorem detect_prefix self fs gs r :
  detect self (fs ++ gs) = Ok r ->
  exists r1 more_indices more_scores more_matrices,
    detect self fs = Ok r1 /\
    movement_indices r = movement_indices r1 ++ more_indices /\
    movement_scores r = movement_scores r1 ++ more_scores /\
    transformation_matrices r = transformation_matrices r1 ++ more_matrices.
Proof.
  intros Hrun.
  destruct (detect_inv _ _ _ Hrun) as (outs & Houts & Hi & Hs & Hx).
  destruct (transitions_prefix self fs gs 1 outs Houts) as (o1 & o2 & Ho1 & ->).
  assert (Hfs : forallb accepted fs = true).
  { pose proof (detect_frames_accepted _ _ _ Hrun) as Hall.
    rewrite forallb_app in Hall. now apply andb_prop in Hall as [Hall _]. }
  rewrite detect_accepted, Ho1 by assumption. cbn [bind].
  eexists. exists (concat (map flags_of o2)), (map score_of o2), (map matrix_of o2).
  split; [reflexivity |].
  cbn [extend movement_scores transformation_matrices movement_indices app].
  rewrite Hi, Hs, Hx, !map_app, concat_app. now repeat split.
Qed.

(** A transition contributes its own index only, at most twice, so no index
    is recorded more than twice. *)
Lemma transitions_flags_twice self frames : forall idx outs j,
  transitions self idx frames = Ok outs ->
  (count_occ Nat.eq_dec (concat (map flags_of outs)) j <= 2)%nat.
Proof.
  induction frames as [| f1 [| f2 fs] IH]; intros idx outs j Hrun.
  - injection Hrun as <-. cbn. lia.
  - injection Hrun as <-. cbn. lia.
  - rewrite transitions_cons in Hrun.
    destruct (transition self idx f1 f2) as [o |] eqn:Eo; [| discriminate].
    cbn [bind] in Hrun.
    destruct (transitions self (S idx) (f2 :: fs)) as [os |] eqn:E; [| discriminate].
    injection Hrun as <-.
    pose proof (transition_flags self idx f1 f2 o Eo) as Hown.
    pose proof (transition_flags_length self idx f1 f2 o Eo) as Htwo.
    destruct (transitions_flags_ordered self (f2 :: fs) (S idx) os E)
      as (_ & Hrange & _).
    cbn [map concat]. rewrite count_occ_app.
    destruct (Nat.eq_dec j idx) as [-> | Hne].
    + assert (Hrest : count_occ Nat.eq_dec (concat (map flags_of os)) idx = 0%nat).
      { apply count_occ_not_In. intros Hin. specialize (Hrange idx Hin). lia. }
      pose proof (count_occ_bound Nat.eq_dec idx (flags_of o)). lia.
    + assert (Hfirst : count_occ Nat.eq_dec (flags_of o) j = 0%nat).
      { apply count_occ_not_In. intros Hin. apply Hne. now apply Hown. }
      specialize (IH (S idx) os j E). lia.
Qed.

(** X18. Whatever the configuration, negative thresholds included, the
    returned [movement_indices] is in ascending order, every index in it
    lies in 1 .. N-1, and no index occurs in it more than twice: each
    transition contributes at most two entries, both equal to the index of
    its later frame. *)
Theorem indices_in_range self frames r :
  detect self frames = Ok r ->
  StronglySorted le (movement_indices r) /\
  (forall j, In j (movement_indices r) -> (1 <= j <= length frames - 1)%nat) /\
  (forall j, (count_occ Nat.eq_dec (movement_indices r) j <= 2)%nat) /\
  (length (movement_indices r) <= 2 * (length frames - 1))%nat.
Proof.
  intros Hrun.
  destruct (detect_inv _ _ _ Hrun) as (outs & Houts & -> & _ & _).
  destruct (transitions_flags_ordered self frames 1 outs Houts)
    as (Hsorted & Hrange & Hlen).
  pose proof (transitions_length _ _ _ _ Houts) as Houts_len.
  split; [exact Hsorted |]. split; [| split].
  - intros j Hj. specialize (Hrange j Hj). lia.
  - intros j. exact (transitions_flags_twice self frames 1 outs j Houts).
  - lia.
Qed.

(** X19. With non-negative thresholds no more frames are reported than
    there are transitions, so the movement percentage of the summary
    report, [len(movement_indices) / len(movement_scores) * 100], never
    exceeds 100. *)
Theorem flagged_count_bounded self frames r :
  0 <= threshold_feature self -> 0 <= threshold_homography self ->
  detect self frames = Ok r ->
  (length (movement_indices r) <= length (movement_scores r))%nat /\
  (movement_indices r <> [] ->
   INR (length (movement_indices r)) / INR (length (movement_scores r)) * 100
   <= 100).
Proof.
  intros Hf Hh Hrun.
  destruct (detect_inv _ _ _ Hrun) as (outs & Houts & -> & -> & _).
  pose proof (transitions_flags_count self frames 1 outs Hf Hh Houts) as Hle.
  rewrite length_map. split; [exact Hle |].
  intros Hne.
  assert (Hpos : (0 < length outs)%nat).
  { destruct (concat (map flags_of outs)); [congruence | cbn in Hle; lia]. }
  apply lt_0_INR in Hpos. apply le_INR in Hle.
  apply Rmult_le_reg_r with (r := INR (length outs)); [assumption |].
  field_simplify; lra.
Qed.


(** ** What a result of [detect] looks like *)

Lemma detect_shape self frames r :
  detect self frames = Ok r ->
  length (movement_scores r) = (length frames - 1)%nat /\
  length (transformation_matrices r) = (length frames - 1)%nat /\
  forall j, In j (movement_indices r) -> (1 <= j <= length frames - 1)%nat.
Proof.
  intros Hrun.
  destruct (detect_inv _ _ _ Hrun) as (outs & Houts & -> & -> & ->).
  destruct (transitions_flags_ordered self frames 1 outs Houts)
    as (_ & Hrange & _).
  pose proof (transitions_length _ _ _ _ Houts) as Hlen.
  rewrite !length_map. split; [exact Hlen |]. split; [exact Hlen |].
  intros j Hj. specialize (Hrange j Hj). lia.
Qed.

(** X20. The score plot of a result of [detect] fails with IndexError
    exactly when the last frame is reported: the threshold line reads
    [scores[i]] for every reported frame index [i], and the scores end at
    index N-2. *)
Theorem plot_raises_iff self frames r :
  detect self frames = Ok r ->
  (plot_movement_scores r = Raise <->
   In (length frames - 1)%nat (movement_indices r)).
Proof.
  intros Hrun. destruct (detect_shape _ _ _ Hrun) as (Hlen & _ & Hrange).
  unfold plot_movement_scores. cbv zeta.
  destruct (movement_indices r) as [| j0 rest] eqn:Ei.
  - cbn [bind]. split; [discriminate | intros []].
  - assert (Hpos : (0 < length (movement_scores r))%nat).
    { specialize (Hrange j0 (or_introl eq_refl)). lia. }
    rewrite (proj2 (Nat.ltb_lt _ _) Hpos).
    destruct (index_all (movement_scores r) (j0 :: rest)) as [picked |] eqn:E.
    + pose proof (index_all_inv _ _ _ E) as Hall.
      destruct picked as [| s picked]; [inversion Hall |].
      cbn [bind py_min]. split; [discriminate |].
      intros Hin.
      assert (Hr : index_all (movement_scores r) (j0 :: rest) = Raise).
      { apply index_all_raise. exists (length frames - 1)%nat. split; [assumption | lia]. }
      congruence.
    + cbn [bind]. split; [| reflexivity]. intros _.
      apply index_all_raise in E as (i & Hi & Hle).
      specialize (Hrange i Hi).
      replace (length frames - 1)%nat with i by lia. assumption.
Qed.

(** X21. When the score plot is drawn, it has one marker per reported
    frame, in order; the marker of frame [j] sits at the score recorded
    for the transition from frame [j] to frame [j+1] (the transition after
    the one that reported [j]), and the threshold line is the smallest of
    these heights; no line is drawn when no frame is reported. *)
Theorem plot_markers self frames r markers threshold :
  detect self frames = Ok r ->
  plot_movement_scores r = Ok (markers, threshold) ->
  map fst markers = movement_indices r /\
  (forall j h, In (j, h) markers -> recorded r j h) /\
  match threshold with
  | None => movement_indices r = []
  | Some t =>
      (exists j, In j (movement_indices r) /\ recorded r j t) /\
      (forall j s, In j (movement_indices r) -> recorded r j s -> t <= s)
  end.
Proof.
  intros Hrun. destruct (detect_shape _ _ _ Hrun) as (Hlen & _ & Hrange).
  unfold plot_movement_scores, recorded. cbv zeta.
  destruct (movement_indices r) as [| j0 rest] eqn:Ei.
  - cbn [bind]. intros [= <- <-]. repeat split. intros j h [].
  - assert (Hpos : (0 < length (movement_scores r))%nat).
    { specialize (Hrange j0 (or_introl eq_refl)). lia. }
    rewrite (proj2 (Nat.ltb_lt _ _) Hpos).
    destruct (index_all (movement_scores r) (j0 :: rest)) as [picked |] eqn:E;
      [| discriminate].
    pose proof (index_all_inv _ _ _ E) as Hall.
    rewrite (guarded_lookups _ _ _ Hall).
    destruct (Forall2_combine _ _ _ Hall) as (Hfst & Hin & Hl & Hr).
    destruct picked as [| s0 picked]; [inversion Hall |].
    cbn [bind py_min]. intros [= <- <-].
    destruct (fold_min_spec picked s0) as [Hmin Hle].
    split; [exact Hfst |]. split; [exact Hin |]. split.
    + destruct (Hr _ Hmin) as (j & Hj & Hs). now exists j.
    + intros j s Hj Hs. destruct (Hl j Hj) as (s' & Hs' & Heq).
      assert (s' = s) by congruence. subst s'. now apply Hle.
Qed.

(** ** The movement analysis and the frames shown *)

(** X22. The movement analysis lists a reported frame [idx] exactly when
    the transition from frame [idx] to frame [idx+1] stored a matrix, and
    it classifies that matrix: the analysis of a frame describes the
    transition that leaves it, and the last frame is never analysed. *)
Theorem movement_types_next_transition self frames r idx t :
  detect self frames = Ok r ->
  (In (idx, t) (movement_types r) <->
   In idx (movement_indices r) /\
   exists f1 f2 src_pts dst_pts H,
     nth_error frames idx = Some f1 /\ nth_error frames (S idx) = Some f2 /\
     enough_good_matches self f1 f2 src_pts dst_pts /\
     findHomography src_pts dst_pts = Some H /\
     t = classify_movement_type (Some H)).
Proof.
  intros Hrun. destruct (detect_shape _ _ _ Hrun) as (_ & Hlen & _).
  unfold movement_types. cbv zeta. rewrite in_flat_map. split.
  - intros (j & Hj & Hin).
    destruct (j <? length (transformation_matrices r))%nat eqn:Hlt;
      [| contradiction].
    apply Nat.ltb_lt in Hlt.
    destruct (nth_error (transformation_matrices r) j) as [[H |] |] eqn:E;
      try contradiction.
    destruct Hin as [[= -> <-] | []]. split; [assumption |].
    rewrite Hlen in Hlt.
    destruct (nth_error frames idx) as [f1 |] eqn:E1;
      [| apply nth_error_None in E1; lia].
    destruct (nth_error frames (S idx)) as [f2 |] eqn:E2;
      [| apply nth_error_None in E2; lia].
    destruct (proj1 (stored_some_iff self frames r idx f1 f2 H Hrun E1 E2) E)
      as (src & dst & Hpath & HH).
    exists f1, f2, src, dst, H. now repeat split.
  - intros (Hidx & f1 & f2 & src & dst & H & E1 & E2 & Hpath & HH & ->).
    exists idx. split; [assumption |].
    assert (E : nth_error (transformation_matrices r) idx = Some (Some H)).
    { apply (stored_some_iff self frames r idx f1 f2 H Hrun E1 E2).
      now exists src, dst. }
    assert (Hlt : (idx < length (transformation_matrices r))%nat)
      by (apply nth_error_Some; congruence).
    rewrite (proj2 (Nat.ltb_lt _ _) Hlt), E. now left.
Qed.

Lemma movement_frames_spec {A : Type} (frames : list A) (indices : list nat) :
  (forall idx frame, In (idx, frame) (movement_frames frames indices) <->
                     In idx indices /\ nth_error frames idx = Some frame) /\
  ((forall idx, In idx indices -> (idx < length frames)%nat) ->
   map fst (movement_frames frames indices) = indices).
Proof.
  unfold movement_frames. split.
  - intros idx frame. rewrite in_flat_map. split.
    + intros (j & Hj & Hin).
      destruct (j <? length frames)%nat; [| contradiction].
      destruct (nth_error frames j) as [f |] eqn:E; [| contradiction].
      destruct Hin as [[= -> <-] | []]. now split.
    + intros [Hidx E]. exists idx. split; [assumption |].
      assert (Hlt : (idx < length frames)%nat)
        by (apply nth_error_Some; congruence).
      rewrite (proj2 (Nat.ltb_lt _ _) Hlt), E. now left.
  - induction indices as [| j rest IH]; intros Hall; [reflexivity |].
    cbn [flat_map]. rewrite map_app, IH by (intros; apply Hall; now right).
    pose proof (Hall j (or_introl eq_refl)) as Hlt.
    rewrite (proj2 (Nat.ltb_lt _ _) Hlt).
    destruct (nth_error frames j) eqn:E; [reflexivity |].
    apply nth_error_None in E. lia.
Qed.

(** X23. On the image page, where [display_all_frames] receives the frames
    given to [detect], every reported index passes the bounds check and is
    shown with the frame at that index. *)
Theorem movement_frames_flagged self frames r :
  detect self frames = Ok r ->
  map fst (movement_frames frames (movement_indices r)) = movement_indices r /\
  forall idx frame,
    In (idx, frame) (movement_frames frames (movement_indices r)) <->
    In idx (movement_indices r) /\ nth_error frames idx = Some frame.
Proof.
  intros Hrun. destruct (detect_shape _ _ _ Hrun) as (_ & _ & Hrange).
  destruct (movement_frames_spec frames (movement_indices r)) as [Hin Hfst].
  split; [| exact Hin].
  apply Hfst. intros idx Hidx. specialize (Hrange idx Hidx). lia.
Qed.


(** ** Identical frames, and frames sampled from a video *)

Lemma edge_motion_same (f : Image) : calculate_edge_motion_score f f = 0.
Proof.
  unfold calculate_edge_motion_score.
  destruct (Canny f) as [e |]; cbn [bind try_or_zero]; [| reflexivity].
  rewrite absdiff_same_shape by (split; reflexivity).
  cbn [bind try_or_zero pix]. rewrite zip_absdiff_same, mean_zeros. lra.
Qed.

(** X24. A frame compared with itself: the frame-difference and the edge
    signals are 0, so the fused fallback score is the sparse-flow signal
    alone.  (The frame and its edge map are taken to have a pixel: on
    empty arrays numpy's means are not numbers.) *)
Theorem same_frame_fallback (f : Frame) :
  well_formed_image (preprocess f) ->
  (forall e, Canny (preprocess f) = Ok e -> (0 < length (pix e))%nat) ->
  fused_fallback f f
  = calculate_optical_flow_score (preprocess f) (preprocess f).
Proof.
  intros _ _. unfold fused_fallback. cbv zeta.
  rewrite frame_difference_same, edge_motion_same.
  pose proof (optical_flow_score_nonneg (preprocess f) (preprocess f)).
  rewrite (Rmax_right 0) by assumption. now apply Rmax_left.
Qed.

(** X25. The video page shows the right frames: every index that [detect]
    reports on the sampled frames is multiplied by the sample rate, none
    of the resulting indices is dropped by the bounds check of
    [display_all_frames], and the frame shown under [idx * rate] is the
    sampled frame [idx] that was analysed. *)
Theorem video_frames_shown {A : Type} (convert : A -> Frame)
    (sample_rate total_frames : nat) (video : list A)
    (self : CameraMovementDetector) all_frames frames_for_analysis r :
  read_frames convert sample_rate total_frames video 0 [] []
  = Ok (all_frames, frames_for_analysis) ->
  detect self frames_for_analysis = Ok r ->
  let original := original_movement_indices sample_rate (movement_indices r) in
  map fst (movement_frames all_frames original) = original /\
  forall idx, In idx (movement_indices r) ->
    exists frame,
      nth_error frames_for_analysis idx = Some frame /\
      In ((idx * sample_rate)%nat, frame) (movement_frames all_frames original).
Proof.
  intros Hread Hrun. cbv zeta.
  destruct (detect_shape _ _ _ Hrun) as (_ & _ & Hrange).
  pose proof (read_frames_inv _ _ _ _ _ _ Hread) as Hnth.
  destruct (movement_frames_spec all_frames
              (original_movement_indices sample_rate (movement_indices r)))
    as [Hin Hfst].
  assert (Hsampled : forall idx, In idx (movement_indices r) ->
            exists frame, nth_error frames_for_analysis idx = Some frame /\
                          nth_error all_frames (idx * sample_rate) = Some frame).
  { intros idx Hidx. specialize (Hrange idx Hidx).
    assert (Hlt : (idx < length frames_for_analysis)%nat) by lia.
    destruct (nth_error frames_for_analysis idx) as [frame |] eqn:E;
      [| apply nth_error_None in E; lia].
    exists frame. split; [reflexivity |]. now rewrite <- Hnth. }
  split.
  - apply Hfst. intros j Hj. unfold original_movement_indices in Hj.
    apply in_map_iff in Hj as (idx & <- & Hidx).
    destruct (Hsampled idx Hidx) as (frame & _ & E).
    apply nth_error_Some. congruence.
  - intros idx Hidx. destruct (Hsampled idx Hidx) as (frame & E1 & E2).
    exists frame. split; [assumption |]. apply Hin. split; [| assumption].
    unfold original_movement_indices. apply in_map_iff. now exists idx.
Qed.

End Further.

(** * The further properties on the scene *)

(** ** The camera pans, then pans back or holds *)

Lemma scene_matches_back :
  Scene.bf_match Scene.des_moved Scene.des_still = Scene.four_matches 2.
Proof.
  unfold Scene.bf_match. cbn [Scene.pair_rows]. zeval. reflexivity.
Qed.

Lemma scene_matches_hold :
  Scene.bf_match Scene.des_moved Scene.des_moved = Scene.four_matches 0.
Proof.
  unfold Scene.bf_match. cbn [Scene.pair_rows]. zeval. reflexivity.
Qed.

Lemma scene_enough_back fit self :
  min_match_count self = 4%Z ->
  scene_enough fit self Scene.panned Scene.still
               moved_corners Scene.corners_of_scene.
Proof.
  intros Hm. exists Scene.des_moved, Scene.des_still.
  split; [reflexivity |]. split; [reflexivity |].
  split; [cbn; lia |]. split; [cbn; lia |].
  cbv zeta. cbn [bf_match Scene.opencv].
  rewrite scene_matches_back, four_matches_sorted, good_matches_close, Hm by lra.
  split; [cbn; lia |]. split; reflexivity.
Qed.

Lemma scene_few_hold fit self :
  min_match_count self = 4%Z ->
  scene_few fit self Scene.panned Scene.panned.
Proof.
  intros Hm. exists Scene.des_moved, Scene.des_moved.
  split; [reflexivity |]. split; [reflexivity |].
  split; [cbn; lia |]. split; [cbn; lia |].
  cbn [bf_match Scene.opencv].
  rewrite scene_matches_hold, four_matches_sorted, good_matches_identical, Hm.
  cbn. lia.
Qed.

Lemma scene_fit_back :
  Scene.fit moved_corners Scene.corners_of_scene
  = Some (Scene.translation (-12) (-16)).
Proof.
  unfold Scene.fit, Scene.corners_of_scene, Scene.translation, Scene.shift.
  cbn [map fst snd]. do 2 f_equal; lra.
Qed.

Lemma displacements_unshift (pts : list np.Pt) (dx dy : R) :
  map pair_displacement (combine (map (Scene.shift dx dy) pts) pts)
  = repeat (sqrt (dx ^ 2 + dy ^ 2)) (length pts).
Proof.
  induction pts as [| p pts IH]; [reflexivity |].
  cbn [map combine length repeat]. rewrite IH. f_equal.
  unfold pair_displacement, Scene.shift. cbn [fst snd]. f_equal. ring.
Qed.

Lemma scene_score_back :
  spec_homography_score (Scene.translation (-12) (-16))
    (combine moved_corners Scene.corners_of_scene) = 30.
Proof.
  rewrite translation_score, displacements_unshift, variance_or_zero_repeat.
  replace ((-12) ^ 2 + (-16) ^ 2) with (20 * 20) by ring.
  rewrite sqrt_square by lra. lra.
Qed.

Lemma scene_transition_pan :
  scene_transition Scene.fit Scene.detector 1%nat Scene.still Scene.panned
  = Ok ([1%nat], 30, Some (Scene.translation 12 16)).
Proof.
  rewrite (scene_transition_enough Scene.fit Scene.detector _ _ _ _
             (Some (Scene.translation 12 16)) 30
             (Z.le_refl 4)
             (scene_enough_panned _ Scene.detector eq_refl) scene_fit_panned).
  - cbn [geometric_bar threshold_homography Scene.detector]. rdecide. reflexivity.
  - rewrite calculate_movement_score_some by reflexivity. apply scene_score_panned.
Qed.

Lemma scene_transition_back :
  scene_transition Scene.fit Scene.detector 1%nat Scene.panned Scene.still
  = Ok ([1%nat], 30, Some (Scene.translation (-12) (-16))).
Proof.
  rewrite (scene_transition_enough Scene.fit Scene.detector _ _ _ _
             (Some (Scene.translation (-12) (-16))) 30
             (Z.le_refl 4)
             (scene_enough_back _ Scene.detector eq_refl) scene_fit_back).
  - cbn [geometric_bar threshold_homography Scene.detector]. rdecide. reflexivity.
  - rewrite calculate_movement_score_some by reflexivity. apply scene_score_back.
Qed.

Lemma scene_fallback_hold fit : scene_fallback fit Scene.panned Scene.panned = 0.
Proof.
  unfold fused_fallback. cbv zeta.
  rewrite frame_difference_same, edge_motion_same, scene_flow_zero.
  rdecide. reflexivity.
Qed.

Lemma scene_transition_hold :
  scene_transition Scene.fit Scene.detector 1%nat Scene.panned Scene.panned
  = Ok ([], 0, None).
Proof.
  rewrite (few_transition_accepted (cv := Scene.opencv Scene.fit)
             Scene.detector 1%nat _ _
             (scene_few_hold _ Scene.detector eq_refl)
             (scene_matcher_accepts_orb _)).
  rewrite scene_fallback_hold.
  cbn [threshold_feature Scene.detector]. rdecide. reflexivity.
Qed.

(** A run on three frames, from its two transitions. *)
Lemma scene_run_three fit self f1 f2 f3 fl1 s1 H1 fl2 s2 H2 :
  scene_transition fit self 1%nat f1 f2 = Ok (fl1, s1, H1) ->
  scene_transition fit self 1%nat f2 f3 = Ok (fl2, s2, H2) ->
  forallb (accepted (cv := Scene.opencv fit)) [f1; f2; f3] = true ->
  Scene.run fit self [f1; f2; f3]
  = Ok (mkResult (fl1 ++ map (fun _ => 2%nat) fl2) [s1; s2] [H1; H2]).
Proof.
  intros Ho1 Ho2 Hfs. unfold Scene.run.
  rewrite detect_accepted, transitions_cons, Ho1, transitions_cons by assumption.
  rewrite (transition_reindex (cv := Scene.opencv fit) self 1 2 f2 f3 _ Ho2).
  cbn [transitions bind]. unfold extend, flags_of, score_of, matrix_of.
  cbn [map concat app fst snd movement_indices movement_scores
       transformation_matrices].
  now rewrite app_nil_r.
Qed.

Local Abbreviation pan_back := [Scene.still; Scene.panned; Scene.still].
Local Abbreviation pan_hold := [Scene.still; Scene.panned; Scene.panned].
Local Abbreviation pan_back_result :=
  (mkResult [1%nat; 2%nat] [30; 30]
            [Some (Scene.translation 12 16);
             Some (Scene.translation (-12) (-16))]).
Local Abbreviation pan_hold_result :=
  (mkResult [1%nat] [30; 0] [Some (Scene.translation 12 16); None]).

(** The camera pans and pans back: both moves are reported. *)
Lemma scene_run_pan_back :
  Scene.run Scene.fit Scene.detector pan_back = Ok pan_back_result.
Proof.
  rewrite (scene_run_three _ _ _ _ _ _ _ _ _ _ _
             scene_transition_pan scene_transition_back eq_refl).
  reflexivity.
Qed.

(** The camera pans and then holds: the first move only is reported. *)
Lemma scene_run_pan_hold :
  Scene.run Scene.fit Scene.detector pan_hold = Ok pan_hold_result.
Proof.
  rewrite (scene_run_three _ _ _ _ _ _ _ _ _ _ _
             scene_transition_pan scene_transition_hold eq_refl).
  reflexivity.
Qed.

(** * Witnesses of the further properties *)

Local Abbreviation on_scene := (Scene.opencv Scene.fit).

(** The same frame twice: the best match has distance 0, the fallback
    maximum is recorded and nothing is flagged. *)
Lemma no_good_match_falls_back_witness :
  let r := mkResult [] [0] [None] in
  Scene.run Scene.fit Scene.detector [Scene.still; Scene.still] = Ok r /\
  match_features (cv := on_scene) (Some Scene.des_still) (Some Scene.des_still)
  = Ok (Scene.four_matches 0) /\
  recorded r 0 (scene_fallback Scene.fit Scene.still Scene.still) /\
  stored r 0 None /\
  (flagged r 0 <->
   threshold_feature Scene.detector
   < scene_fallback Scene.fit Scene.still Scene.still).
Proof.
  cbv zeta. split; [exact scene_run_same_default |].
  assert (Hms : match_features (cv := on_scene)
                  (Some Scene.des_still) (Some Scene.des_still)
                = Ok (Scene.four_matches 0)).
  { unfold match_features.
    cbn [length Scene.des_still Nat.ltb Nat.leb andb bf_match_accepts bf_match
         Scene.opencv].
    change (Scene.bf_match_accepts Scene.des_still Scene.des_still) with true.
    cbn [call bind]. now rewrite scene_matches_same, four_matches_sorted. }
  split; [exact Hms |].
  apply (no_good_match_falls_back (cv := on_scene) Scene.detector
           [Scene.still; Scene.still] _ 0 Scene.still Scene.still
           (Scene.keypoints Scene.corners_of_scene) (Some Scene.des_still)
           (Scene.keypoints Scene.corners_of_scene) (Some Scene.des_still)
           (Scene.four_matches 0)
           scene_run_same_default eq_refl eq_refl eq_refl eq_refl eq_refl).
  - reflexivity.
  - exact Hms.
  - cbn [hd_error Scene.four_matches distance]. left. lra.
Defined.

(** The matrix stored after the pan is the fitted translation. *)
Lemma stored_matrix_origin_witness :
  let r := mkResult [1%nat] [30] [Some (Scene.translation 12 16)] in
  Scene.run Scene.fit Scene.detector [Scene.still; Scene.panned] = Ok r /\
  (stored r 0 (Some (Scene.translation 12 16)) <->
   exists src_pts dst_pts,
     scene_enough Scene.fit Scene.detector Scene.still Scene.panned
                  src_pts dst_pts /\
     Scene.fit src_pts dst_pts = Some (Scene.translation 12 16)).
Proof.
  cbv zeta. split; [exact scene_run_panned_default |].
  exact (stored_matrix_origin (cv := on_scene) Scene.detector
           [Scene.still; Scene.panned] _ 0 Scene.still Scene.panned
           (Scene.translation 12 16) scene_run_panned_default eq_refl eq_refl).
Defined.

(** The default and the sensitive detector record the same score and
    matrix on the noisy scene. *)
Lemma scores_ignore_thresholds_witness :
  exists r2,
    Scene.run Scene.fit Scene.sensitive [Scene.still; Scene.noisy] = Ok r2 /\
    movement_scores r2 = [0.075] /\
    transformation_matrices r2 = [Some (Scene.translation 0 0)].
Proof.
  exact (scores_ignore_thresholds (cv := on_scene) Scene.detector Scene.sensitive
           [Scene.still; Scene.noisy] _ eq_refl scene_run_noisy_default).
Defined.

(** The second transition of pan-and-back, and the same two frames alone. *)
Lemma detect_pairwise_witness :
  exists r2,
    Scene.run Scene.fit Scene.detector [Scene.panned; Scene.still] = Ok r2 /\
    (forall s, recorded pan_back_result 1 s <-> recorded r2 0 s) /\
    (forall H, stored pan_back_result 1 H <-> stored r2 0 H) /\
    (flagged pan_back_result 1 <-> flagged r2 0).
Proof.
  exact (detect_pairwise (cv := on_scene) Scene.detector pan_back _ 1
           Scene.panned Scene.still scene_run_pan_back eq_refl eq_refl).
Defined.

(** Pan-and-back begins with the result of the pan alone. *)
Lemma detect_prefix_witness :
  exists r1 more_indices more_scores more_matrices,
    Scene.run Scene.fit Scene.detector [Scene.still; Scene.panned] = Ok r1 /\
    movement_indices pan_back_result = movement_indices r1 ++ more_indices /\
    movement_scores pan_back_result = movement_scores r1 ++ more_scores /\
    transformation_matrices pan_back_result
    = transformation_matrices r1 ++ more_matrices.
Proof.
  exact (detect_prefix (cv := on_scene) Scene.detector
           [Scene.still; Scene.panned] [Scene.still] _ scene_run_pan_back).
Defined.

Lemma indices_in_range_witness :
  Scene.run Scene.fit Scene.detector pan_back = Ok pan_back_result /\
  StronglySorted le (movement_indices pan_back_result) /\
  (forall j, In j (movement_indices pan_back_result) -> (1 <= j <= 3 - 1)%nat) /\
  (forall j,
     (count_occ Nat.eq_dec (movement_indices pan_back_result) j <= 2)%nat) /\
  (length (movement_indices pan_back_result) <= 2 * (3 - 1))%nat.
Proof.
  split; [exact scene_run_pan_back |].
  exact (indices_in_range (cv := on_scene) Scene.detector pan_back _
           scene_run_pan_back).
Defined.

(** Pan-and-back: two frames reported out of two transitions, 100 percent. *)
Lemma flagged_count_bounded_witness :
  Scene.run Scene.fit Scene.detector pan_back = Ok pan_back_result /\
  (length (movement_indices pan_back_result)
   <= length (movement_scores pan_back_result))%nat /\
  (movement_indices pan_back_result <> [] ->
   INR (length (movement_indices pan_back_result))
   / INR (length (movement_scores pan_back_result)) * 100 <= 100).
Proof.
  split; [exact scene_run_pan_back |].
  apply (flagged_count_bounded (cv := on_scene) Scene.detector pan_back).
  - cbn [threshold_feature Scene.detector]. lra.
  - cbn [threshold_homography Scene.detector]. lra.
  - exact scene_run_pan_back.
Defined.

(** Pan-and-back reports the last frame: the plot fails. *)
Lemma plot_raises_iff_witness :
  Scene.run Scene.fit Scene.detector pan_back = Ok pan_back_result /\
  plot_movement_scores pan_back_result = Raise.
Proof.
  split; [exact scene_run_pan_back |].
  apply (plot_raises_iff (cv := on_scene) Scene.detector pan_back _
           scene_run_pan_back).
  right. left. reflexivity.
Defined.

(** Pan-and-hold: frame 1 was reported with score 30; its marker and the
    threshold line are drawn at 0, the score of the hold. *)
Lemma plot_markers_witness :
  Scene.run Scene.fit Scene.detector pan_hold = Ok pan_hold_result /\
  plot_movement_scores pan_hold_result = Ok ([(1%nat, 0)], Some 0) /\
  recorded pan_hold_result 0 30 /\
  (forall j h, In (j, h) [(1%nat, 0)] -> recorded pan_hold_result j h) /\
  (exists j, In j (movement_indices pan_hold_result) /\
             recorded pan_hold_result j 0).
Proof.
  split; [exact scene_run_pan_hold |]. split; [reflexivity |].
  split; [reflexivity |].
  destruct (plot_markers (cv := on_scene) Scene.detector pan_hold _
              [(1%nat, 0)] (Some 0) scene_run_pan_hold eq_refl)
    as (_ & Hheights & Hline & _).
  split; [exact Hheights | exact Hline].
Defined.

(** Pan-and-back: frame 1 was reported for the move by (12, 16); its
    analysis classifies the move back, by (-12, -16). *)
Lemma movement_types_next_transition_witness :
  let t := classify_movement_type (Some (Scene.translation (-12) (-16))) in
  Scene.run Scene.fit Scene.detector pan_back = Ok pan_back_result /\
  movement_types pan_back_result = [(1%nat, t)] /\
  exists f1 f2 src_pts dst_pts H,
    nth_error pan_back 1 = Some f1 /\ nth_error pan_back 2 = Some f2 /\
    scene_enough Scene.fit Scene.detector f1 f2 src_pts dst_pts /\
    Scene.fit src_pts dst_pts = Some H /\
    t = classify_movement_type (Some H).
Proof.
  cbv zeta. split; [exact scene_run_pan_back |]. split; [reflexivity |].
  apply (proj1 (movement_types_next_transition (cv := on_scene) Scene.detector
                  pan_back _ 1
                  (classify_movement_type (Some (Scene.translation (-12) (-16))))
                  scene_run_pan_back)).
  left. reflexivity.
Defined.

Lemma movement_frames_flagged_witness :
  Scene.run Scene.fit Scene.detector pan_back = Ok pan_back_result /\
  map fst (movement_frames pan_back (movement_indices pan_back_result))
  = [1%nat; 2%nat] /\
  forall idx frame,
    In (idx, frame) (movement_frames pan_back (movement_indices pan_back_result))
    <-> In idx [1%nat; 2%nat] /\ nth_error pan_back idx = Some frame.
Proof.
  split; [exact scene_run_pan_back |].
  exact (movement_frames_flagged (cv := on_scene) Scene.detector pan_back _
           scene_run_pan_back).
Defined.

Lemma scene_well_formed (p0 p1 p2 p3 : Z) :
  (0 <= p0 <= 255)%Z -> (0 <= p1 <= 255)%Z ->
  (0 <= p2 <= 255)%Z -> (0 <= p3 <= 255)%Z ->
  well_formed_image (Scene.img p0 p1 p2 p3).
Proof.
  intros. split; [reflexivity |]. split; [cbn; lia |].
  cbn [pix Scene.img]. repeat constructor; lia.
Qed.

(** The textured scene against itself. *)
Lemma same_frame_fallback_witness :
  well_formed_image (preprocess (cv := on_scene) Scene.still) /\
  scene_fallback Scene.fit Scene.still Scene.still
  = scene_flow Scene.fit (Scene.img 100 50 60 70) (Scene.img 100 50 60 70).
Proof.
  assert (Hwf : well_formed_image (preprocess (cv := on_scene) Scene.still))
    by (apply scene_well_formed; lia).
  split; [exact Hwf |].
  apply (same_frame_fallback (cv := on_scene) Scene.still Hwf).
  intros e [= <-]. cbn. lia.
Defined.

Local Abbreviation clip :=
  [Scene.still; Scene.dark; Scene.panned; Scene.bright; Scene.still].

(** A clip of five frames sampled at rate 2, its frames 0, 2 and 4 being
    pan-and-back: the frames shown are those at 2 and 4. *)
Lemma video_frames_shown_witness :
  read_frames (fun frame : Frame => frame) 2 5 clip 0 [] [] = Ok (clip, pan_back) /\
  Scene.run Scene.fit Scene.detector pan_back = Ok pan_back_result /\
  map fst (movement_frames clip [2%nat; 4%nat]) = [2%nat; 4%nat] /\
  forall idx, In idx [1%nat; 2%nat] ->
    exists frame,
      nth_error pan_back idx = Some frame /\
      In ((idx * 2)%nat, frame) (movement_frames clip [2%nat; 4%nat]).
Proof.
  split; [reflexivity |]. split; [exact scene_run_pan_back |].
  exact (video_frames_shown (cv := on_scene) (fun frame : Frame => frame) 2 5 clip
           Scene.detector clip pan_back _ eq_refl scene_run_pan_back).
Defined.

Lemma read_frames_sampled_witness :
  exists frames_for_analysis,
    read_frames (fun frame : Frame => frame) 2 5 clip 0 [] []
    = Ok (map (fun frame : Frame => frame) clip, frames_for_analysis) /\
    length frames_for_analysis = ((5 + 2 - 1) / 2)%nat /\
    forall i, (i < length frames_for_analysis)%nat ->
      nth_error frames_for_analysis i
      = nth_error (map (fun frame : Frame => frame) clip) (i * 2).
Proof.
  apply (read_frames_sampled (fun frame : Frame => frame) 2 5 clip); lia.
Defined.

(** The textured scene and the same scene with noise. *)
Lemma frame_difference_bounds_witness :
  same_shape (Scene.img 100 50 60 70) (Scene.img 101 50 60 72) /\
  0 <= calculate_frame_difference_score
         (Scene.img 100 50 60 70) (Scene.img 101 50 60 72) <= 125.5.
Proof.
  assert (Hsame : same_shape (Scene.img 100 50 60 70) (Scene.img 101 50 60 72))
    by (split; reflexivity).
  split; [exact Hsame |].
  apply frame_difference_bounds;
    [apply scene_well_formed; lia | apply scene_well_formed; lia | exact Hsame].
Defined.

Lemma frame_difference_small_changes_witness :
  calculate_frame_difference_score
    (Scene.img 100 50 60 70) (Scene.img 101 50 60 72)
  = np.mean (map IZR (cv2.zip_absdiff [100; 50; 60; 70] [101; 50; 60; 72])%Z) * 0.1
  /\ calculate_frame_difference_score
       (Scene.img 100 50 60 70) (Scene.img 101 50 60 72) <= 2.5.
Proof.
  apply (frame_difference_small_changes
           (Scene.img 100 50 60 70) (Scene.img 101 50 60 72)).
  - apply scene_well_formed; lia.
  - apply scene_well_formed; lia.
  - split; reflexivity.
  - cbn [pix Scene.img cv2.zip_absdiff]. repeat constructor; lia.
Defined.

(** A scale by 2 with a translation by (3, 4), without rotation. *)
Lemma classify_similarity_witness :
  classify_movement_type (Some (similarity 2 0 3 4))
  = mkMovementType 3 4 (np.degrees 0) 2 0.
Proof.
  apply classify_similarity; [lra |]. pose proof PI_RGT_0. lra.
Defined.

Lemma similarity_score_witness :
  calculate_movement_score (Some (similarity 2 0 3 4))
    Scene.corners_of_scene Scene.corners_of_scene
  = sqrt (3 ^ 2 + 4 ^ 2) * 1.5 + Rabs 0 * 30 + Rabs (1 - 2) * 50
    + 0.1 * variance_or_zero
              (map pair_displacement
                   (combine Scene.corners_of_scene Scene.corners_of_scene)).
Proof.
  apply similarity_score; [lra | pose proof PI_RGT_0; lra | reflexivity].
Defined.

(** Two source points against three destination points, with a matrix that
    alone would score 150. *)
Lemma score_shape_mismatch_witness :
  calculate_movement_score (Some (Scene.translation 100 0))
    [(0, 0); (1, 1)] [(0, 0); (1, 1); (2, 2)] = 0.
Proof.
  apply score_shape_mismatch; cbn [length]; lia.
Defined.
